(** * convert_audio_batch.py: batch audio conversion driver around FFmpeg

    A shallow embedding of [src/convert_audio_batch.py] and the proofs of
    the properties its specification states.

    Conventions of the embedding.
    - Text is [string]; a character is a code point below 256, with
      Python's [str.lower] and [str.isspace] on that range.
    - A path is what [pathlib.PurePosixPath] keeps of it: a root and the
      list of its components.  The pure path operations ([suffix],
      [with_suffix], [/], [relative_to], [str]) are functions; a suffix
      starts at the last dot of the name, unless that dot is its first
      or its last character.  [expanduser] asks the environment for a
      home directory and raises [RuntimeError] when there is none;
      [resolve] depends on the working directory and belongs to the
      environment.
    - The file system is a listing of the existing paths; the order of
      the entries of one directory in it is the order in which the
      system lists that directory.  There are no symbolic links and no
      permissions.  The system refuses a path with a component of more
      than 255 bytes, or of 4096 bytes or more in all, with [OSError];
      [exists], [is_file], [is_dir] and [mkdir] pass that error on.
    - The file system, the printed lines and the launched processes form
      the [World]; every statement of the script that touches one of them
      is a step of the monad [M].  What an external process does is not
      the script's business: it is an oracle of the environment [Env].
    - [sys.exit] and uncaught exceptions end a run early; the exit status
      of the process is read off the way the run ended, as a parent
      process reads it ([returncode] of [subprocess]): a negative number
      says that a signal ended the process. *)

From Stdlib Require Import List Bool Arith Lia ZArith NArith.
From Stdlib Require Import Ascii String DecimalString Sorted.
Import ListNotations.

Open Scope string_scope.
Open Scope list_scope.

Infix "+++" := String.append (at level 60, right associativity).

(* ================================================================== *)
(** * Python strings *)
(* ================================================================== *)

Module PyStr.

(** Truth value of a [str]: the empty string is false. *)
Definition truthy (s : string) : bool :=
  match s with EmptyString => false | String _ _ => true end.

(** [str.isspace] on one character (code points below 256). *)
Definition is_space (c : ascii) : bool :=
  let n := N_of_ascii c in
  ((9 <=? n) && (n <=? 13) || (28 <=? n) && (n <=? 32)
   || (n =? 133) || (n =? 160))%N.

(** [str.lower] on one character (code points below 256). *)
Definition lower_char (c : ascii) : ascii :=
  let n := N_of_ascii c in
  if ((65 <=? n) && (n <=? 90)
      || (192 <=? n) && (n <=? 222) && negb (n =? 215))%N
  then ascii_of_N (n + 32) else c.

Fixpoint lower (s : string) : string :=
  match s with
  | EmptyString => EmptyString
  | String c s' => String (lower_char c) (lower s')
  end.

(** [s.lstrip(chars)], the characters to drop given as a predicate. *)
Fixpoint lstrip (p : ascii -> bool) (s : string) : string :=
  match s with
  | EmptyString => EmptyString
  | String c s' => if p c then lstrip p s' else s
  end.

(** [s.rstrip(chars)]. *)
Fixpoint rstrip (p : ascii -> bool) (s : string) : string :=
  match s with
  | EmptyString => EmptyString
  | String c s' =>
      match rstrip p s' with
      | EmptyString => if p c then EmptyString else String c EmptyString
      | r => String c r
      end
  end.

(** [s.strip()]. *)
Definition strip (s : string) : string := lstrip is_space (rstrip is_space s).

Definition is_dot (c : ascii) : bool := (c =? ".")%char.

(** [s.split(sep)] for a one-character separator: one more piece than
    there are separators. *)
Fixpoint split (sep : ascii) (s : string) : list string :=
  match s with
  | EmptyString => [EmptyString]
  | String c s' =>
      if (c =? sep)%char then EmptyString :: split sep s'
      else match split sep s' with
           | h :: t => String c h :: t
           | [] => [String c EmptyString]
           end
  end.

(** [sep.join(pieces)]. *)
Fixpoint join (sep : string) (l : list string) : string :=
  match l with
  | [] => EmptyString
  | [x] => x
  | x :: rest => x +++ sep +++ join sep rest
  end.

(** [c in s]. *)
Fixpoint contains (c : ascii) (s : string) : bool :=
  match s with
  | EmptyString => false
  | String d s' => (d =? c)%char || contains c s'
  end.

(** [x in (s1, s2, ...)]. *)
Definition mem (x : string) (l : list string) : bool :=
  existsb (String.eqb x) l.

(** [str(n)] for an [int]. *)
Definition str_int (z : Z) : string := NilZero.string_of_int (Z.to_int z).

(** [name.rfind('.')], as the two sides of the last dot. *)
Fixpoint rsplit_dot (s : string) : option (string * string) :=
  match s with
  | EmptyString => None
  | String c s' =>
      match rsplit_dot s' with
      | Some (a, b) => Some (String c a, b)
      | None => if is_dot c then Some (EmptyString, s') else None
      end
  end.

End PyStr.
Import PyStr.

(* ================================================================== *)
(** * pathlib: pure paths *)
(* ================================================================== *)

(** A parsed path: [root] is [""], ["/"] or ["//"]; [parts] are the
    components after it, none empty and none ["."]. *)
Record Path := mkPath { root : string; parts : list string }.

Definition Path_eq_dec (p q : Path) : {p = q} + {p <> q}.
Proof. decide equality; [apply (list_eq_dec string_dec) | apply string_dec]. Defined.

Definition Path_eqb (p q : Path) : bool := if Path_eq_dec p q then true else false.

Module PurePath.

(** Number of leading slashes decides the root: none, two, or any other
    number. *)
Fixpoint leading_slashes (s : string) : nat :=
  match s with
  | String "/" s' => S (leading_slashes s')
  | _ => 0
  end.

Definition parse_root (s : string) : string :=
  match leading_slashes s with
  | 0 => ""
  | 2 => "//"
  | _ => "/"
  end.

Definition keep_part (x : string) : bool := truthy x && negb (x =? ".")%string.

(** [Path(s)]. *)
Definition of_str (s : string) : Path :=
  mkPath (parse_root s) (filter keep_part (split "/" s)).

(** [str(p)]. *)
Definition to_str (p : Path) : string :=
  match root p, parts p with
  | EmptyString, [] => "."
  | r, l => r +++ join "/" l
  end.

(** [p / q] for a path [q]. *)
Definition joinpath (p q : Path) : Path :=
  if truthy (root q) then q else mkPath (root p) (parts p ++ parts q).

(** [p / s] for a string [s]. *)
Definition joinstr (p : Path) (s : string) : Path := joinpath p (of_str s).

(** [p.name]. *)
Definition name (p : Path) : string := last (parts p) "".

(** The suffix of a file name: from the last dot on, unless that dot is
    the first or the last character. *)
Definition name_suffix (nm : string) : string :=
  match rsplit_dot nm with
  | Some (String a a', String b b') => String "." (String b b')
  | _ => ""
  end.

(** The name without its suffix. *)
Definition name_stem (nm : string) : string :=
  match rsplit_dot nm with
  | Some (String a a', String b b') => String a a'
  | _ => nm
  end.

(** [p.suffix]. *)
Definition suffix (p : Path) : string := name_suffix (name p).

(** [p.parent]. *)
Definition parent (p : Path) : Path := mkPath (root p) (removelast (parts p)).

(** [p.with_suffix(suffix)]; [None] is [ValueError]. *)
Definition with_suffix (p : Path) (sfx : string) : option Path :=
  if contains "/" sfx then None
  else if (truthy sfx && negb (String.prefix "." sfx)) || (sfx =? ".")%string then None
  else if negb (truthy (name p)) then None
  else Some (mkPath (root p)
                    (removelast (parts p) ++ [name_stem (name p) +++ sfx])).

Fixpoint strip_prefix (base l : list string) : option (list string) :=
  match base, l with
  | [], _ => Some l
  | b :: base', x :: l' => if (b =? x)%string then strip_prefix base' l' else None
  | _ :: _, [] => None
  end.

(** [p.relative_to(base)]; [None] is [ValueError]. *)
Definition relative_to (p base : Path) : option Path :=
  if (root p =? root base)%string then
    match strip_prefix (parts base) (parts p) with
    | Some rest => Some (mkPath "" rest)
    | None => None
    end
  else None.

End PurePath.
Import PurePath.

(* ================================================================== *)
(** * The parsed command line *)
(* ================================================================== *)

(** The [argparse.Namespace] that [parser.parse_args()] returns. *)
Record Args := mkArgs {
  input : string;
  output : string;
  formats : string;
  bitrate : option string;
  samplerate : option Z;
  channels : option Z;
  normalize : bool;
  overwrite : bool;
  dry_run : bool;
  ffmpeg : option string;
  telephony : bool
}.

(** Truth value of an optional [str] and of an optional [int]. *)
Definition truthy_opt (o : option string) : bool :=
  match o with Some s => truthy s | None => false end.

Definition truthy_int (o : option Z) : bool :=
  match o with Some z => negb (z =? 0)%Z | None => false end.

Definition SUPPORTED_INPUTS : list string :=
  [".mp3"; ".wav"; ".ogg"; ".m4a"; ".aac"; ".flac"; ".wma"; ".aiff"; ".aif";
   ".opus"; ".caf"].

(* ================================================================== *)
(** * The command builder *)
(* ================================================================== *)

(** The [-b:a] pair, when [args.bitrate] is true. *)
Definition bitrate_opt (args : Args) : list string :=
  match bitrate args with
  | Some b => if truthy b then ["-b:a"; b] else []
  | None => []
  end.

(** The codec chosen from the destination's extension. *)
Definition codec_args (ext : string) (args : Args) : list string :=
  if (ext =? ".mp3")%string then ["-c:a"; "libmp3lame"] ++ bitrate_opt args
  else if mem ext [".aac"; ".m4a"] then ["-c:a"; "aac"] ++ bitrate_opt args
  else if (ext =? ".opus")%string then ["-c:a"; "libopus"] ++ bitrate_opt args
  else if (ext =? ".ogg")%string then ["-c:a"; "libvorbis"] ++ bitrate_opt args
  else if (ext =? ".flac")%string then ["-c:a"; "flac"]
  else if mem ext [".wav"; ".aiff"; ".aif"] then ["-c:a"; "pcm_s16le"]
  else bitrate_opt args.

Definition build_ffmpeg_cmd (ffmpeg_bin : string) (src dst : Path) (args : Args)
  : list string :=
  let cmd := [ffmpeg_bin; "-hide_banner"; "-loglevel"; "error";
              if overwrite args then "-y" else "-n";
              "-i"; to_str src] in
  let afilters :=
    if normalize args then ["loudnorm=I=-16:LRA=11:TP=-1.5:linear=true"] else [] in
  let cmd := match afilters with
             | [] => cmd
             | _ => cmd ++ ["-af"; join "," afilters]
             end in
  let ext := lower (suffix dst) in
  let cmd := cmd ++ codec_args ext args in
  let cmd := if truthy_int (samplerate args)
             then cmd ++ ["-ar"; str_int (match samplerate args with Some z => z | None => 0%Z end)]
             else cmd in
  let cmd := if truthy_int (channels args)
             then cmd ++ ["-ac"; str_int (match channels args with Some z => z | None => 0%Z end)]
             else cmd in
  cmd ++ [to_str dst].

(* ================================================================== *)
(** * The format list and the telephony preset *)
(* ================================================================== *)

(** One element of the comprehension of [main]:
    [f".{fmt.strip().lower().lstrip('.')}"]. *)
Definition target_of (fmt : string) : string :=
  "." +++ lstrip is_dot (lower (strip fmt)).

(** [targets = [... for fmt in args.formats.split(",") if fmt.strip()]]. *)
Definition targets_of (formats : string) : list string :=
  map target_of (filter (fun fmt => truthy (strip fmt)) (split "," formats)).

(** The assignments under [if args.telephony:]. *)
Definition apply_telephony (args : Args) : Args :=
  if telephony args then
    mkArgs (input args) (output args) (formats args) (bitrate args)
           (match samplerate args with None => Some 8000%Z | Some r => Some r end)
           (match channels args with None => Some 1%Z | Some c => Some c end)
           (normalize args) (overwrite args) (dry_run args) (ffmpeg args)
           (telephony args)
  else args.

(* ================================================================== *)
(** * The world: file system, printed lines, launched processes *)
(* ================================================================== *)

Inductive Kind := File | Dir.

(** The file system: the existing paths, in the order a traversal lists
    them.  The root and the current directory always exist. *)
Definition FS := list (Path * Kind).

Module Fs.

(** The limits of the system on a path handed to it (Linux): a
    component of more than [NAME_MAX] bytes, or a path of [PATH_MAX]
    bytes or more, is refused with [OSError], errno [ENAMETOOLONG].  In
    the encoding of the file system (UTF-8) a code point from 128 on
    takes two bytes. *)
Definition NAME_MAX : nat := 255.
Definition PATH_MAX : nat := 4096.

Fixpoint encoded_length (s : string) : nat :=
  match s with
  | EmptyString => 0
  | String c s' => (if (N_of_ascii c <? 128)%N then 1 else 2) + encoded_length s'
  end.

Definition name_too_long (x : string) : bool := (NAME_MAX <? encoded_length x)%nat.

Definition too_long (p : Path) : bool :=
  (PATH_MAX <=? encoded_length (to_str p))%nat || existsb name_too_long (parts p).

Fixpoint assoc (fs : FS) (p : Path) : option Kind :=
  match fs with
  | [] => None
  | (q, k) :: fs' => if Path_eqb q p then Some k else assoc fs' p
  end.

(** What [p] names: nothing, a file or a directory.  A path that the
    system refuses names nothing, whatever the listing says. *)
Definition kind_of (fs : FS) (p : Path) : option Kind :=
  match parts p with
  | [] => Some Dir
  | _ => if too_long p then None else assoc fs p
  end.

(** [p.exists()], [p.is_file()], [p.is_dir()], for a path that the
    system accepts. *)
Definition exists_ (fs : FS) (p : Path) : bool :=
  match kind_of fs p with Some _ => true | None => false end.

Definition is_file (fs : FS) (p : Path) : bool :=
  match kind_of fs p with Some File => true | _ => false end.

Definition is_dir (fs : FS) (p : Path) : bool :=
  match kind_of fs p with Some Dir => true | _ => false end.

(** [q] lies strictly below [d]. *)
Definition below (d q : Path) : bool :=
  (root q =? root d)%string &&
  match strip_prefix (parts d) (parts q) with
  | Some (_ :: _) => true
  | _ => false
  end.

(** The place of [p] in a listing. *)
Fixpoint index_of (l : list Path) (p : Path) : nat :=
  match l with
  | [] => 0
  | q :: l' => if Path_eqb q p then 0 else S (index_of l' p)
  end.

(** The way from the directory [pre] down to an entry whose path
    relative to it is [rel]: the places in the listing of the
    directories passed, the nearest to [pre] first.  An entry of [pre]
    itself passes none. *)
Fixpoint walk_key (l : list Path) (r : string) (pre rel : list string) : list nat :=
  match rel with
  | [] => []
  | x :: rel' =>
      match rel' with
      | [] => []
      | _ :: _ => index_of l (mkPath r (pre ++ [x])) :: walk_key l r (pre ++ [x]) rel'
      end
  end.

(** The order of two ways: the first directory in which they part
    decides, and a way that ends comes before those that go on. *)
Fixpoint key_le (a b : list nat) : bool :=
  match a, b with
  | [], _ => true
  | _ :: _, [] => false
  | x :: a', y :: b' => (x <? y)%nat || ((x =? y)%nat && key_le a' b')
  end.

Fixpoint insert_by {A} (le : A -> A -> bool) (x : A) (l : list A) : list A :=
  match l with
  | [] => [x]
  | y :: l' => if le x y then x :: l else y :: insert_by le x l'
  end.

(** A stable sort. *)
Definition sort_by {A} (le : A -> A -> bool) (l : list A) : list A :=
  fold_right (insert_by le) [] l.

(** The way from [d] down to [p], an entry below [d]. *)
Definition walk_of (fs : FS) (d p : Path) : list nat :=
  match strip_prefix (parts d) (parts p) with
  | Some rel => walk_key (map fst fs) (root d) (parts d) rel
  | None => []
  end.

Definition walk_le (fs : FS) (d p q : Path) : bool :=
  key_le (walk_of fs d p) (walk_of fs d q).

(** [d.rglob("*")]: everything below [d], in the order of the walk of
    [pathlib]: the entries of a directory as the system lists them, then
    its subdirectories one after the other in that order, each with
    everything below it. *)
Definition rglob (fs : FS) (d : Path) : list Path :=
  sort_by (walk_le fs d) (filter (below d) (map fst fs)).

End Fs.
Import Fs.

(** Exceptions that no handler of the script catches: the
    [ValueError] of [with_suffix] and [relative_to], the [RuntimeError]
    of [expanduser], the errors of [mkdir] and of the system calls under
    [exists] and [is_file] ([OSError] is the one with errno
    [ENAMETOOLONG]), an exception of a process launch, and an
    interruption ([KeyboardInterrupt]), which is no [Exception]. *)
Inductive Exn :=
  | ValueError
  | RuntimeError
  | FileExistsError
  | NotADirectoryError
  | OSError
  | ProcException (repr : string)
  | BaseException (repr : string).

(** What [subprocess.run(..., check=True)] does: returns, or raises
    [CalledProcessError] (with the captured error stream),
    [FileNotFoundError], another [Exception], or something that is not an
    [Exception] at all ([KeyboardInterrupt]). *)
Inductive ProcOutcome :=
  | Completed
  | NonZeroExit (stderr : string)
  | NotFound (repr : string)
  | OtherException (repr : string)
  | Interrupted (repr : string).

(** The messages of [sys.exit]. *)
Inductive Fatal :=
  | FfmpegNotAtPath (ffmpeg_arg : string)
  | FfmpegNotInstalled
  | FfmpegCannotRun (ffmpeg_bin : string)
  | FfmpegCorrupt (ffmpeg_bin : string).

(** The lines [print] writes, by their format and arguments:
    - [MsgNoFormats]: "Error: especifica al menos un formato en --formats"
    - [MsgTelephonyAdvice]: "[Aviso] --telephony esta pensado para .wav; ..."
    - [MsgNoAudio d]: "No se encontraron archivos de audio en:" d
    - [MsgFound n]: "Archivos encontrados: n"
    - [MsgTasks n]: "Tareas a ejecutar:    n"
    - [MsgNothingToDo]: "Nada por hacer (posiblemente todo ya convertido)."
    - [MsgProgress k n src dst]: "[k/n] src.name -> DST-SUFFIX  (dst)"
    - [MsgCmd cmd]: "  CMD:" and the arguments joined by spaces
    - [MsgConvertError src dst]: "  Error al convertir:" src "->" dst
    - [MsgFfmpegSays t]: "  FFmpeg dice:" and [t]
    - [MsgNoDetails]: "  (FFmpeg no devolvio detalles)"
    - [MsgUnexpected src dst r]: "  Error inesperado:" src "->" dst "|" r
    - [MsgFinished]: "Proceso finalizado." *)
Inductive Msg :=
  | MsgNoFormats
  | MsgTelephonyAdvice
  | MsgNoAudio (in_dir : Path)
  | MsgFound (n : nat)
  | MsgTasks (n : nat)
  | MsgNothingToDo
  | MsgProgress (k total : nat) (src dst : Path)
  | MsgCmd (cmd : list string)
  | MsgConvertError (src dst : Path)
  | MsgFfmpegSays (text : string)
  | MsgNoDetails
  | MsgUnexpected (src dst : Path) (repr : string)
  | MsgFinished.

Inductive Event :=
  | Print (m : Msg)
  | Exec (cmd : list string).

Record World := mkWorld { fs : FS; log : list Event }.

(** What the script does not decide: the platform, the search path, the
    home directories ([os.path.expanduser] on a first component [~] or
    [~user], which gives the component back when it knows no home), the
    working directory, and what a launched process does to the file
    system and how it ends.  The oracle sees the command, the file system
    and the number of processes launched before. *)
Record Env := mkEnv {
  os_name : string;
  which : string -> option string;
  os_path_expanduser : string -> string;
  resolve : Path -> Path;
  subprocess_run : list string -> FS -> nat -> ProcOutcome * FS
}.

(** [p.expanduser()]: a relative path whose first component begins with
    a tilde gets the home directory in its place; [None] is the
    [RuntimeError] raised when no home directory is found. *)
Definition expanduser (env : Env) (p : Path) : option Path :=
  match root p, parts p with
  | EmptyString, String "~" u :: rest =>
      let homedir := os_path_expanduser env (String "~" u) in
      if String.prefix "~" homedir then None
      else Some (joinpath (of_str homedir) (mkPath "" rest))
  | _, _ => Some p
  end.

(** [Path(s).expanduser().resolve()]. *)
Definition user_path (env : Env) (s : string) : option Path :=
  match expanduser env (of_str s) with
  | Some p => Some (resolve env p)
  | None => None
  end.

(** How a run of [main] ends. *)
Inductive Ending :=
  | Returned
  | SysExit (msg : Fatal)
  | Uncaught (e : Exn).

(** The exit status of the interpreter, as a parent process reads it:
    0 when [main] returns, 1 after [sys.exit] with a message and after an
    uncaught exception; after an uncaught [KeyboardInterrupt] the
    interpreter ends itself by the signal [SIGINT], which a parent reads
    as -2 (and a shell shows as 130). *)
Definition exit_status (e : Ending) : Z :=
  match e with
  | Returned => 0
  | SysExit _ => 1
  | Uncaught (BaseException _) => -2
  | Uncaught _ => 1
  end.

Inductive Res (A : Type) :=
  | Val (a : A)
  | Stop (e : Ending).
Arguments Val {A} a.
Arguments Stop {A} e.

Definition M (A : Type) : Type := World -> Res A * World.

Definition ret {A} (a : A) : M A := fun w => (Val a, w).

Definition bind {A B} (m : M A) (k : A -> M B) : M B :=
  fun w => match m w with
           | (Val a, w') => k a w'
           | (Stop e, w') => (Stop e, w')
           end.

Notation "x <- m ;; k" := (bind m (fun x => k))
  (at level 61, m at next level, right associativity).
Notation "m ;;; k" := (bind m (fun _ => k))
  (at level 61, right associativity).

Definition stop {A} (e : Ending) : M A := fun w => (Stop e, w).

Definition get_fs : M FS := fun w => (Val (fs w), w).

Definition print (m : Msg) : M unit :=
  fun w => (Val tt, mkWorld (fs w) (log w ++ [Print m])).

(** The commands launched so far. *)
Definition launched (l : list Event) : list (list string) :=
  flat_map (fun e => match e with Exec c => [c] | Print _ => [] end) l.

(** [subprocess.run(cmd, check=True, ...)]. *)
Definition run_process (env : Env) (cmd : list string) : M ProcOutcome :=
  fun w =>
    let '(o, fs') := subprocess_run env cmd (fs w) (List.length (launched (log w))) in
    (Val o, mkWorld fs' (log w ++ [Exec cmd])).

(** [p.mkdir(parents=True, exist_ok=True)], by recursion on the
    components of [p] from the last one: an existing directory is left
    alone, an existing file raises, a missing parent is made first, and
    a component that is too long raises when its turn comes.  An error
    comes with the file system as it is then: the parents made before a
    component that is too long stay. *)
Fixpoint mkdir_rev (fs : FS) (r : string) (rev_parts : list string) : Exn * FS + FS :=
  let p := mkPath r (rev rev_parts) in
  match kind_of fs p with
  | Some Dir => inr fs
  | Some File => inl (FileExistsError, fs)
  | None =>
      match rev_parts with
      | [] => inr fs
      | x :: up =>
          match kind_of fs (mkPath r (rev up)) with
          | Some Dir =>
              if name_too_long x then inl (OSError, fs) else inr (fs ++ [(p, Dir)])
          | Some File => inl (NotADirectoryError, fs)
          | None =>
              match mkdir_rev fs r up with
              | inl e => inl e
              | inr fs' =>
                  if name_too_long x then inl (OSError, fs')
                  else inr (fs' ++ [(p, Dir)])
              end
          end
      end
  end.

(** A path that is too long as a whole is refused before anything is
    made. *)
Definition mkdir_parents (fs : FS) (p : Path) : Exn * FS + FS :=
  if (PATH_MAX <=? encoded_length (to_str p))%nat then inl (OSError, fs)
  else mkdir_rev fs (root p) (rev (parts p)).

Definition mkdir (p : Path) : M unit :=
  fun w => match mkdir_parents (fs w) p with
           | inl (e, fs') => (Stop (Uncaught e), mkWorld fs' (log w))
           | inr fs' => (Val tt, mkWorld fs' (log w))
           end.

(** [p.exists()] and [p.is_file()] as steps: the error of the system
    for a path that is too long is passed on. *)
Definition path_exists (p : Path) : M bool :=
  fun w => if too_long p then (Stop (Uncaught OSError), w)
           else (Val (exists_ (fs w) p), w).

Definition path_is_file (p : Path) : M bool :=
  fun w => if too_long p then (Stop (Uncaught OSError), w)
           else (Val (is_file (fs w) p), w).

(** A value or [ValueError]. *)
Definition or_value_error {A} (o : option A) : M A :=
  match o with Some a => ret a | None => stop (Uncaught ValueError) end.

(** A value or the exception [e]. *)
Definition or_raise {A} (e : Exn) (o : option A) : M A :=
  match o with Some a => ret a | None => stop (Uncaught e) end.

(** A [for] loop that carries a counter. *)
Fixpoint for_each {A S} (l : list A) (body : A -> S -> M S) (s : S) : M S :=
  match l with
  | [] => ret s
  | x :: l' => s' <- body x s ;; for_each l' body s'
  end.

(* ================================================================== *)
(** * The locator *)
(* ================================================================== *)

Definition exe_name (env : Env) : string :=
  if (os_name env =? "nt")%string then "ffmpeg.exe" else "ffmpeg".

Definition resolve_ffmpeg (env : Env) (ffmpeg_arg : option string) : M string :=
  match ffmpeg_arg with
  | Some (String c a') =>
      let a := String c a' in
      p <- or_raise RuntimeError (expanduser env (of_str a)) ;;
      is_f <- path_is_file p ;;
      if is_f then ret (to_str p)
      else
        let cand := joinstr p (exe_name env) in
        is_c <- path_is_file cand ;;
        if is_c then ret (to_str cand)
        else stop (SysExit (FfmpegNotAtPath a))
  | _ =>
      match which env (exe_name env) with
      | Some (String c f') => ret (String c f')
      | _ => stop (SysExit FfmpegNotInstalled)
      end
  end.

Definition check_ffmpeg_available (env : Env) (ffmpeg_bin : string) : M unit :=
  o <- run_process env [ffmpeg_bin; "-version"] ;;
  match o with
  | Completed => ret tt
  | NotFound _ => stop (SysExit (FfmpegCannotRun ffmpeg_bin))
  | NonZeroExit _ => stop (SysExit (FfmpegCorrupt ffmpeg_bin))
  | OtherException r => stop (Uncaught (ProcException r))
  | Interrupted r => stop (Uncaught (BaseException r))
  end.

(* ================================================================== *)
(** * The planner and the runner *)
(* ================================================================== *)

(** [[p for p in in_dir.rglob("*")
      if p.is_file() and p.suffix.lower() in SUPPORTED_INPUTS]], when no
    call of the system fails. *)
Definition discover (fs : FS) (in_dir : Path) : list Path :=
  filter (fun p => is_file fs p && mem (lower (suffix p)) SUPPORTED_INPUTS)
         (rglob fs in_dir).

(** The same with the error of the system: [rglob] asks whether
    [in_dir] is a directory, and the comprehension asks of every entry
    whether it is a file; [None] is the [OSError] of a path that is too
    long. *)
Definition scan (fs : FS) (in_dir : Path) : option (list Path) :=
  if too_long in_dir || existsb too_long (rglob fs in_dir) then None
  else Some (discover fs in_dir).

(** [out_dir / ext.lstrip(".") / rel.with_suffix(ext)]; [None] is the
    [ValueError] of [with_suffix]. *)
Definition destination (out_dir rel : Path) (ext : string) : option Path :=
  let sub := joinstr out_dir (lstrip is_dot ext) in
  match with_suffix rel ext with
  | Some r => Some (joinpath sub r)
  | None => None
  end.

(** The body of the counting loop, for one source and one format. *)
Definition plan_one (args : Args) (out_dir rel : Path) (ext : string)
  (total_jobs : nat) : M nat :=
  dst <- or_value_error (destination out_dir rel ext) ;;
  mkdir (parent dst) ;;;
  there <- path_exists dst ;;
  if there && negb (overwrite args) then ret total_jobs
  else ret (S total_jobs).

(** The first pair of loops of [main]. *)
Definition plan (args : Args) (in_dir out_dir : Path) (audio_files : list Path)
  (targets : list string) : M nat :=
  for_each audio_files
    (fun src total_jobs =>
       rel <- or_value_error (relative_to src in_dir) ;;
       for_each targets (plan_one args out_dir rel) total_jobs)
    0.

(** What follows the call of [build_ffmpeg_cmd] in the second loop. *)
Definition attempt (env : Env) (args : Args) (total_jobs : nat)
  (src dst : Path) (cmd : list string) (done : nat) : M nat :=
  print (MsgProgress (done + 1) total_jobs src dst) ;;;
  (if dry_run args then print (MsgCmd cmd)
   else
     o <- run_process env cmd ;;
     match o with
     | Completed => ret tt
     | NonZeroExit stderr =>
         print (MsgConvertError src dst) ;;;
         if truthy stderr then print (MsgFfmpegSays (strip stderr))
         else print MsgNoDetails
     | NotFound r => print (MsgUnexpected src dst r)
     | OtherException r => print (MsgUnexpected src dst r)
     | Interrupted r => stop (Uncaught (BaseException r))
     end) ;;;
  ret (done + 1).

(** The body of the running loop, for one source and one format. *)
Definition run_one (env : Env) (args : Args) (ffmpeg_bin : string)
  (total_jobs : nat) (out_dir src rel : Path) (ext : string) (done : nat) : M nat :=
  dst <- or_value_error (destination out_dir rel ext) ;;
  there <- path_exists dst ;;
  if there && negb (overwrite args) then ret done
  else attempt env args total_jobs src dst
         (build_ffmpeg_cmd ffmpeg_bin src dst args) done.

(** The second pair of loops of [main]. *)
Definition run_jobs (env : Env) (args : Args) (ffmpeg_bin : string)
  (total_jobs : nat) (in_dir out_dir : Path) (audio_files : list Path)
  (targets : list string) : M nat :=
  for_each audio_files
    (fun src done =>
       rel <- or_value_error (relative_to src in_dir) ;;
       for_each targets (run_one env args ffmpeg_bin total_jobs out_dir src rel) done)
    0.

(** [main] from the line that makes the output directory to its end,
    for the two directories found before. *)
Definition batch_in (env : Env) (args : Args) (ffmpeg_bin : string)
  (in_dir out_dir : Path) : M unit :=
  mkdir out_dir ;;;
  let targets := targets_of (formats args) in
  match targets with
  | [] => print MsgNoFormats ;;; stop Returned
  | _ :: _ =>
      (if telephony args && negb (mem ".wav" targets)
       then print MsgTelephonyAdvice else ret tt) ;;;
      let args := apply_telephony args in
      fs <- get_fs ;;
      audio_files <- or_raise OSError (scan fs in_dir) ;;
      match audio_files with
      | [] => print (MsgNoAudio in_dir) ;;; stop Returned
      | _ :: _ =>
          total_jobs <- plan args in_dir out_dir audio_files targets ;;
          print (MsgFound (List.length audio_files)) ;;;
          print (MsgTasks total_jobs) ;;;
          match total_jobs with
          | 0 => print MsgNothingToDo ;;; stop Returned
          | S _ =>
              run_jobs env args ffmpeg_bin total_jobs in_dir out_dir
                       audio_files targets ;;;
              print MsgFinished
          end
      end
  end.

(** [main] from the line that resolves the two directories to its end. *)
Definition batch (env : Env) (args : Args) (ffmpeg_bin : string) : M unit :=
  in_dir <- or_raise RuntimeError (user_path env (input args)) ;;
  out_dir <- or_raise RuntimeError (user_path env (output args)) ;;
  batch_in env args ffmpeg_bin in_dir out_dir.

Definition main (env : Env) (args : Args) : M unit :=
  ffmpeg_bin <- resolve_ffmpeg env (ffmpeg args) ;;
  check_ffmpeg_available env ffmpeg_bin ;;;
  batch env args ffmpeg_bin.

(** How a run ends, from the way [main] ends: a [return] of [main] and
    the end of its body are the same. *)
Definition ending_of (r : Res unit * World) : Ending * World :=
  match r with
  | (Val _, w') => (Returned, w')
  | (Stop e, w') => (e, w')
  end.

(** A whole run of the script: how it ends and the world it leaves. *)
Definition run_main (env : Env) (args : Args) (w : World) : Ending * World :=
  ending_of (main env args w).

(* ================================================================== *)
(** * Reading a command line and a log *)
(* ================================================================== *)

(** The options of FFmpeg that the builder emits with a value after
    them; [-hide_banner], [-y] and [-n] stand alone. *)
Definition takes_value (opt : string) : bool :=
  mem opt ["-loglevel"; "-i"; "-af"; "-c:a"; "-b:a"; "-ar"; "-ac"].

(** The values given to the option [opt] in a list of arguments, read
    the way FFmpeg reads it: an option that takes a value consumes the
    next argument, whatever it looks like. *)
Fixpoint option_values (opt : string) (argv : list string) : list string :=
  match argv with
  | [] => []
  | a :: rest =>
      if takes_value a then
        match rest with
        | [] => []
        | v :: rest' =>
            (if (a =? opt)%string then [v] else []) ++ option_values opt rest'
        end
      else option_values opt rest
  end.

(** The bitrate arguments of a command [executable :: arguments]. *)
Definition bitrate_arguments (cmd : list string) : list string :=
  option_values "-b:a" (tl cmd).

Definition has_bitrate_arg (cmd : list string) : bool :=
  match bitrate_arguments cmd with [] => false | _ :: _ => true end.

(** A bitrate option was given on the command line. *)
Definition bitrate_supplied (args : Args) : bool :=
  match bitrate args with Some _ => true | None => false end.

Definition lossy_exts : list string := [".mp3"; ".aac"; ".m4a"; ".opus"; ".ogg"].
Definition lossless_exts : list string := [".flac"; ".wav"; ".aiff"; ".aif"].

(** The number of tasks announced, and the number of jobs attempted (one
    progress line each). *)
Definition announced (l : list Event) : list nat :=
  flat_map (fun e => match e with Print (MsgTasks n) => [n] | _ => [] end) l.

Definition attempted (l : list Event) : nat :=
  List.length (filter (fun e => match e with Print (MsgProgress _ _ _ _) => true
                                        | _ => false end) l).

(** The sample-rate and channel arguments of the builder. *)
Definition rate_args (args : Args) : list string :=
  (if truthy_int (samplerate args)
   then ["-ar"; str_int (match samplerate args with Some z => z | None => 0%Z end)]
   else []) ++
  (if truthy_int (channels args)
   then ["-ac"; str_int (match channels args with Some z => z | None => 0%Z end)]
   else []).

(* ================================================================== *)
(** * Vocabulary of the statements *)
(* ================================================================== *)

(** [q] is [p] or a directory on the way to [p]. *)
Definition on_path (q p : Path) : bool :=
  (root q =? root p)%string &&
  match strip_prefix (parts q) (parts p) with Some _ => true | None => false end.



(** A suffix that [with_suffix] accepts. *)
Definition valid_suffix (ext : string) : bool :=
  negb (contains "/" ext) && String.prefix "." ext && negb (ext =? ".")%string.

(** The destinations of all pairs of a source and a format, in the order
    of the loops. *)
Definition destinations (in_dir out_dir : Path) (audio_files : list Path)
  (targets : list string) : list Path :=
  flat_map (fun src =>
    match relative_to src in_dir with
    | Some rel =>
        flat_map (fun ext => match destination out_dir rel ext with
                             | Some d => [d]
                             | None => []
                             end) targets
    | None => []
    end) audio_files.

(** A relative path without the suffix of its name. *)
Definition stem_path (p : Path) : Path :=
  mkPath (root p) (removelast (parts p) ++ [name_stem (name p)]).

(** [fs'] is [fs] with more directories, each of them inside [out_dir]
    or on the way to it: nothing is removed, nothing changes its kind,
    no file appears. *)
Definition only_dirs_added (out_dir : Path) (fs fs' : FS) : Prop :=
  forall q, kind_of fs' q = kind_of fs q
            \/ (kind_of fs q = None /\ kind_of fs' q = Some Dir
                /\ (on_path q out_dir = true \/ on_path out_dir q = true)).

(** [fs'] is [fs] with more directories, each of them [p] or on the
    way to [p]. *)
Definition grows_on (p : Path) (fs fs' : FS) : Prop :=
  forall q, kind_of fs' q = kind_of fs q
            \/ (kind_of fs q = None /\ kind_of fs' q = Some Dir
                /\ on_path q p = true).

(** A step that leaves every world in relation [R] with the one it
    started from. *)
Definition preserves (R : World -> World -> Prop) {A} (m : M A) : Prop :=
  forall w, R w (snd (m w)).

(** A process that ended in one of the ways the runner handles. *)
Definition job_failure (o : ProcOutcome) : bool :=
  match o with
  | NonZeroExit _ | NotFound _ | OtherException _ => true
  | Completed | Interrupted _ => false
  end.

(** A process that was interrupted from outside. *)
Definition interrupted (o : ProcOutcome) : bool :=
  match o with
  | Interrupted _ => true
  | _ => false
  end.

(** The lines that report a failed job. *)
Definition failure_report (src dst : Path) (o : ProcOutcome) : list Msg :=
  match o with
  | NonZeroExit stderr =>
      [MsgConvertError src dst;
       if truthy stderr then MsgFfmpegSays (strip stderr) else MsgNoDetails]
  | NotFound r | OtherException r => [MsgUnexpected src dst r]
  | Completed | Interrupted _ => []
  end.

(** No process is interrupted from outside. *)
Definition never_interrupted (env : Env) : Prop :=
  forall cmd fs n r, fst (subprocess_run env cmd fs n) <> Interrupted r.

(** All characters of [s] satisfy [p]. *)
Fixpoint all_chars (p : ascii -> bool) (s : string) : bool :=
  match s with
  | EmptyString => true
  | String c s' => p c && all_chars p s'
  end.

(** The first character of [s], if any, is not whitespace. *)
Definition head_not_space (s : string) : bool :=
  match s with
  | EmptyString => true
  | String c _ => negb (is_space c)
  end.

(** A token that survives the filter of the comprehension. *)
Definition nonblank (fmt : string) : bool := truthy (strip fmt).

(** The world after the version probe. *)
Definition probed (env : Env) (ffmpeg_bin : string) (w : World) : World :=
  mkWorld (snd (subprocess_run env [ffmpeg_bin; "-version"] (fs w)
                  (List.length (launched (log w)))))
          (log w ++ [Exec [ffmpeg_bin; "-version"]]).

(** A step after which as many jobs have been attempted as before. *)
Definition calm {A} (m : M A) : Prop :=
  preserves (fun w w' => attempted (log w') = attempted (log w)) m.

(** A step that, when it ends the run with a non-zero status, has
    attempted no job. *)
Definition harmless {A} (m : M A) : Prop :=
  forall w e w', m w = (Stop e, w') -> exit_status e <> 0%Z ->
                 attempted (log w') = attempted (log w).


(** Without [--overwrite], no destination is a directory on the way to
    a destination. *)
Definition plan_apart (args : Args) (dests : list Path) : Prop :=
  overwrite args = true
  \/ forall d d', In d dests -> In d' dests -> on_path d (parent d') = false.

(** What a dry run may do to a world: add directories in and on the
    way to the output directory, print, and launch nothing. *)
Definition quiet (out_dir : Path) (w w' : World) : Prop :=
  only_dirs_added out_dir (fs w) (fs w') /\ launched (log w') = launched (log w).

(** Two worlds with the same file system and the same processes
    launched: they differ in printed lines only. *)
Definition same_jobs (w w' : World) : Prop :=
  fs w = fs w' /\ launched (log w) = launched (log w').

(** Two steps ended alike, in worlds that differ in printed lines only. *)
Definition agree {A} (x y : Res A * World) : Prop :=
  fst x = fst y /\ same_jobs (snd x) (snd y).

(** Two environments whose processes do the same to the file system,
    however they end. *)
Definition same_effects (env env' : Env) : Prop :=
  forall cmd fs n,
    snd (subprocess_run env cmd fs n) = snd (subprocess_run env' cmd fs n).

(** The arguments of a command that stand alone, read the way FFmpeg
    reads it: the flags and the output files, but no option that takes a
    value and no value of one. *)
Fixpoint standalone (argv : list string) : list string :=
  match argv with
  | [] => []
  | a :: rest =>
      if takes_value a then
        match rest with
        | [] => []
        | _ :: rest' => standalone rest'
        end
      else a :: standalone rest
  end.

(** What the builder appends after the input and the filter: the codec
    section, the rates and the destination. *)
Definition after_input (dst : Path) (args : Args) : list string :=
  codec_args (lower (suffix dst)) args ++ rate_args args ++ [to_str dst].

(** The extensions for which the builder names an encoder. *)
Definition known_exts : list string :=
  [".mp3"; ".aac"; ".m4a"; ".opus"; ".ogg"; ".flac"; ".wav"; ".aiff"; ".aif"].

(** The ways the batch can end early: a [return] of [main], the
    [RuntimeError] of [expanduser], the [ValueError] of a path
    operation, an error of [mkdir] or of a look at the file system, or an
    interruption from outside. *)
Definition batch_ending (e : Ending) : Prop :=
  match e with
  | Returned => True
  | Uncaught ValueError => True
  | Uncaught RuntimeError => True
  | Uncaught FileExistsError => True
  | Uncaught NotADirectoryError => True
  | Uncaught OSError => True
  | Uncaught (BaseException _) => True
  | Uncaught (ProcException _) => False
  | SysExit _ => False
  end.

(** The ways the locator can end the run: its two messages, the
    [RuntimeError] of [expanduser], and the [OSError] of a path that is
    too long. *)
Definition locator_ending (e : Ending) : Prop :=
  match e with
  | SysExit (FfmpegNotAtPath _) => True
  | SysExit FfmpegNotInstalled => True
  | Uncaught RuntimeError => True
  | Uncaught OSError => True
  | _ => False
  end.

(** The ways the probe can end the run: its two messages, an exception
    of the launch, and an interruption. *)
Definition probe_ending (e : Ending) : Prop :=
  match e with
  | SysExit (FfmpegCannotRun _) => True
  | SysExit (FfmpegCorrupt _) => True
  | Uncaught (ProcException _) => True
  | Uncaught (BaseException _) => True
  | _ => False
  end.

(** A step that, when it ends the run, ends it in one of the ways [P]. *)
Definition stops_with (P : Ending -> Prop) {A} (m : M A) : Prop :=
  forall w e w', m w = (Stop e, w') -> P e.

(** The numbers [k] of the progress lines [[k/n] ...] of a log. *)
Definition progress_numbers (l : list Event) : list nat :=
  flat_map (fun e => match e with
                     | Print (MsgProgress k _ _ _) => [k]
                     | _ => []
                     end) l.

(** A command built for a pair of the plan: a source of the list and a
    format of the list, with the destination computed for them. *)
Definition planned_command (args : Args) (ffmpeg_bin : string) (in_dir out_dir : Path)
  (audio_files : list Path) (targets : list string) (cmd : list string) : Prop :=
  exists src rel ext dst,
    In src audio_files /\ relative_to src in_dir = Some rel
    /\ In ext targets /\ destination out_dir rel ext = Some dst
    /\ cmd = build_ffmpeg_cmd ffmpeg_bin src dst args.

(** [w'] continues the log of [w] with lines and launches, each launch a
    command that satisfies [Q]. *)
Definition launches_only (Q : list string -> Prop) (w w' : World) : Prop :=
  exists new, log w' = log w ++ new /\ Forall Q (launched new).

(** What the running loop has added to the log [l0] when its counter
    is [done]: progress lines numbered from 1 to [done], and as many
    launches in a real run, none in a dry run. *)
Definition counted (args : Args) (l0 : list Event) (done : nat) (w : World) : Prop :=
  exists new, log w = l0 ++ new
              /\ progress_numbers new = seq 1 done
              /\ List.length (launched new) = (if dry_run args then 0 else done).

(** A destination that the counting loop counts when it finds the
    file system as [fs0] left it: one that does not exist, or any with
    [--overwrite]. *)
Definition to_do (args : Args) (fs0 : FS) (d : Path) : bool :=
  negb (exists_ fs0 d && negb (overwrite args)).


(** Every entry of the file system of [w] is in that of [w'], with its
    kind. *)
Definition keeps_entries (w w' : World) : Prop :=
  forall q k, kind_of (fs w) q = Some k -> kind_of (fs w') q = Some k.

(** The file system that [mkdir] leaves, whether it has raised or not. *)
Definition fs_after (x : Exn * FS + FS) : FS :=
  match x with
  | inl (_, fs') => fs'
  | inr fs' => fs'
  end.

(** C1 as stated: distinct pairs of a discovered source and a requested
    format have distinct destinations. *)
Definition destinations_distinct (fs : FS) (in_dir out_dir : Path) (formats : string)
  : Prop :=
  forall src1 src2 rel1 rel2 ext1 ext2,
    In src1 (discover fs in_dir) -> In src2 (discover fs in_dir) ->
    In ext1 (targets_of formats) -> In ext2 (targets_of formats) ->
    relative_to src1 in_dir = Some rel1 -> relative_to src2 in_dir = Some rel2 ->
    (src1, ext1) <> (src2, ext2) ->
    destination out_dir rel1 ext1 <> destination out_dir rel2 ext2.


(** C5 as stated, its first half: a dry run launches no process. *)
Definition dry_run_launches_nothing (env : Env) (args : Args) (w : World) : Prop :=
  dry_run args = true ->
  launched (log (snd (run_main env args w))) = launched (log w).

(* ================================================================== *)
(** * Worlds to run the script in *)
(* ================================================================== *)

Module Examples.

(** An environment where FFmpeg is installed and answers its version
    probe; a conversion ends as [convert] says, and writes its output
    file (the last argument) when it completes.  The user has a home
    directory, no other user is known, and paths are absolute. *)
Definition env_with (convert : ProcOutcome) : Env :=
  mkEnv "posix" (fun _ => Some "/usr/bin/ffmpeg")
    (fun u => if (u =? "~")%string then "/home/user" else u) (fun p => p)
    (fun cmd fs n =>
       match cmd with
       | [_; "-version"] => (Completed, fs)
       | _ => (convert,
               match convert with
               | Completed => fs ++ [(of_str (last cmd ""), File)]
               | _ => fs
               end)
       end).

(** An environment where every process exits with a non-zero status,
    the probe too. *)
Definition env_failing : Env :=
  mkEnv "posix" (fun _ => Some "/usr/bin/ffmpeg")
    (fun u => if (u =? "~")%string then "/home/user" else u) (fun p => p)
    (fun cmd fs n => (NonZeroExit "boom", fs)).

(** [a.mp3] and [b/c.wav]. *)
Definition music : FS :=
  [(of_str "/in", Dir); (of_str "/in/a.mp3", File);
   (of_str "/in/b", Dir); (of_str "/in/b/c.wav", File)].

(** [a.mp3] and [a.wav] side by side. *)
Definition twins : FS :=
  [(of_str "/in", Dir); (of_str "/in/a.mp3", File); (of_str "/in/a.wav", File)].

(** The file [a.mp3] and a directory named [a.wav] that holds [b.mp3]. *)
Definition nested : FS :=
  [(of_str "/in", Dir); (of_str "/in/a.mp3", File);
   (of_str "/in/a.wav", Dir); (of_str "/in/a.wav/b.mp3", File)].


(** [-i /in -o /out -f formats], with or without [--overwrite] and
    [--dry-run]. *)
Definition cli (formats : string) (overwrite dry_run : bool) : Args :=
  mkArgs "/in" "/out" formats None None None false overwrite dry_run None false.

End Examples.

(* ================================================================== *)
(** * The command builder: bitrate by extension *)
(* ================================================================== *)

Section Builder.

Variables (ffmpeg_bin : string) (src dst : Path) (args : Args).

Lemma build_ffmpeg_cmd_shape :
  build_ffmpeg_cmd ffmpeg_bin src dst args =
  [ffmpeg_bin; "-hide_banner"; "-loglevel"; "error";
   if overwrite args then "-y" else "-n"; "-i"; to_str src]
  ++ (if normalize args
      then ["-af"; "loudnorm=I=-16:LRA=11:TP=-1.5:linear=true"] else [])
  ++ codec_args (lower (suffix dst)) args
  ++ rate_args args ++ [to_str dst].
Proof.
  unfold build_ffmpeg_cmd, rate_args.
  destruct (normalize args), (truthy_int (samplerate args)),
    (truthy_int (channels args)); cbn [join];
    repeat rewrite <- app_assoc; reflexivity.
Qed.

Lemma option_values_last (opt x : string) : option_values opt [x] = [].
Proof. cbn [option_values]. destruct (takes_value x); reflexivity. Qed.

Lemma option_values_value (opt a v : string) (rest : list string) :
  takes_value a = true ->
  option_values opt (a :: v :: rest) =
  (if (a =? opt)%string then [v] else []) ++ option_values opt rest.
Proof. intros H. cbn [option_values]. now rewrite H. Qed.

Lemma option_values_rate_tail (opt : string) :
  opt <> "-ar" -> opt <> "-ac" ->
  option_values opt (rate_args args ++ [to_str dst]) = [].
Proof.
  intros Har Hac. unfold rate_args.
  assert (E1 : ("-ar" =? opt)%string = false) by (apply String.eqb_neq; congruence).
  assert (E2 : ("-ac" =? opt)%string = false) by (apply String.eqb_neq; congruence).
  destruct (truthy_int (samplerate args)), (truthy_int (channels args));
    cbn [app]; rewrite ?option_values_value by reflexivity;
    rewrite ?E1, ?E2; cbn [app]; apply option_values_last.
Qed.

(** The bitrate arguments of the built command are those of its codec
    section. *)
Lemma bitrate_arguments_build :
  bitrate_arguments (build_ffmpeg_cmd ffmpeg_bin src dst args) =
  option_values "-b:a" (codec_args (lower (suffix dst)) args ++ rate_args args ++ [to_str dst]).
Proof.
  rewrite build_ffmpeg_cmd_shape. unfold bitrate_arguments.
  destruct (overwrite args), (normalize args); reflexivity.
Qed.

Lemma bitrate_arguments_with (codec : string) :
  option_values "-b:a" ((["-c:a"; codec] ++ bitrate_opt args) ++ rate_args args ++ [to_str dst])
  = match bitrate args with
    | Some b => if truthy b then [b] else []
    | None => []
    end.
Proof.
  unfold bitrate_opt.
  destruct (bitrate args) as [b|]; [destruct (truthy b)|];
    cbn [app]; rewrite ?option_values_value by reflexivity;
    rewrite option_values_rate_tail by discriminate; reflexivity.
Qed.

Lemma bitrate_arguments_without (codec : string) :
  option_values "-b:a" (["-c:a"; codec] ++ rate_args args ++ [to_str dst]) = [].
Proof.
  cbn [app]. rewrite option_values_value by reflexivity.
  rewrite option_values_rate_tail by discriminate. reflexivity.
Qed.

End Builder.

Lemma mem_cases (x : string) (l : list string) :
  mem x l = true -> In x l.
Proof.
  unfold mem. rewrite existsb_exists. intros (y & Hy & E).
  apply String.eqb_eq in E. now subst.
Qed.

(** C3, as the code has it.  For a destination whose extension is, up
    to case, one of mp3, aac, m4a, opus, ogg, the built command has a
    bitrate argument exactly when the bitrate option holds a non-empty
    string, and then it is that string; for flac, wav, aiff, aif the
    built command has no bitrate argument, whatever the option holds. *)
Theorem bitrate_argument_by_extension
  (ffmpeg_bin : string) (src dst : Path) (args : Args) :
  (mem (lower (suffix dst)) lossy_exts = true ->
     (has_bitrate_arg (build_ffmpeg_cmd ffmpeg_bin src dst args) = true
        <-> truthy_opt (bitrate args) = true)
     /\ (forall b, bitrate args = Some b -> truthy b = true ->
           bitrate_arguments (build_ffmpeg_cmd ffmpeg_bin src dst args) = [b]))
  /\ (mem (lower (suffix dst)) lossless_exts = true ->
        bitrate_arguments (build_ffmpeg_cmd ffmpeg_bin src dst args) = []).
Proof.
  split; intros H; apply mem_cases in H; unfold has_bitrate_arg;
    rewrite !bitrate_arguments_build.
  - assert (E : option_values "-b:a"
                  (codec_args (lower (suffix dst)) args ++ rate_args args ++ [to_str dst])
                = match bitrate args with
                  | Some b => if truthy b then [b] else []
                  | None => []
                  end).
    { cbn in H.
      destruct H as [H|[H|[H|[H|[H|[]]]]]]; rewrite <- H;
        apply bitrate_arguments_with. }
    rewrite E. unfold truthy_opt. split.
    + destruct (bitrate args) as [b|]; [destruct (truthy b)|];
        split; intros; congruence.
    + intros b Hb Ht. rewrite Hb, Ht. reflexivity.
  - cbn in H.
    destruct H as [H|[H|[H|[H|[]]]]]; rewrite <- H;
      apply bitrate_arguments_without.
Qed.

(** C3, as stated, fails: with [--bitrate ""] the option was supplied,
    the destination is an mp3, and the command has no bitrate argument. *)
Lemma bitrate_supplied_but_empty :
  let args := mkArgs "in" "out" "mp3" (Some "") None None false false false None false in
  let dst := of_str "/out/mp3/a.mp3" in
  mem (lower (suffix dst)) lossy_exts = true
  /\ ~ (has_bitrate_arg (build_ffmpeg_cmd "ffmpeg" (of_str "/in/a.wav") dst args) = true
        <-> bitrate_supplied args = true).
Proof.
  cbv zeta. split; [reflexivity|].
  intros [_ H]. specialize (H eq_refl). vm_compute in H. discriminate.
Qed.

(** An mp3 with [--bitrate 128k] has its bitrate argument; a flac with
    the same option has none. *)
Lemma bitrate_argument_by_extension_witness :
  (has_bitrate_arg
     (build_ffmpeg_cmd "ffmpeg" (of_str "/in/a.wav") (of_str "/out/mp3/a.MP3")
        (mkArgs "in" "out" "mp3" (Some "128k") None None false false false None false))
     = true <-> true = true)
  /\ bitrate_arguments
       (build_ffmpeg_cmd "ffmpeg" (of_str "/in/a.mp3") (of_str "/out/flac/a.flac")
          (mkArgs "in" "out" "flac" (Some "128k") None None false false false None false))
     = [].
Proof.
  split.
  - exact (proj1 (proj1 (bitrate_argument_by_extension "ffmpeg" (of_str "/in/a.wav")
             (of_str "/out/mp3/a.MP3")
             (mkArgs "in" "out" "mp3" (Some "128k") None None false false false None false))
             eq_refl)).
  - exact (proj2 (bitrate_argument_by_extension "ffmpeg" (of_str "/in/a.mp3")
             (of_str "/out/flac/a.flac")
             (mkArgs "in" "out" "flac" (Some "128k") None None false false false None false))
             eq_refl).
Defined.

(* ================================================================== *)
(** * The telephony preset *)
(* ================================================================== *)

(** C4.  With [--telephony], the sample rate after the preset is 8000
    when the user gave none and the user's value otherwise, the channel
    count is 1 when the user gave none and the user's value otherwise,
    and no other option changes. *)
Theorem telephony_preset_keeps_user_values (args : Args) :
  telephony args = true ->
  (samplerate args = None -> samplerate (apply_telephony args) = Some 8000%Z)
  /\ (forall r, samplerate args = Some r -> samplerate (apply_telephony args) = Some r)
  /\ (channels args = None -> channels (apply_telephony args) = Some 1%Z)
  /\ (forall c, channels args = Some c -> channels (apply_telephony args) = Some c)
  /\ bitrate (apply_telephony args) = bitrate args
  /\ normalize (apply_telephony args) = normalize args
  /\ overwrite (apply_telephony args) = overwrite args
  /\ dry_run (apply_telephony args) = dry_run args.
Proof.
  intros Ht. unfold apply_telephony. rewrite Ht. cbn.
  repeat split; intros; try match goal with H : _ = _ |- _ => rewrite H end;
    reflexivity.
Qed.

(** [--telephony -r 44100]: the rate stays 44100, the channels become 1. *)
Lemma telephony_preset_keeps_user_values_witness :
  samplerate (apply_telephony
    (mkArgs "in" "out" "wav" None (Some 44100%Z) None false false false None true))
    = Some 44100%Z
  /\ channels (apply_telephony
    (mkArgs "in" "out" "wav" None (Some 44100%Z) None false false false None true))
    = Some 1%Z.
Proof.
  pose proof (telephony_preset_keeps_user_values
    (mkArgs "in" "out" "wav" None (Some 44100%Z) None false false false None true)
    eq_refl) as (_ & Hr & Hc & _).
  split; [apply Hr | apply Hc]; reflexivity.
Defined.

(* ================================================================== *)
(** * Strings: splitting, stripping, lowering *)
(* ================================================================== *)

Module StrFacts.

Lemma append_nil_r (s : string) : s +++ "" = s.
Proof. induction s; cbn; congruence. Qed.

Lemma append_assoc (a b c : string) : (a +++ b) +++ c = a +++ b +++ c.
Proof. induction a; cbn; congruence. Qed.

Lemma append_length (a b : string) :
  String.length (a +++ b) = String.length a + String.length b.
Proof. induction a; cbn; congruence. Qed.

Lemma append_inv_tail (a b c : string) : a +++ c = b +++ c -> a = b.
Proof.
  revert b. induction a as [|x a IH]; intros [|y b] H; cbn in H.
  - reflexivity.
  - exfalso. apply (f_equal String.length) in H. cbn in H.
    rewrite append_length in H. lia.
  - exfalso. apply (f_equal String.length) in H. cbn in H.
    rewrite append_length in H. lia.
  - injection H as -> H. f_equal. now apply IH.
Qed.

Lemma split_not_nil (sep : ascii) (s : string) : split sep s <> [].
Proof.
  induction s as [|c s IH]; cbn; [discriminate|].
  destruct (c =? sep)%char; [discriminate|].
  destruct (split sep s); [congruence | discriminate].
Qed.

Lemma split_no_sep (sep : ascii) (x s : string) :
  contains sep x = false ->
  split sep (x +++ s) =
  match split sep s with
  | h :: t => (x +++ h) :: t
  | [] => [x]
  end.
Proof.
  induction x as [|c x IH]; cbn; intros H.
  - destruct (split sep s) eqn:E; [|reflexivity].
    now apply split_not_nil in E.
  - apply orb_false_iff in H as [Hc Hx]. rewrite Hc, (IH Hx).
    destruct (split sep s); reflexivity.
Qed.

Lemma split_sep (sep : ascii) (s : string) :
  split sep (String sep s) = "" :: split sep s.
Proof. cbn. now rewrite Ascii.eqb_refl. Qed.

(** Splitting undoes joining, when no piece holds the separator. *)
Lemma split_join (sep : ascii) (toks : list string) :
  Forall (fun t => contains sep t = false) toks ->
  toks <> [] ->
  split sep (join (String sep "") toks) = toks.
Proof.
  induction 1 as [|x rest Hx Hrest IH]; [congruence|]. intros _.
  destruct rest as [|y rest'].
  - cbn [join]. rewrite <- (append_nil_r x) at 1.
    rewrite split_no_sep by assumption. cbn. now rewrite append_nil_r.
  - change (join (String sep "") (x :: y :: rest'))
      with (x +++ String sep (join (String sep "") (y :: rest'))).
    rewrite split_no_sep by assumption. rewrite split_sep.
    rewrite IH by discriminate. now rewrite append_nil_r.
Qed.

Lemma is_space_lower_char (c : ascii) : is_space (lower_char c) = is_space c.
Proof. destruct c as [[] [] [] [] [] [] [] []]; reflexivity. Qed.

Lemma lower_char_idem (c : ascii) : lower_char (lower_char c) = lower_char c.
Proof. destruct c as [[] [] [] [] [] [] [] []]; reflexivity. Qed.

Lemma lower_idem (s : string) : lower (lower s) = lower s.
Proof. induction s; cbn; [|rewrite lower_char_idem]; congruence. Qed.

Lemma lower_app (a b : string) : lower (a +++ b) = lower a +++ lower b.
Proof. induction a; cbn; congruence. Qed.

Lemma lower_lstrip_space (s : string) :
  lower (lstrip is_space s) = lstrip is_space (lower s).
Proof.
  induction s as [|c s IH]; cbn; [reflexivity|].
  rewrite is_space_lower_char. destruct (is_space c); [exact IH | reflexivity].
Qed.

Lemma lower_rstrip_space (s : string) :
  lower (rstrip is_space s) = rstrip is_space (lower s).
Proof.
  induction s as [|c s IH]; cbn; [reflexivity|].
  rewrite <- IH, is_space_lower_char.
  destruct (rstrip is_space s); cbn; [destruct (is_space c)|]; reflexivity.
Qed.

Lemma lower_strip (s : string) : lower (strip s) = strip (lower s).
Proof. unfold strip. now rewrite lower_lstrip_space, lower_rstrip_space. Qed.

(** What [lstrip] leaves does not begin with a stripped character. *)
Lemma lstrip_head (p : ascii -> bool) (s : string) :
  match lstrip p s with
  | String c _ => p c = false
  | EmptyString => True
  end.
Proof.
  induction s as [|c s IH]; cbn; [exact I|].
  destruct (p c) eqn:E; [exact IH | exact E].
Qed.

Lemma lower_lstrip_lower (p : ascii -> bool) (s : string) :
  lower (lstrip p (lower s)) = lstrip p (lower s).
Proof.
  induction s as [|c s IH]; cbn; [reflexivity|].
  destruct (p (lower_char c)); [exact IH|].
  cbn. now rewrite lower_char_idem, lower_idem.
Qed.

Lemma lstrip_all (p : ascii -> bool) (a s : string) :
  all_chars p a = true -> lstrip p (a +++ s) = lstrip p s.
Proof.
  induction a as [|c a IH]; cbn; [reflexivity|].
  intros H. apply andb_true_iff in H as [Hc Ha]. now rewrite Hc, IH.
Qed.

Lemma rstrip_all_nil (p : ascii -> bool) (a : string) :
  all_chars p a = true -> rstrip p a = "".
Proof.
  induction a as [|c a IH]; cbn; [reflexivity|].
  intros H. apply andb_true_iff in H as [Hc Ha]. now rewrite (IH Ha), Hc.
Qed.

Lemma rstrip_app (p : ascii -> bool) (a b : string) :
  rstrip p (a +++ b) =
  match rstrip p b with
  | EmptyString => rstrip p a
  | r => a +++ r
  end.
Proof.
  induction a as [|c a IH]; cbn.
  - destruct (rstrip p b); reflexivity.
  - rewrite IH. destruct (rstrip p b) as [|d r]; [reflexivity|].
    destruct a; reflexivity.
Qed.

(** Surrounding whitespace does not change what [strip] returns. *)
Lemma strip_surrounded (a s b : string) :
  all_chars is_space a = true -> all_chars is_space b = true ->
  strip (a +++ s +++ b) = strip s.
Proof.
  intros Ha Hb. unfold strip.
  rewrite rstrip_app. rewrite (rstrip_app is_space s b).
  rewrite (rstrip_all_nil _ _ Hb).
  destruct (rstrip is_space s) as [|d r] eqn:E.
  - now rewrite (rstrip_all_nil _ _ Ha).
  - now rewrite lstrip_all.
Qed.

Lemma rstrip_head (p : ascii -> bool) (c : ascii) (s : string) :
  p c = false -> rstrip p (String c s) = String c (rstrip p s).
Proof. intros H. cbn. rewrite H. destruct (rstrip p s); reflexivity. Qed.

Lemma strip_head_not_space (s : string) :
  head_not_space s = true -> strip s = rstrip is_space s.
Proof.
  destruct s as [|c s]; [reflexivity|]. cbn [head_not_space]. intros H.
  apply negb_true_iff in H. unfold strip. rewrite (rstrip_head _ _ _ H).
  cbn. now rewrite H.
Qed.

Lemma strip_dots (ds s : string) :
  all_chars is_dot ds = true -> head_not_space s = true ->
  lstrip is_dot (lower (strip (ds +++ s))) = lstrip is_dot (lower (strip s)).
Proof.
  intros Hd Hs. rewrite (strip_head_not_space s Hs).
  assert (E : strip (ds +++ s) = ds +++ rstrip is_space s).
  { destruct ds as [|d ds']; [now apply strip_head_not_space|].
    assert (Hh : head_not_space (String d ds' +++ s) = true).
    { cbn in Hd |- *. apply andb_true_iff in Hd as [Hd _].
      unfold is_dot in Hd. apply Ascii.eqb_eq in Hd. now subst d. }
    rewrite (strip_head_not_space _ Hh).
    clear Hh. revert Hd. generalize (String d ds') as x. clear d ds'.
    induction x as [|c x IH]; intros Hd; [reflexivity|].
    cbn in Hd. apply andb_true_iff in Hd as [Hc Hx].
    unfold is_dot in Hc. apply Ascii.eqb_eq in Hc. subst c.
    change (String "." x +++ s) with (String "." (x +++ s)).
    rewrite rstrip_head by reflexivity. now rewrite (IH Hx). }
  rewrite E, lower_app.
  apply lstrip_all.
  clear E. induction ds as [|c ds IH]; [reflexivity|].
  cbn in Hd |- *. apply andb_true_iff in Hd as [Hc Hd'].
  unfold is_dot in Hc. apply Ascii.eqb_eq in Hc. subst c.
  cbn. now apply IH.
Qed.

End StrFacts.
Import StrFacts.

(* ================================================================== *)
(** * The format list *)
(* ================================================================== *)

Lemma targets_of_join (toks : list string) :
  Forall (fun t => contains "," t = false) toks ->
  targets_of (join "," toks) = map target_of (filter nonblank toks).
Proof.
  intros H. unfold targets_of. destruct toks as [|x rest]; [reflexivity|].
  now rewrite (split_join "," _ H) by discriminate.
Qed.

Lemma target_of_normal_form (fmt : string) :
  exists u, target_of fmt = String "." u
            /\ String.prefix "." u = false
            /\ lower u = u.
Proof.
  exists (lstrip is_dot (lower (strip fmt))). split; [reflexivity|]. split.
  - pose proof (lstrip_head is_dot (lower (strip fmt))) as H.
    destruct (lstrip is_dot (lower (strip fmt))) as [|c u]; [reflexivity|].
    unfold is_dot in H. cbn [String.prefix].
    destruct (Ascii.ascii_dec "." c) as [E|Hn]; [|reflexivity].
    exfalso. subst c. discriminate H.
  - apply lower_lstrip_lower.
Qed.

Lemma target_of_case (a b : string) :
  lower a = lower b -> target_of a = target_of b.
Proof. intros H. unfold target_of. now rewrite !lower_strip, H. Qed.

(** C10.  The value of [--formats] is cut at the commas; a token that is
    empty once trimmed is dropped, and every other token is trimmed,
    lowered, freed of its leading dots and given one dot, in this order
    and without removing duplicates.  So every target begins with exactly
    one dot and is in lower case, and case, surrounding whitespace and
    leading dots of a token do not matter: WAV, wav between spaces and
    .wav all give [.wav]. *)
Theorem formats_are_normalized :
  (forall toks : list string,
     Forall (fun t => contains "," t = false) toks ->
     targets_of (join "," toks) = map target_of (filter nonblank toks))
  /\ (forall fmt, nonblank fmt = false <-> strip fmt = "")
  /\ (forall fmt, target_of fmt = "." +++ lstrip is_dot (lower (strip fmt)))
  /\ (forall fmt, exists u, target_of fmt = String "." u
                            /\ String.prefix "." u = false /\ lower u = u)
  /\ (forall a b, lower a = lower b -> target_of a = target_of b)
  /\ (forall a fmt b,
        all_chars is_space a = true -> all_chars is_space b = true ->
        nonblank (a +++ fmt +++ b) = nonblank fmt
        /\ target_of (a +++ fmt +++ b) = target_of fmt)
  /\ (forall ds fmt,
        all_chars is_dot ds = true -> head_not_space fmt = true ->
        target_of (ds +++ fmt) = target_of fmt)
  /\ targets_of "WAV" = [".wav"]
  /\ targets_of " wav " = [".wav"]
  /\ targets_of ".wav" = [".wav"]
  /\ targets_of "wav,WAV, .wav" = [".wav"; ".wav"; ".wav"].
Proof.
  split; [exact targets_of_join|].
  split.
  { intros fmt. unfold nonblank. destruct (strip fmt); cbn; split; congruence. }
  split; [reflexivity|].
  split; [exact target_of_normal_form|].
  split; [exact target_of_case|].
  split.
  { intros a fmt b Ha Hb. unfold nonblank, target_of.
    now rewrite (strip_surrounded a fmt b Ha Hb). }
  split.
  { intros ds fmt Hd Hf. unfold target_of. now rewrite (strip_dots ds fmt Hd Hf). }
  repeat split; reflexivity.
Qed.

(** The tokens [MP3], two spaces and [.Flac ] give [.mp3] and [.flac]. *)
Lemma formats_are_normalized_witness :
  targets_of (join "," ["MP3"; "  "; ".Flac "]) = [".mp3"; ".flac"]
  /\ target_of "OGG" = target_of "ogg"
  /\ target_of (" " +++ "ogg" +++ "  ") = target_of "ogg"
  /\ target_of (".." +++ "ogg") = target_of "ogg".
Proof.
  destruct formats_are_normalized as (H1 & _ & _ & _ & H5 & H6 & H7 & _).
  split; [|split; [|split]].
  - rewrite (H1 ["MP3"; "  "; ".Flac "]); [reflexivity|].
    repeat constructor.
  - apply H5. reflexivity.
  - apply (H6 " " "ogg" "  "); reflexivity.
  - apply (H7 ".." "ogg"); reflexivity.
Defined.

(* ================================================================== *)
(** * The monad of the script *)
(* ================================================================== *)

Lemma bind_val {A B} (m : M A) (k : A -> M B) (w w1 : World) (a : A) :
  m w = (Val a, w1) -> bind m k w = k a w1.
Proof. unfold bind. now intros ->. Qed.

Lemma bind_stop {A B} (m : M A) (k : A -> M B) (w w1 : World) (e : Ending) :
  m w = (Stop e, w1) -> bind m k w = (Stop e, w1).
Proof. unfold bind. now intros ->. Qed.

Lemma bind_ret {A B} (a : A) (k : A -> M B) (w : World) : bind (ret a) k w = k a w.
Proof. reflexivity. Qed.

Lemma bind_get_fs {B} (k : FS -> M B) (w : World) : bind get_fs k w = k (fs w) w.
Proof. reflexivity. Qed.

Lemma bind_val_inv {A B} (m : M A) (k : A -> M B) (w w2 : World) (b : B) :
  bind m k w = (Val b, w2) ->
  exists a w1, m w = (Val a, w1) /\ k a w1 = (Val b, w2).
Proof.
  unfold bind. destruct (m w) as [[a|e] w1]; [|discriminate].
  intros H. now exists a, w1.
Qed.

Lemma or_value_error_val {A} (o : option A) (a : A) :
  (exists w w1, or_value_error o w = (Val a, w1)) -> o = Some a.
Proof.
  intros (w & w1 & H). unfold or_value_error, ret, stop in H.
  destruct o; [injection H as -> _; reflexivity | discriminate].
Qed.

Lemma or_value_error_val' {A} (o : option A) (a : A) (w w1 : World) :
  or_value_error o w = (Val a, w1) -> o = Some a.
Proof. intros H. apply or_value_error_val. eauto. Qed.

Lemma or_raise_val {A} (e : Exn) (o : option A) (a : A) :
  (exists w w1, or_raise e o w = (Val a, w1)) -> o = Some a.
Proof.
  intros (w & w1 & H). unfold or_raise, ret, stop in H.
  destruct o; [injection H as -> _; reflexivity | discriminate].
Qed.

Lemma path_exists_val (p : Path) (w : World) :
  too_long p = false -> path_exists p w = (Val (exists_ (fs w) p), w).
Proof. unfold path_exists. now intros ->. Qed.

Lemma path_exists_inv (p : Path) (w w' : World) (b : bool) :
  path_exists p w = (Val b, w') ->
  too_long p = false /\ b = exists_ (fs w) p /\ w' = w.
Proof.
  unfold path_exists. destruct (too_long p); [discriminate|].
  intros [= <- <-]. auto.
Qed.

Lemma bind_path_exists {B} (p : Path) (k : bool -> M B) (w : World) :
  bind (path_exists p) k w
  = if too_long p then (Stop (Uncaught OSError), w) else k (exists_ (fs w) p) w.
Proof. unfold bind, path_exists. now destruct (too_long p). Qed.

Lemma path_exists_world (p : Path) (w : World) : snd (path_exists p w) = w.
Proof. unfold path_exists. now destruct (too_long p). Qed.

Lemma path_is_file_world (p : Path) (w : World) : snd (path_is_file p w) = w.
Proof. unfold path_is_file. now destruct (too_long p). Qed.

Section Preserves.

Variable R : World -> World -> Prop.
Hypothesis R_refl : forall w, R w w.
Hypothesis R_trans : forall a b c, R a b -> R b c -> R a c.

Lemma preserves_or_raise {A} (e : Exn) (o : option A) : preserves R (or_raise e o).
Proof. destruct o; intros w; apply R_refl. Qed.

Lemma preserves_path_exists (p : Path) : preserves R (path_exists p).
Proof. intros w. rewrite path_exists_world. apply R_refl. Qed.

Lemma preserves_path_is_file (p : Path) : preserves R (path_is_file p).
Proof. intros w. rewrite path_is_file_world. apply R_refl. Qed.

Lemma preserves_ret {A} (a : A) : preserves R (ret a).
Proof. intros w. apply R_refl. Qed.

Lemma preserves_stop {A} (e : Ending) : preserves R (@stop A e).
Proof. intros w. apply R_refl. Qed.

Lemma preserves_get_fs : preserves R get_fs.
Proof. intros w. apply R_refl. Qed.

Lemma preserves_or_value_error {A} (o : option A) : preserves R (or_value_error o).
Proof. destruct o; [apply preserves_ret | apply preserves_stop]. Qed.

Lemma preserves_bind {A B} (m : M A) (k : A -> M B) :
  preserves R m -> (forall a, preserves R (k a)) -> preserves R (bind m k).
Proof.
  intros Hm Hk w. unfold bind. specialize (Hm w).
  destruct (m w) as [[a|e] w1]; cbn in *; [|exact Hm].
  eapply R_trans; [exact Hm | apply Hk].
Qed.

Lemma preserves_for_each {A S} (l : list A) (body : A -> S -> M S) :
  (forall x s, In x l -> preserves R (body x s)) ->
  forall s, preserves R (for_each l body s).
Proof.
  induction l as [|x l IH]; intros Hb s; cbn [for_each].
  - apply preserves_ret.
  - apply preserves_bind.
    + apply Hb. now left.
    + intros s'. apply IH. intros y t Hy. apply Hb. now right.
Qed.

End Preserves.

(* ================================================================== *)
(** * Paths and the file system *)
(* ================================================================== *)

Lemma Path_eqb_eq (p q : Path) : Path_eqb p q = true <-> p = q.
Proof. unfold Path_eqb. destruct (Path_eq_dec p q); split; congruence. Qed.

Lemma Path_eta (p : Path) : mkPath (root p) (parts p) = p.
Proof. now destruct p. Qed.

Lemma strip_prefix_spec (a l rest : list string) :
  strip_prefix a l = Some rest <-> l = a ++ rest.
Proof.
  revert l. induction a as [|x a IH]; intros l; cbn.
  - split; congruence.
  - destruct l as [|y l]; [split; discriminate|].
    destruct (String.eqb_spec x y) as [->|Hn].
    + rewrite IH. split; congruence.
    + split; [discriminate | congruence].
Qed.

Lemma strip_prefix_app (a rest : list string) : strip_prefix a (a ++ rest) = Some rest.
Proof. now apply strip_prefix_spec. Qed.

Lemma on_path_spec (q p : Path) :
  on_path q p = true <-> root q = root p /\ exists rest, parts p = parts q ++ rest.
Proof.
  unfold on_path. rewrite andb_true_iff, String.eqb_eq.
  destruct (strip_prefix (parts q) (parts p)) as [rest|] eqn:E.
  - apply strip_prefix_spec in E. split; intros [H _]; (split; [exact H|]);
      [now exists rest | reflexivity].
  - split; [intros [_ H]; discriminate|].
    intros [_ [rest H]]. apply strip_prefix_spec in H. congruence.
Qed.

Lemma on_path_refl (p : Path) : on_path p p = true.
Proof. apply on_path_spec. split; [reflexivity|]. exists []. now rewrite app_nil_r. Qed.

Lemma on_path_trans (a b c : Path) :
  on_path a b = true -> on_path b c = true -> on_path a c = true.
Proof.
  rewrite !on_path_spec. intros [R1 [r1 E1]] [R2 [r2 E2]].
  split; [congruence|]. exists (r1 ++ r2). now rewrite E2, E1, app_assoc.
Qed.

(** Two paths on the way to the same path lie on the way to each other. *)
Lemma prefixes_comparable {A} (a b ra rb : list A) :
  a ++ ra = b ++ rb -> (exists r, b = a ++ r) \/ (exists r, a = b ++ r).
Proof.
  revert b. induction a as [|x a IH]; intros b H.
  - left. now exists b.
  - destruct b as [|y b]; [right; now exists (x :: a)|].
    cbn in H. injection H as -> H.
    destruct (IH b H) as [[r ->]|[r ->]]; [left | right]; now exists r.
Qed.

Lemma on_path_comparable (a b p : Path) :
  on_path a p = true -> on_path b p = true ->
  on_path a b = true \/ on_path b a = true.
Proof.
  rewrite !on_path_spec. intros [R1 [r1 E1]] [R2 [r2 E2]].
  rewrite E1 in E2.
  destruct (prefixes_comparable _ _ _ _ E2) as [[r H]|[r H]]; [left | right];
    (split; [congruence | now exists r]).
Qed.



Lemma assoc_app (fs : FS) (p q : Path) (k : Kind) :
  assoc (fs ++ [(p, k)]) q =
  match assoc fs q with
  | Some x => Some x
  | None => if Path_eqb p q then Some k else None
  end.
Proof.
  induction fs as [|[a ka] fs IH]; cbn; [reflexivity|].
  destruct (Path_eqb a q); [reflexivity | exact IH].
Qed.

(** A path that names something is one that the system accepts. *)
Lemma kind_of_accepted (fs : FS) (q : Path) (k : Kind) :
  kind_of fs q = Some k -> parts q <> [] -> too_long q = false.
Proof.
  unfold kind_of. destruct (parts q); [congruence|].
  now destruct (too_long q).
Qed.

Lemma kind_of_refused (fs : FS) (q : Path) :
  too_long q = true -> parts q <> [] -> kind_of fs q = None.
Proof.
  unfold kind_of. destruct (parts q); [congruence|]. now intros ->.
Qed.

Lemma too_long_parts (p : Path) :
  too_long p = false -> existsb name_too_long (parts p) = false.
Proof. unfold too_long. intros H. now apply orb_false_iff in H. Qed.

Lemma kind_of_app (fs : FS) (p q : Path) :
  kind_of (fs ++ [(p, Dir)]) q = kind_of fs q
  \/ (kind_of fs q = None /\ kind_of (fs ++ [(p, Dir)]) q = Some Dir /\ q = p).
Proof.
  unfold kind_of. destruct (parts q) eqn:E; [now left|].
  destruct (too_long q); [now left|].
  rewrite assoc_app. destruct (assoc fs q); [now left|].
  destruct (Path_eqb p q) eqn:Ep; [|now left].
  apply Path_eqb_eq in Ep. right. now subst.
Qed.

Lemma grows_on_refl (p : Path) (fs : FS) : grows_on p fs fs.
Proof. intros q. now left. Qed.

Lemma grows_on_trans (p : Path) (a b c : FS) :
  grows_on p a b -> grows_on p b c -> grows_on p a c.
Proof.
  intros H1 H2 q. destruct (H1 q) as [E1|(N1 & D1 & P1)], (H2 q) as [E2|(N2 & D2 & P2)].
  - left. congruence.
  - right. repeat split; congruence.
  - right. repeat split; congruence.
  - congruence.
Qed.

Lemma grows_on_weaken (p p' : Path) (a b : FS) :
  on_path p p' = true -> grows_on p a b -> grows_on p' a b.
Proof.
  intros Hp H q. destruct (H q) as [E|(N & D & P)]; [now left|].
  right. repeat split; try assumption. eapply on_path_trans; eassumption.
Qed.

Lemma grows_on_app (fs : FS) (p : Path) : grows_on p fs (fs ++ [(p, Dir)]).
Proof.
  intros q. destruct (kind_of_app fs p q) as [E|(N & D & ->)]; [now left|].
  right. repeat split; try assumption. apply on_path_refl.
Qed.

Lemma on_path_up (r : string) (x : string) (up : list string) :
  on_path (mkPath r (rev up)) (mkPath r (rev (x :: up))) = true.
Proof. apply on_path_spec. cbn. split; [reflexivity|]. now exists [x]. Qed.

(** What [mkdir] leaves, also when it raises: the old entries, and new
    directories on the way to the path asked for. *)
Lemma mkdir_rev_grows (r : string) (rp : list string) (fs : FS) :
  grows_on (mkPath r (rev rp)) fs (fs_after (mkdir_rev fs r rp)).
Proof.
  induction rp as [|x up IH]; cbn [mkdir_rev].
  - destruct (kind_of fs (mkPath r (rev []))) as [[|]|]; apply grows_on_refl.
  - destruct (kind_of fs (mkPath r (rev (x :: up)))) as [[|]|];
      try apply grows_on_refl.
    destruct (kind_of fs (mkPath r (rev up))) as [[|]|]; [apply grows_on_refl | |].
    + destruct (name_too_long x); [apply grows_on_refl | apply grows_on_app].
    + assert (Hup : grows_on (mkPath r (rev (x :: up))) fs (fs_after (mkdir_rev fs r up)))
        by (eapply grows_on_weaken; [apply on_path_up | exact IH]).
      destruct (mkdir_rev fs r up) as [[e fs1]|fs1]; cbn [fs_after] in *; [exact Hup|].
      destruct (name_too_long x); cbn [fs_after]; [exact Hup|].
      eapply grows_on_trans; [exact Hup | apply grows_on_app].
Qed.


Lemma mkdir_parents_grows_after (p : Path) (fs : FS) :
  grows_on p fs (fs_after (mkdir_parents fs p)).
Proof.
  unfold mkdir_parents.
  destruct (PATH_MAX <=? encoded_length (to_str p))%nat; [apply grows_on_refl|].
  pose proof (mkdir_rev_grows (root p) (rev (parts p)) fs) as H.
  now rewrite rev_involutive, Path_eta in H.
Qed.





(* ================================================================== *)
(** * Destinations *)
(* ================================================================== *)

Lemma contains_lstrip (c : ascii) (p : ascii -> bool) (s : string) :
  contains c s = false -> contains c (lstrip p s) = false.
Proof.
  induction s as [|d s IH]; cbn; [reflexivity|]. intros H.
  apply orb_false_iff in H as [Hd Hs].
  destruct (p d); [now apply IH | cbn; now rewrite Hd, Hs].
Qed.

Lemma parse_root_no_slash (s : string) : contains "/" s = false -> parse_root s = "".
Proof.
  unfold parse_root. destruct s as [|c s]; [reflexivity|]. cbn [contains].
  intros H. apply orb_false_iff in H as [Hc _].
  cbn [leading_slashes]. destruct (Ascii.eqb_spec c "/") as [->|Hn]; [discriminate|].
  destruct c as [[] [] [] [] [] [] [] []]; try reflexivity. now elim Hn.
Qed.

Lemma of_str_root (s : string) : contains "/" s = false -> root (of_str s) = "".
Proof. intros H. cbn. now apply parse_root_no_slash. Qed.

Lemma split_none (sep : ascii) (s : string) :
  contains sep s = false -> split sep s = [s].
Proof.
  intros H. rewrite <- (append_nil_r s) at 1.
  rewrite split_no_sep by assumption. cbn. now rewrite append_nil_r.
Qed.

Lemma lstrip_keeps (p : ascii -> bool) (s : string) :
  match s with String c _ => p c = false | EmptyString => True end ->
  lstrip p s = s.
Proof. destruct s as [|c s]; [reflexivity|]. cbn. now intros ->. Qed.

Lemma prefix_dot_head (u : string) :
  String.prefix "." u = false ->
  match u with String c _ => is_dot c = false | EmptyString => True end.
Proof.
  destruct u as [|c u]; [trivial|]. cbn [String.prefix].
  destruct (Ascii.ascii_dec "." c) as [<-|Hn].
  - destruct u; discriminate.
  - intros _. unfold is_dot. apply Ascii.eqb_neq. congruence.
Qed.

Lemma with_suffix_inv (p r : Path) (sfx : string) :
  with_suffix p sfx = Some r ->
  contains "/" sfx = false /\ sfx <> "." /\ truthy (name p) = true
  /\ r = mkPath (root p) (removelast (parts p) ++ [name_stem (name p) +++ sfx]).
Proof.
  unfold with_suffix.
  destruct (contains "/" sfx); [discriminate|].
  destruct ((truthy sfx && negb (String.prefix "." sfx)) || (sfx =? ".")%string) eqn:E;
    [discriminate|].
  destruct (truthy (name p)); [|discriminate]. cbn.
  intros H. injection H as <-.
  apply orb_false_iff in E as [_ E]. apply String.eqb_neq in E. auto.
Qed.

Lemma with_suffix_valid (p : Path) (sfx : string) :
  valid_suffix sfx = true -> truthy (name p) = true ->
  with_suffix p sfx =
  Some (mkPath (root p) (removelast (parts p) ++ [name_stem (name p) +++ sfx])).
Proof.
  unfold valid_suffix, with_suffix. intros H Hn.
  apply andb_true_iff in H as [H H3]. apply andb_true_iff in H as [H1 H2].
  apply negb_true_iff in H1, H3. now rewrite H1, H2, H3, Hn, andb_false_r.
Qed.

(** Where a destination lies: under the output directory, then the
    directory of the format, then the relative path of the source with
    the new suffix. *)
Lemma destination_shape (out_dir rel d : Path) (ext : string) :
  destination out_dir rel ext = Some d -> root rel = "" ->
  contains "/" ext = false /\ ext <> "." /\ truthy (name rel) = true
  /\ d = mkPath (root out_dir)
           (parts out_dir ++ parts (of_str (lstrip is_dot ext))
            ++ removelast (parts rel) ++ [name_stem (name rel) +++ ext]).
Proof.
  unfold destination. intros H Hr.
  destruct (with_suffix rel ext) as [r|] eqn:E; [|discriminate].
  apply with_suffix_inv in E as (H1 & H2 & H3 & ->).
  injection H as <-. repeat (split; [assumption|]).
  unfold joinstr, joinpath.
  rewrite (of_str_root _ (contains_lstrip _ is_dot _ H1)). cbn.
  rewrite Hr. cbn. now rewrite <- app_assoc.
Qed.

Lemma destination_valid (out_dir rel : Path) (ext : string) :
  valid_suffix ext = true -> truthy (name rel) = true ->
  exists d, destination out_dir rel ext = Some d.
Proof.
  intros H Hn. unfold destination. rewrite (with_suffix_valid _ _ H Hn). eauto.
Qed.

Lemma removelast_snoc {A} (l : list A) (x : A) : removelast (l ++ [x]) = l.
Proof. apply removelast_last. Qed.

Lemma destination_parent (out_dir rel d : Path) (ext : string) :
  destination out_dir rel ext = Some d -> root rel = "" ->
  on_path out_dir (parent d) = true.
Proof.
  intros H Hr. apply destination_shape in H as (_ & _ & _ & ->); [|exact Hr].
  apply on_path_spec. unfold parent. cbn. split; [reflexivity|].
  rewrite !app_assoc, removelast_snoc. rewrite <- app_assoc. eauto.
Qed.

Lemma relative_to_root (p base rel : Path) :
  relative_to p base = Some rel -> root rel = "".
Proof.
  unfold relative_to. destruct (root p =? root base)%string; [|discriminate].
  destruct (strip_prefix (parts base) (parts p)); [|discriminate].
  now intros [= <-].
Qed.

Lemma last_app_cons {A} (l : list A) (x : A) (m : list A) (d : A) :
  last (l ++ x :: m) d = last (x :: m) d.
Proof.
  induction l as [|y l IH]; [reflexivity|].
  cbn [app]. rewrite <- IH. cbn. destruct (l ++ x :: m) eqn:E; [|reflexivity].
  now destruct l.
Qed.

(* ================================================================== *)
(** * The order of the walk *)
(* ================================================================== *)

Section Sorting.

Context {A : Type} (le : A -> A -> bool).
Hypothesis le_total : forall x y, le x y = false -> le y x = true.
Hypothesis le_trans : forall x y z, le x y = true -> le y z = true -> le x z = true.

Lemma insert_by_In (x : A) (l : list A) (y : A) :
  In y (insert_by le x l) <-> y = x \/ In y l.
Proof.
  induction l as [|z l IH]; cbn [insert_by].
  - cbn. intuition congruence.
  - destruct (le x z); cbn [In]; [intuition congruence|].
    rewrite IH. intuition congruence.
Qed.

Lemma sort_by_In (l : list A) (y : A) : In y (sort_by le l) <-> In y l.
Proof.
  induction l as [|x l IH]; [reflexivity|].
  unfold sort_by in *. cbn [fold_right In]. rewrite insert_by_In, IH.
  intuition congruence.
Qed.



End Sorting.






Lemma rglob_In (fs : FS) (d q : Path) :
  In q (rglob fs d) <-> In q (map fst fs) /\ below d q = true.
Proof. unfold rglob. now rewrite sort_by_In, filter_In. Qed.


(** A discovered file lies under the input directory and has a name. *)
Lemma discover_relative (fs : FS) (in_dir src : Path) :
  In src (discover fs in_dir) ->
  exists rel, relative_to src in_dir = Some rel /\ truthy (name rel) = true.
Proof.
  unfold discover. rewrite filter_In, rglob_In. intros [[_ Hb] Hs].
  apply andb_true_iff in Hs as [_ Hs].
  unfold below in Hb. apply andb_true_iff in Hb as [Hr Hb].
  destruct (strip_prefix (parts in_dir) (parts src)) as [[|x l]|] eqn:E;
    try discriminate.
  exists (mkPath "" (x :: l)). unfold relative_to. rewrite Hr, E.
  split; [reflexivity|].
  apply strip_prefix_spec in E.
  assert (Hn : name (mkPath "" (x :: l)) = name src).
  { unfold name. cbn [parts]. now rewrite E, last_app_cons. }
  rewrite Hn. unfold suffix in Hs.
  destruct (name src); [discriminate Hs | reflexivity].
Qed.

(** The directory of a target of the parsed format list is one
    component, the target without its dot. *)
Lemma target_component (formats ext : string) :
  In ext (targets_of formats) -> contains "/" ext = false -> ext <> "." ->
  exists u, ext = String "." u /\ of_str (lstrip is_dot ext) = mkPath "" [u].
Proof.
  unfold targets_of. rewrite in_map_iff. intros (fmt & <- & _) Hs Hd.
  destruct (target_of_normal_form fmt) as (u & E & Hp & _).
  rewrite E in *. exists u. split; [reflexivity|].
  apply prefix_dot_head in Hp.
  assert (El : lstrip is_dot (String "." u) = u) by (cbn; now apply lstrip_keeps).
  rewrite El. cbn in Hs.
  unfold of_str. rewrite (parse_root_no_slash _ Hs), (split_none _ _ Hs).
  destruct u as [|c u]; [congruence|].
  unfold is_dot in Hp. cbn. now rewrite Hp.
Qed.

(** C1, as the code has it.  Two jobs of a plan have the same
    destination exactly when they have the same target format and their
    sources have the same relative path up to the suffix of the name: a
    destination remembers the format and the path of its source, but not
    the suffix the source had. *)
Theorem same_destination_iff
  (in_dir out_dir : Path) (formats : string)
  (src1 src2 rel1 rel2 d1 d2 : Path) (ext1 ext2 : string) :
  In ext1 (targets_of formats) -> In ext2 (targets_of formats) ->
  relative_to src1 in_dir = Some rel1 -> relative_to src2 in_dir = Some rel2 ->
  destination out_dir rel1 ext1 = Some d1 ->
  destination out_dir rel2 ext2 = Some d2 ->
  (d1 = d2 <-> ext1 = ext2 /\ stem_path rel1 = stem_path rel2).
Proof.
  intros He1 He2 Hr1 Hr2 Hd1 Hd2.
  apply relative_to_root in Hr1, Hr2.
  apply destination_shape in Hd1 as (S1 & D1 & _ & ->); [|exact Hr1].
  apply destination_shape in Hd2 as (S2 & D2 & _ & ->); [|exact Hr2].
  destruct (target_component _ _ He1 S1 D1) as (u1 & -> & ->).
  destruct (target_component _ _ He2 S2 D2) as (u2 & -> & ->).
  unfold stem_path. rewrite Hr1, Hr2. cbn [parts]. split.
  - intros H. injection H as H. apply app_inv_head in H.
    cbn [app] in H. injection H as Hu H. subst u2.
    apply app_inj_tail in H as [Hl Hn].
    split; [reflexivity|]. apply append_inv_tail in Hn. congruence.
  - intros [Ee H]. injection Ee as ->. injection H as H.
    apply app_inj_tail in H as [Hl Hn]. congruence.
Qed.

(** C1 fails: [a.mp3] and [a.wav] in the same directory, both converted
    to flac, have the one destination [flac/a.flac]. *)
Lemma same_stem_same_destination :
  ~ destinations_distinct
      [(of_str "/in", Dir); (of_str "/in/a.mp3", File); (of_str "/in/a.wav", File)]
      (of_str "/in") (of_str "/out") "flac".
Proof.
  intros H.
  apply (H (of_str "/in/a.mp3") (of_str "/in/a.wav")
           (of_str "a.mp3") (of_str "a.wav") ".flac" ".flac");
    try reflexivity; try (cbn; tauto); discriminate.
Qed.

(** [a.mp3] and [a.wav] to flac: one format, one stem, one destination. *)
Lemma same_destination_iff_witness :
  of_str "/out/flac/a.flac" = of_str "/out/flac/a.flac"
  <-> ".flac" = ".flac" /\ stem_path (of_str "a.mp3") = stem_path (of_str "a.wav").
Proof.
  exact (same_destination_iff (of_str "/in") (of_str "/out") "flac"
    (of_str "/in/a.mp3") (of_str "/in/a.wav") (of_str "a.mp3") (of_str "a.wav")
    (of_str "/out/flac/a.flac") (of_str "/out/flac/a.flac") ".flac" ".flac"
    (or_introl eq_refl) (or_introl eq_refl) eq_refl eq_refl eq_refl eq_refl).
Defined.

(* ================================================================== *)
(** * The planner *)
(* ================================================================== *)


Lemma in_destinations (in_dir out_dir : Path) (audio_files : list Path)
  (targets : list string) (src rel d : Path) (ext : string) :
  In src audio_files -> relative_to src in_dir = Some rel ->
  In ext targets -> destination out_dir rel ext = Some d ->
  In d (destinations in_dir out_dir audio_files targets).
Proof.
  intros Hs Hr He Hd. unfold destinations. apply in_flat_map.
  exists src. split; [exact Hs|]. rewrite Hr. apply in_flat_map.
  exists ext. split; [exact He|]. rewrite Hd. now left.
Qed.

Lemma in_destinations_inv (in_dir out_dir : Path) (audio_files : list Path)
  (targets : list string) (d : Path) :
  In d (destinations in_dir out_dir audio_files targets) ->
  exists src rel ext,
    In src audio_files /\ relative_to src in_dir = Some rel
    /\ In ext targets /\ destination out_dir rel ext = Some d.
Proof.
  unfold destinations. rewrite in_flat_map. intros (src & Hs & H).
  destruct (relative_to src in_dir) as [rel|] eqn:Er; [|easy].
  rewrite in_flat_map in H. destruct H as (ext & He & H).
  destruct (destination out_dir rel ext) as [d'|] eqn:Ed; [|easy].
  destruct H as [<-|[]]. now exists src, rel, ext.
Qed.


(** The length of a path and of its parent. *)
Lemma encoded_length_app (a b : string) :
  encoded_length (a +++ b) = encoded_length a + encoded_length b.
Proof.
  induction a as [|c a IH]; cbn [String.append encoded_length]; [reflexivity|].
  rewrite IH. lia.
Qed.

Lemma join_snoc (sep : string) (l : list string) (x : string) :
  l <> [] -> join sep (l ++ [x]) = join sep l +++ sep +++ x.
Proof.
  induction l as [|y l IH]; [congruence|]. intros _.
  destruct l as [|z l]; [reflexivity|].
  change (join sep ((y :: z :: l) ++ [x]))
    with (y +++ sep +++ join sep ((z :: l) ++ [x])).
  rewrite IH by discriminate.
  change (join sep (y :: z :: l)) with (y +++ sep +++ join sep (z :: l)).
  now rewrite !append_assoc.
Qed.

Lemma to_str_parent_length (p : Path) :
  encoded_length (to_str (parent p)) <= Nat.max 1 (encoded_length (to_str p)).
Proof.
  destruct p as [r l]. unfold parent. cbn [root parts].
  induction l as [|x l _] using rev_ind; [cbn [removelast]; lia|].
  rewrite removelast_last.
  assert (Hp : to_str (mkPath r (l ++ [x])) = r +++ join "/" (l ++ [x])).
  { unfold to_str. cbn [root parts]. destruct r; [|reflexivity]. now destruct l. }
  rewrite Hp. unfold to_str. cbn [root parts].
  destruct l as [|y l].
  - destruct r as [|a r]; cbn [join app]; rewrite ?encoded_length_app.
    + change (encoded_length ".") with 1. lia.
    + cbn [encoded_length]. destruct (N_of_ascii a <? 128)%N; lia.
  - rewrite join_snoc by discriminate.
    destruct r; rewrite !encoded_length_app; lia.
Qed.

Lemma existsb_removelast {A} (f : A -> bool) (l : list A) :
  existsb f l = false -> existsb f (removelast l) = false.
Proof.
  induction l as [|x l _] using rev_ind; [easy|].
  rewrite removelast_last, existsb_app. intros H. now apply orb_false_iff in H.
Qed.

(** The parent of a path that the system accepts is accepted. *)
Lemma too_long_parent (p : Path) : too_long p = false -> too_long (parent p) = false.
Proof.
  unfold too_long. intros H. apply orb_false_iff in H as [H1 H2].
  apply orb_false_iff. split.
  - apply Nat.leb_gt in H1. apply Nat.leb_gt.
    pose proof (to_str_parent_length p) as Hl.
    assert (Hm : 1 < PATH_MAX) by (apply Nat.ltb_lt; reflexivity).
    revert H1 Hl Hm. generalize PATH_MAX. intros. lia.
  - now apply existsb_removelast.
Qed.

Lemma mkdir_val (p : Path) (w : World) (fs' : FS) :
  mkdir_parents (fs w) p = inr fs' -> mkdir p w = (Val tt, mkWorld fs' (log w)).
Proof. unfold mkdir. now intros ->. Qed.






Section Plan.

Variables (args : Args) (in_dir out_dir : Path).




End Plan.

Lemma forallb_In {A} (f : A -> bool) (l : list A) (x : A) :
  forallb f l = true -> In x l -> f x = true.
Proof. rewrite forallb_forall. auto. Qed.

Lemma mkdir_log (p : Path) : preserves (fun w w' => log w' = log w) (mkdir p).
Proof.
  intros w. unfold mkdir. now destruct (mkdir_parents (fs w) p) as [[e fs']|fs'].
Qed.

(** The counting loop prints nothing and launches nothing. *)
Lemma plan_keeps_log (args : Args) (in_dir out_dir : Path)
  (audio_files : list Path) (targets : list string) :
  preserves (fun w w' => log w' = log w)
            (plan args in_dir out_dir audio_files targets).
Proof.
  assert (Rt : forall a b c : World, log b = log a -> log c = log b -> log c = log a)
    by (intros; congruence).
  unfold plan. apply preserves_for_each; [reflexivity | exact Rt |].
  intros src n _.
  apply preserves_bind; [exact Rt | now apply preserves_or_value_error |].
  intros rel. apply preserves_for_each; [reflexivity | exact Rt |].
  intros ext m _. unfold plan_one.
  apply preserves_bind; [exact Rt | now apply preserves_or_value_error |].
  intros dst. apply preserves_bind; [exact Rt | apply mkdir_log |].
  intros _. apply preserves_bind; [exact Rt | now apply preserves_path_exists |].
  intros there. destruct (there && negb (overwrite args)); now apply preserves_ret.
Qed.




(* ================================================================== *)
(** * Dry runs *)
(* ================================================================== *)

Lemma launched_app (l l' : list Event) : launched (l ++ l') = launched l ++ launched l'.
Proof. unfold launched. apply flat_map_app. Qed.

Lemma preserves_bind_val (R : World -> World -> Prop) {A B} (m : M A) (k : A -> M B) :
  (forall w, R w w) -> (forall a b c, R a b -> R b c -> R a c) ->
  preserves R m ->
  (forall a, (exists w w1, m w = (Val a, w1)) -> preserves R (k a)) ->
  preserves R (bind m k).
Proof.
  intros Rr Rt Hm Hk w. unfold bind. pose proof (Hm w) as H.
  destruct (m w) as [[a|e] w1] eqn:E; cbn in *; [|exact H].
  eapply Rt; [exact H | apply Hk; eauto].
Qed.

Lemma dry_run_apply_telephony (args : Args) :
  dry_run (apply_telephony args) = dry_run args.
Proof. unfold apply_telephony. now destruct (telephony args). Qed.

Section DryRun.

Variable out_dir : Path.

Lemma quiet_refl (w : World) : (quiet out_dir) w w.
Proof. split; [intros q; now left | reflexivity]. Qed.

Lemma quiet_trans (a b c : World) : (quiet out_dir) a b -> (quiet out_dir) b c -> (quiet out_dir) a c.
Proof.
  intros [H1 L1] [H2 L2]. split; [|congruence]. intros q.
  destruct (H1 q) as [E1|(N1 & D1 & P1)], (H2 q) as [E2|(N2 & D2 & P2)].
  - left. congruence.
  - right. repeat split; congruence.
  - right. repeat split; congruence.
  - congruence.
Qed.

Lemma quiet_print (m : Msg) : preserves (quiet out_dir) (print m).
Proof.
  intros w. split; cbn; [intros q; now left|].
  rewrite launched_app. cbn. apply app_nil_r.
Qed.

Lemma quiet_mkdir (p : Path) :
  (forall q, on_path q p = true ->
             on_path q out_dir = true \/ on_path out_dir q = true) ->
  preserves (quiet out_dir) (mkdir p).
Proof.
  intros Hp w. unfold mkdir.
  pose proof (mkdir_parents_grows_after p (fs w)) as E.
  destruct (mkdir_parents (fs w) p) as [[e fs']|fs']; cbn [fs_after] in E;
    (split; [|reflexivity]); intros q; cbn;
    (destruct (E q) as [H|(N & D & P)]; [now left|]); right; auto.
Qed.

Lemma quiet_mkdir_parent (rel d : Path) (ext : string) :
  root rel = "" -> destination out_dir rel ext = Some d ->
  preserves (quiet out_dir) (mkdir (parent d)).
Proof.
  intros Hr Hd. apply quiet_mkdir. intros q Hq.
  pose proof (destination_parent _ _ _ _ Hd Hr) as Ho.
  destruct (on_path_comparable _ _ _ Hq Ho); auto.
Qed.

Lemma quiet_plan (args : Args) (in_dir : Path) (audio_files : list Path)
  (targets : list string) :
  preserves (quiet out_dir) (plan args in_dir out_dir audio_files targets).
Proof.
  unfold plan. apply preserves_for_each; [exact quiet_refl | exact quiet_trans |].
  intros src n _.
  apply preserves_bind_val;
    [exact quiet_refl | exact quiet_trans
     | apply preserves_or_value_error; exact quiet_refl |].
  intros rel Hrel. apply or_value_error_val, relative_to_root in Hrel.
  apply preserves_for_each; [exact quiet_refl | exact quiet_trans |].
  intros ext m _. unfold plan_one.
  apply preserves_bind_val;
    [exact quiet_refl | exact quiet_trans
     | apply preserves_or_value_error; exact quiet_refl |].
  intros dst Hdst. apply or_value_error_val in Hdst.
  apply preserves_bind; [exact quiet_trans | now apply (quiet_mkdir_parent rel dst ext) |].
  intros _. apply preserves_bind;
    [exact quiet_trans | apply preserves_path_exists; exact quiet_refl |].
  intros there. destruct (there && negb (overwrite args));
    apply preserves_ret; exact quiet_refl.
Qed.

Lemma quiet_run_jobs (env : Env) (args : Args) (ffmpeg_bin : string) (total_jobs : nat)
  (in_dir : Path) (audio_files : list Path) (targets : list string) :
  dry_run args = true ->
  preserves (quiet out_dir) (run_jobs env args ffmpeg_bin total_jobs in_dir out_dir
                            audio_files targets).
Proof.
  intros Hdry. unfold run_jobs.
  apply preserves_for_each; [exact quiet_refl | exact quiet_trans |].
  intros src n _.
  apply preserves_bind;
    [exact quiet_trans | apply preserves_or_value_error; exact quiet_refl |].
  intros rel. apply preserves_for_each; [exact quiet_refl | exact quiet_trans |].
  intros ext m _. unfold run_one.
  apply preserves_bind;
    [exact quiet_trans | apply preserves_or_value_error; exact quiet_refl |].
  intros dst. apply preserves_bind;
    [exact quiet_trans | apply preserves_path_exists; exact quiet_refl |].
  intros there. destruct (there && negb (overwrite args));
    [apply preserves_ret; exact quiet_refl|].
  unfold attempt. rewrite Hdry.
  repeat (apply preserves_bind; [exact quiet_trans | apply quiet_print | intros _]).
  apply preserves_ret; exact quiet_refl.
Qed.

End DryRun.

Lemma quiet_batch_in (env : Env) (args : Args) (ffmpeg_bin : string)
  (in_dir out_dir : Path) :
  dry_run args = true ->
  preserves (quiet out_dir) (batch_in env args ffmpeg_bin in_dir out_dir).
Proof.
  intros Hdry.
  pose proof (quiet_refl out_dir) as Rr. pose proof (quiet_trans out_dir) as Rt.
  pose proof (quiet_print out_dir) as Rp.
  unfold batch_in.
  apply preserves_bind; [exact Rt | |intros _].
  { apply quiet_mkdir. auto. }
  destruct (targets_of (formats args)) as [|t targets] eqn:Et.
  { apply preserves_bind; [exact Rt | apply Rp | intros _].
    now apply preserves_stop. }
  apply preserves_bind; [exact Rt | |intros _].
  { destruct (telephony args && negb (mem ".wav" (t :: targets)));
      [apply Rp | now apply preserves_ret]. }
  apply preserves_bind; [exact Rt | now apply preserves_get_fs | intros fs0].
  apply preserves_bind; [exact Rt | now apply preserves_or_raise | intros audio_files].
  destruct audio_files as [|a audio].
  { apply preserves_bind; [exact Rt | apply Rp | intros _].
    now apply preserves_stop. }
  apply preserves_bind; [exact Rt | apply quiet_plan | intros total].
  apply preserves_bind; [exact Rt | apply Rp | intros _].
  apply preserves_bind; [exact Rt | apply Rp | intros _].
  destruct total as [|n].
  { apply preserves_bind; [exact Rt | apply Rp | intros _].
    now apply preserves_stop. }
  apply preserves_bind; [exact Rt | | intros _; apply Rp].
  apply quiet_run_jobs. now rewrite dry_run_apply_telephony.
Qed.

(** The batch, whether it finds its two directories or not. *)
Lemma batch_cases (env : Env) (args : Args) (ffmpeg_bin : string) (w : World) :
  (batch env args ffmpeg_bin w = (Stop (Uncaught RuntimeError), w)
   /\ (user_path env (input args) = None \/ user_path env (output args) = None))
  \/ exists in_dir out_dir,
       user_path env (input args) = Some in_dir
       /\ user_path env (output args) = Some out_dir
       /\ batch env args ffmpeg_bin w = batch_in env args ffmpeg_bin in_dir out_dir w.
Proof.
  unfold batch.
  destruct (user_path env (input args)) as [in_dir|]; [|left; split; [reflexivity | now left]].
  destruct (user_path env (output args)) as [out_dir|];
    [|left; split; [reflexivity | now right]].
  right. now exists in_dir, out_dir.
Qed.

Lemma quiet_batch (env : Env) (args : Args) (ffmpeg_bin : string) :
  dry_run args = true ->
  preserves (fun w w' => match user_path env (output args) with
                         | Some out_dir => quiet out_dir w w'
                         | None => w' = w
                         end)
            (batch env args ffmpeg_bin).
Proof.
  intros Hdry w.
  destruct (batch_cases env args ffmpeg_bin w) as [[E H]|(in_dir & out_dir & Hi & Ho & E)];
    rewrite E.
  - cbn [snd]. destruct (user_path env (output args)); [apply quiet_refl | reflexivity].
  - rewrite Ho. now apply quiet_batch_in.
Qed.

(** The locator with a path given: what it looks at, in order. *)
Lemma resolve_ffmpeg_explicit (env : Env) (c : ascii) (a' : string) (w : World) :
  resolve_ffmpeg env (Some (String c a')) w =
  (match expanduser env (of_str (String c a')) with
   | None => Stop (Uncaught RuntimeError)
   | Some p =>
       if too_long p then Stop (Uncaught OSError)
       else if is_file (fs w) p then Val (to_str p)
       else if too_long (joinstr p (exe_name env)) then Stop (Uncaught OSError)
       else if is_file (fs w) (joinstr p (exe_name env))
            then Val (to_str (joinstr p (exe_name env)))
            else Stop (SysExit (FfmpegNotAtPath (String c a')))
   end, w).
Proof.
  unfold resolve_ffmpeg, bind, or_raise, path_is_file, ret, stop.
  destruct (expanduser env (of_str (String c a'))) as [p|]; [|reflexivity].
  destruct (too_long p); [reflexivity|].
  destruct (is_file (fs w) p); [reflexivity|].
  destruct (too_long (joinstr p (exe_name env))); [reflexivity|].
  now destruct (is_file (fs w) (joinstr p (exe_name env))).
Qed.

Lemma resolve_ffmpeg_world (env : Env) (a : option string) (w : World) :
  snd (resolve_ffmpeg env a w) = w.
Proof.
  destruct a as [[|c a']|]; [| now rewrite resolve_ffmpeg_explicit |];
    unfold resolve_ffmpeg, ret, stop;
    now destruct (which env (exe_name env)) as [[|x f]|].
Qed.

Lemma check_ffmpeg_world (env : Env) (ffmpeg_bin : string) (w : World) :
  snd (check_ffmpeg_available env ffmpeg_bin w) =
  mkWorld (snd (subprocess_run env [ffmpeg_bin; "-version"] (fs w)
                  (List.length (launched (log w)))))
          (log w ++ [Exec [ffmpeg_bin; "-version"]]).
Proof.
  unfold check_ffmpeg_available, bind, run_process.
  destruct (subprocess_run env _ (fs w) _) as [o fs1]. now destruct o.
Qed.

Lemma check_ffmpeg_stop (env : Env) (ffmpeg_bin : string) (w w1 : World) (e : Ending) :
  check_ffmpeg_available env ffmpeg_bin w = (Stop e, w1) -> probe_ending e.
Proof.
  unfold check_ffmpeg_available, bind, run_process, ret, stop.
  destruct (subprocess_run env _ (fs w) _) as [o fs1].
  destruct o; intros H; inversion H; exact I.
Qed.

Lemma resolve_ffmpeg_stop (env : Env) (a : option string) (w w1 : World) (e : Ending) :
  resolve_ffmpeg env a w = (Stop e, w1) -> locator_ending e.
Proof.
  destruct a as [[|c a']|].
  - unfold resolve_ffmpeg, ret, stop.
    destruct (which env (exe_name env)) as [[|x f]|]; intros H; inversion H; exact I.
  - rewrite resolve_ffmpeg_explicit.
    destruct (expanduser env (of_str (String c a'))) as [p|];
      [|intros H; inversion H; exact I].
    destruct (too_long p); [intros H; inversion H; exact I|].
    destruct (is_file (fs w) p); [discriminate|].
    destruct (too_long (joinstr p (exe_name env))); [intros H; inversion H; exact I|].
    destruct (is_file (fs w) (joinstr p (exe_name env))); [discriminate|].
    intros H; inversion H; exact I.
  - unfold resolve_ffmpeg, ret, stop.
    destruct (which env (exe_name env)) as [[|x f]|]; intros H; inversion H; exact I.
Qed.

(** A run stops in the locator, or at the probe, or is the batch after
    the probe. *)
Lemma run_main_cases (env : Env) (args : Args) (w : World) :
  (exists e, locator_ending e /\ run_main env args w = (e, w))
  \/ exists ffmpeg_bin,
       fst (resolve_ffmpeg env (ffmpeg args) w) = Val ffmpeg_bin
       /\ ((exists e, probe_ending e
                      /\ run_main env args w = (e, probed env ffmpeg_bin w))
           \/ run_main env args w
              = ending_of (batch env args ffmpeg_bin (probed env ffmpeg_bin w))).
Proof.
  unfold run_main, main.
  pose proof (resolve_ffmpeg_world env (ffmpeg args) w) as Hr.
  destruct (resolve_ffmpeg env (ffmpeg args) w) as [[bin|e] w0] eqn:Er;
    cbn in Hr; subst w0.
  - right. exists bin. split; [reflexivity|]. rewrite (bind_val _ _ _ _ _ Er).
    pose proof (check_ffmpeg_world env bin w) as Hc. fold (probed env bin w) in Hc.
    destruct (check_ffmpeg_available env bin w) as [[[]|e] w1] eqn:Ec;
      cbn in Hc; subst w1.
    + right. now rewrite (bind_val _ _ _ _ _ Ec).
    + left. exists e. rewrite (bind_stop _ _ _ _ _ Ec).
      split; [|reflexivity]. eapply check_ffmpeg_stop, Ec.
  - left. rewrite (bind_stop _ _ _ _ _ Er).
    exists e. split; [|reflexivity]. eapply resolve_ffmpeg_stop, Er.
Qed.

(** C5, as the code has it.  A dry run launches the executable once at
    most, for the version probe of the locator, and never for a job; and
    after the probe it leaves every entry of the file system as it is,
    adding only directories inside the output directory or on the way to
    it (and nothing at all when it finds no output directory). *)
Theorem dry_run_launches_only_the_probe (env : Env) (args : Args) (w : World) :
  dry_run args = true ->
  let w' := snd (run_main env args w) in
  w' = w
  \/ exists ffmpeg_bin,
       launched (log w') = launched (log w) ++ [[ffmpeg_bin; "-version"]]
       /\ match user_path env (output args) with
          | Some out_dir =>
              only_dirs_added out_dir
                (snd (subprocess_run env [ffmpeg_bin; "-version"] (fs w)
                        (List.length (launched (log w)))))
                (fs w')
          | None =>
              fs w' = snd (subprocess_run env [ffmpeg_bin; "-version"] (fs w)
                             (List.length (launched (log w))))
          end.
Proof.
  intros Hdry w'. subst w'.
  destruct (run_main_cases env args w) as [(e & _ & ->)|[bin [_ [(e & _ & ->)| ->]]]];
    [now left | right; exists bin | right; exists bin].
  - cbn [snd probed log fs]. split; [now rewrite launched_app|].
    destruct (user_path env (output args)); [intros q; now left | reflexivity].
  - pose proof (quiet_batch env args bin Hdry (probed env bin w)) as Hq.
    destruct (batch env args bin (probed env bin w)) as [[[]|e] w2];
      cbn [snd ending_of] in *;
      (destruct (user_path env (output args)) as [out_dir|];
       [destruct Hq as [Hf Hl]; cbn [probed log fs] in *;
        split; [rewrite Hl, launched_app; reflexivity | exact Hf]
       |subst w2; cbn [probed log fs]; split; [now rewrite launched_app | reflexivity]]).
Qed.

(** C5 fails as stated: a dry run launches the version probe. *)
Lemma dry_run_launches_the_probe :
  ~ dry_run_launches_nothing (Examples.env_with Completed)
      (Examples.cli "wav" false true) (mkWorld Examples.music []).
Proof. intros H. specialize (H eq_refl). vm_compute in H. discriminate. Qed.

(** A dry run over [a.mp3] and [b/c.wav]: one probe, directories only. *)
Lemma dry_run_launches_only_the_probe_witness :
  let w' := snd (run_main (Examples.env_with Completed)
                   (Examples.cli "wav" false true) (mkWorld Examples.music [])) in
  w' = mkWorld Examples.music []
  \/ exists ffmpeg_bin,
       launched (log w') = [] ++ [[ffmpeg_bin; "-version"]]
       /\ only_dirs_added (of_str "/out") Examples.music (fs w').
Proof.
  exact (dry_run_launches_only_the_probe (Examples.env_with Completed)
           (Examples.cli "wav" false true) (mkWorld Examples.music []) eq_refl).
Defined.

(* ================================================================== *)
(** * The runner *)
(* ================================================================== *)

Lemma for_each_returns {A S} (l : list A) (body : A -> S -> M S) :
  (forall x s w, In x l -> exists s' w', body x s w = (Val s', w')) ->
  forall s w, exists s' w', for_each l body s w = (Val s', w').
Proof.
  induction l as [|x l IH]; intros Hb s w; cbn [for_each].
  - now exists s, w.
  - destruct (Hb x s w (or_introl eq_refl)) as (s1 & w1 & E).
    rewrite (bind_val _ _ _ _ _ E). apply IH.
    intros y t v Hy. apply Hb. now right.
Qed.

Lemma for_each_val_inv {A S} (l : list A) (body : A -> S -> M S)
  (s s' : S) (w w' : World) :
  for_each l body s w = (Val s', w') ->
  forall x, In x l -> exists s0 w0 s1 w1, body x s0 w0 = (Val s1, w1).
Proof.
  revert s w. induction l as [|y l IH]; intros s w H x Hx; [easy|].
  cbn [for_each] in H. apply bind_val_inv in H as (s1 & w1 & E1 & E2).
  destruct Hx as [<-|Hx]; [now exists s, w, s1, w1|].
  eapply IH; eassumption.
Qed.

(** When the counting loop ends, every pair has its destination, a
    path that the system accepts. *)
Lemma plan_val_inv (args : Args) (in_dir out_dir : Path)
  (audio_files : list Path) (targets : list string) (w w' : World) (n : nat) :
  plan args in_dir out_dir audio_files targets w = (Val n, w') ->
  forall src, In src audio_files ->
  exists rel, relative_to src in_dir = Some rel
              /\ forall ext, In ext targets ->
                 exists d, destination out_dir rel ext = Some d
                           /\ too_long d = false.
Proof.
  intros H src Hs. unfold plan in H.
  destruct (for_each_val_inv _ _ _ _ _ _ H src Hs) as (s0 & w0 & s1 & w1 & E).
  apply bind_val_inv in E as (rel & w2 & Er & Ef).
  apply or_value_error_val' in Er. exists rel. split; [exact Er|].
  intros ext He.
  destruct (for_each_val_inv _ _ _ _ _ _ Ef ext He) as (t0 & v0 & t1 & v1 & E).
  unfold plan_one in E. apply bind_val_inv in E as (d & v2 & Ed & E).
  apply or_value_error_val' in Ed. exists d. split; [exact Ed|].
  apply bind_val_inv in E as (u & v3 & _ & E).
  apply bind_val_inv in E as (there & v4 & E & _).
  now apply path_exists_inv in E.
Qed.

Lemma launched_print (l : list Event) (m : Msg) : launched (l ++ [Print m]) = launched l.
Proof. rewrite launched_app. apply app_nil_r. Qed.

Lemma attempt_returns (env : Env) (args : Args) (total_jobs : nat) (src dst : Path)
  (cmd : list string) (done : nat) (w : World) :
  never_interrupted env ->
  exists w', attempt env args total_jobs src dst cmd done w = (Val (done + 1), w').
Proof.
  intros Hn. unfold attempt, bind, print, run_process, ret, stop.
  destruct (dry_run args); [eauto|]. cbn [fs log].
  pose proof (Hn cmd (fs w)
                (List.length (launched (log w ++ [Print (MsgProgress (done + 1) total_jobs src dst)]))))
    as Hi.
  destruct (subprocess_run env cmd (fs w) _) as [o fs1]. cbn [fst] in Hi.
  destruct o as [|stderr|r|r|r]; try (now eauto).
  - destruct (truthy stderr); eauto.
  - now elim (Hi r).
Qed.

Lemma run_jobs_returns (env : Env) (args : Args) (ffmpeg_bin : string)
  (total_jobs : nat) (in_dir out_dir : Path) (audio_files : list Path)
  (targets : list string) :
  never_interrupted env ->
  (forall src, In src audio_files ->
     exists rel, relative_to src in_dir = Some rel
                 /\ forall ext, In ext targets ->
                    exists d, destination out_dir rel ext = Some d
                              /\ too_long d = false) ->
  forall w, exists done w',
    run_jobs env args ffmpeg_bin total_jobs in_dir out_dir audio_files targets w
    = (Val done, w').
Proof.
  intros Hn Hd w. unfold run_jobs. apply for_each_returns.
  intros src n v Hs. destruct (Hd src Hs) as (rel & -> & Hrel).
  cbn [or_value_error]. unfold bind at 1. unfold ret at 1.
  apply for_each_returns. intros ext m u He.
  destruct (Hrel ext He) as (d & Ed & Hl). unfold run_one. rewrite Ed.
  cbn [or_value_error]. rewrite bind_ret, (bind_val _ _ _ _ _ (path_exists_val d u Hl)).
  destruct (exists_ (fs u) d && negb (overwrite args)); [unfold ret; eauto|].
  destruct (attempt_returns env args total_jobs src d
              (build_ffmpeg_cmd ffmpeg_bin src d args) m u Hn) as [u' E].
  rewrite E. eauto.
Qed.

(** A failed job reports itself and hands the counter on. *)
Lemma run_one_failure (env : Env) (args : Args) (ffmpeg_bin : string)
  (total_jobs : nat) (out_dir src rel dst : Path) (ext : string) (done : nat)
  (w : World) :
  let cmd := build_ffmpeg_cmd ffmpeg_bin src dst args in
  let r := subprocess_run env cmd (fs w) (List.length (launched (log w))) in
  dry_run args = false ->
  destination out_dir rel ext = Some dst ->
  too_long dst = false ->
  exists_ (fs w) dst && negb (overwrite args) = false ->
  job_failure (fst r) = true ->
  run_one env args ffmpeg_bin total_jobs out_dir src rel ext done w
  = (Val (done + 1),
     mkWorld (snd r)
       (log w ++ [Print (MsgProgress (done + 1) total_jobs src dst); Exec cmd]
        ++ map Print (failure_report src dst (fst r)))).
Proof.
  intros cmd r Hdry Hd Hl Hskip Hf. unfold run_one. rewrite Hd.
  cbn [or_value_error]. rewrite bind_ret, (bind_val _ _ _ _ _ (path_exists_val dst w Hl)).
  rewrite Hskip. unfold attempt. rewrite Hdry.
  unfold bind, print, run_process, ret, stop. cbn [fs log].
  rewrite launched_print. fold cmd. fold r.
  destruct r as [o fs1]. cbn [fst snd] in *.
  destruct o as [|stderr|x|x|x]; try discriminate; cbn [failure_report map];
    [destruct (truthy stderr)| |]; cbn [fs log]; rewrite <- ?app_assoc; reflexivity.
Qed.

Lemma harmless_bind {A B} (m : M A) (k : A -> M B) :
  calm m ->
  (forall a, (exists w w1, m w = (Val a, w1)) -> harmless (k a)) ->
  harmless (bind m k).
Proof.
  intros Hm Hk w e w' H He. unfold bind in H. pose proof (Hm w) as Hc.
  destruct (m w) as [[a|e1] w1] eqn:E; cbn [snd] in Hc.
  - rewrite <- Hc. eapply Hk; eauto.
  - injection H as <- <-. exact Hc.
Qed.

Lemma calm_print (m : Msg) :
  match m with MsgProgress _ _ _ _ => False | _ => True end -> calm (print m).
Proof.
  intros Hm w. cbn. unfold attempted. rewrite filter_app, length_app.
  destruct m; cbn; try lia; elim Hm.
Qed.

Lemma calm_of_log {A} (m : M A) : preserves (fun w w' => log w' = log w) m -> calm m.
Proof. intros H w. now rewrite (H w). Qed.

Lemma calm_mkdir (p : Path) : calm (mkdir p).
Proof.
  apply calm_of_log, mkdir_log.
Qed.

Lemma harmless_batch_in (env : Env) (args : Args) (ffmpeg_bin : string)
  (in_dir out_dir : Path) :
  never_interrupted env -> harmless (batch_in env args ffmpeg_bin in_dir out_dir).
Proof.
  intros Hn. unfold batch_in.
  apply harmless_bind; [apply calm_mkdir | intros _ _].
  destruct (targets_of (formats args)) as [|t targets] eqn:Et.
  { apply harmless_bind; [now apply calm_print | intros _ _].
    intros w e w' H. injection H as <- <-. now intros []. }
  apply harmless_bind.
  { destruct (telephony args && negb (mem ".wav" (t :: targets)));
      [now apply calm_print | apply calm_of_log; now intros w]. }
  intros _ _. apply harmless_bind; [apply calm_of_log; now intros w | intros fs0 _].
  apply harmless_bind;
    [apply calm_of_log, preserves_or_raise; reflexivity | intros [|a audio] _].
  { apply harmless_bind; [now apply calm_print | intros _ _].
    intros w e w' H. injection H as <- <-. now intros []. }
  apply harmless_bind; [apply calm_of_log, plan_keeps_log | intros total Hplan].
  destruct Hplan as (w0 & w1 & Hplan).
  apply harmless_bind; [now apply calm_print | intros _ _].
  apply harmless_bind; [now apply calm_print | intros _ _].
  destruct total as [|n].
  { apply harmless_bind; [now apply calm_print | intros _ _].
    intros w e w' H. injection H as <- <-. now intros []. }
  intros w e w' H. exfalso.
  destruct (run_jobs_returns env (apply_telephony args) ffmpeg_bin (S n) _ _
              (a :: audio) (t :: targets) Hn (plan_val_inv _ _ _ _ _ _ _ _ Hplan) w)
    as (done & w2 & E).
  unfold bind in H. rewrite E in H. discriminate.
Qed.

Lemma harmless_batch (env : Env) (args : Args) (ffmpeg_bin : string) :
  never_interrupted env -> harmless (batch env args ffmpeg_bin).
Proof.
  intros Hn w e w' H He.
  destruct (batch_cases env args ffmpeg_bin w) as [[E _]|(in_dir & out_dir & _ & _ & E)];
    rewrite E in H.
  - now injection H as _ <-.
  - eapply harmless_batch_in; eassumption.
Qed.

Lemma for_each_agree {A S} (l : list A) (body body' : A -> S -> M S) :
  (forall x s w w', In x l -> same_jobs w w' -> agree (body x s w) (body' x s w')) ->
  forall s w w', same_jobs w w' ->
  agree (for_each l body s w) (for_each l body' s w').
Proof.
  induction l as [|x l IH]; intros Hb s w w' Hw; cbn [for_each].
  - split; [reflexivity | exact Hw].
  - unfold bind. destruct (Hb x s w w' (or_introl eq_refl) Hw) as [Hr Hv].
    destruct (body x s w) as [[s1|e] v], (body' x s w') as [[s1'|e'] v'];
      cbn [fst snd] in *; try discriminate.
    + injection Hr as <-. apply IH; [|exact Hv].
      intros y t u u' Hy. apply Hb. now right.
    + split; [exact Hr | exact Hv].
Qed.

Lemma same_jobs_print (w w' : World) (m m' : Msg) :
  same_jobs w w' ->
  same_jobs (mkWorld (fs w) (log w ++ [Print m])) (mkWorld (fs w') (log w' ++ [Print m'])).
Proof. intros [Hf Hl]. split; cbn; [exact Hf | now rewrite !launched_print]. Qed.

(** Whether a process fails or completes changes the lines its job
    prints and nothing else. *)
Lemma attempt_agree (env env' : Env) (args : Args) (total_jobs : nat) (src dst : Path)
  (cmd : list string) (done : nat) (w w' : World) :
  same_effects env env' -> never_interrupted env -> never_interrupted env' ->
  same_jobs w w' ->
  agree (attempt env args total_jobs src dst cmd done w)
        (attempt env' args total_jobs src dst cmd done w').
Proof.
  intros He Hn Hn' Hw.
  pose proof (same_jobs_print w w' (MsgProgress (done + 1) total_jobs src dst)
                (MsgProgress (done + 1) total_jobs src dst) Hw) as H1.
  unfold attempt, bind, print, run_process, ret, stop.
  destruct (dry_run args).
  { split; [reflexivity|]. now apply same_jobs_print. }
  cbn [fs log]. destruct H1 as [Hf Hl]. cbn [fs log] in Hf, Hl.
  rewrite <- Hf, <- Hl.
  pose proof (He cmd (fs w)
    (List.length (launched (log w ++ [Print (MsgProgress (done + 1) total_jobs src dst)]))))
    as Hfs.
  pose proof (Hn cmd (fs w)
    (List.length (launched (log w ++ [Print (MsgProgress (done + 1) total_jobs src dst)]))))
    as Hi.
  pose proof (Hn' cmd (fs w)
    (List.length (launched (log w ++ [Print (MsgProgress (done + 1) total_jobs src dst)]))))
    as Hi'.
  destruct (subprocess_run env cmd (fs w) _) as [o fs1],
           (subprocess_run env' cmd (fs w) _) as [o' fs1'].
  cbn [fst snd] in *. subst fs1'.
  destruct o as [|e|x|x|x], o' as [|e'|x'|x'|x'];
    try (now elim (Hi x)); try (now elim (Hi' x'));
    repeat match goal with
           | |- context [truthy ?t] => destruct (truthy t)
           end;
    cbn [fst snd fs log]; (split; [reflexivity|]);
    (split; cbn [fst snd fs log]; [reflexivity|]);
    rewrite !launched_app; cbn [launched flat_map app]; rewrite ?app_nil_r;
    now rewrite (proj2 Hw).
Qed.

Lemma run_jobs_agree (env env' : Env) (args : Args) (ffmpeg_bin : string)
  (total_jobs : nat) (in_dir out_dir : Path) (audio_files : list Path)
  (targets : list string) (w w' : World) :
  same_effects env env' -> never_interrupted env -> never_interrupted env' ->
  same_jobs w w' ->
  agree (run_jobs env args ffmpeg_bin total_jobs in_dir out_dir audio_files targets w)
        (run_jobs env' args ffmpeg_bin total_jobs in_dir out_dir audio_files targets w').
Proof.
  intros He Hn Hn' Hw. unfold run_jobs. apply for_each_agree; [|exact Hw].
  intros src n v v' _ Hv.
  destruct (relative_to src in_dir) as [rel|]; cbn [or_value_error];
    [|split; [reflexivity | exact Hv]].
  rewrite !bind_ret.
  apply for_each_agree; [|exact Hv].
  intros ext m u u' _ Hu. unfold run_one.
  destruct (destination out_dir rel ext) as [dst|]; cbn [or_value_error];
    [|split; [reflexivity | exact Hu]].
  rewrite !bind_ret, !bind_path_exists.
  destruct (too_long dst); [split; [reflexivity | exact Hu]|].
  destruct Hu as [Hf Hl]. rewrite <- Hf.
  destruct (exists_ (fs u) dst && negb (overwrite args)).
  - split; [reflexivity | now split].
  - apply attempt_agree; try assumption. now split.
Qed.

(** C9.  In execute mode, a job whose process exits with a non-zero
    status, cannot be launched, or raises another exception is reported
    with its source and its destination (and the captured error text, or
    the note that there is none, or the exception), its iteration ends
    normally, and the loop goes on with the next format from the world
    the failed process left.  The destination of the job is a path that
    the system accepts: the planner has looked at it, and has counted
    only if it is one.  When no process is interrupted from
    outside: the running loop of a plan that was counted runs to its
    end; how the processes end changes nothing but printed lines, so the
    same jobs are attempted with the same commands and the same count
    whether earlier jobs failed or not; and a run that has attempted a
    job ends with exit status 0, whatever the jobs did, since a run can
    only end with another status before its first job. *)
Theorem job_failures_are_contained :
  (forall (env : Env) (args : Args) (ffmpeg_bin : string) (total_jobs : nat)
          (out_dir src rel dst : Path) (ext : string) (rest : list string)
          (done : nat) (w : World),
     let cmd := build_ffmpeg_cmd ffmpeg_bin src dst args in
     let r := subprocess_run env cmd (fs w) (List.length (launched (log w))) in
     let w1 := mkWorld (snd r)
                 (log w ++ [Print (MsgProgress (done + 1) total_jobs src dst); Exec cmd]
                  ++ map Print (failure_report src dst (fst r))) in
     dry_run args = false ->
     destination out_dir rel ext = Some dst ->
     too_long dst = false ->
     exists_ (fs w) dst && negb (overwrite args) = false ->
     job_failure (fst r) = true ->
     run_one env args ffmpeg_bin total_jobs out_dir src rel ext done w
       = (Val (done + 1), w1)
     /\ (exists m, In m (failure_report src dst (fst r))
                   /\ (m = MsgConvertError src dst
                       \/ exists x, m = MsgUnexpected src dst x))
     /\ for_each (ext :: rest)
          (run_one env args ffmpeg_bin total_jobs out_dir src rel) done w
        = for_each rest
            (run_one env args ffmpeg_bin total_jobs out_dir src rel) (done + 1) w1)
  /\ (forall (env : Env) (args : Args) (ffmpeg_bin : string) (total_jobs n : nat)
             (in_dir out_dir : Path) (audio_files : list Path)
             (targets : list string) (w0 w1 w : World),
        never_interrupted env ->
        plan args in_dir out_dir audio_files targets w0 = (Val n, w1) ->
        exists done w',
          run_jobs env args ffmpeg_bin total_jobs in_dir out_dir audio_files targets w
          = (Val done, w'))
  /\ (forall (env env' : Env) (args : Args) (ffmpeg_bin : string) (total_jobs : nat)
             (in_dir out_dir : Path) (audio_files : list Path)
             (targets : list string) (w : World),
        same_effects env env' -> never_interrupted env -> never_interrupted env' ->
        agree
          (run_jobs env args ffmpeg_bin total_jobs in_dir out_dir audio_files targets w)
          (run_jobs env' args ffmpeg_bin total_jobs in_dir out_dir audio_files targets w))
  /\ (forall (env : Env) (args : Args) (w : World),
        never_interrupted env ->
        exit_status (fst (run_main env args w)) <> 0%Z ->
        attempted (log (snd (run_main env args w))) = attempted (log w)).
Proof.
  split; [|split; [|split]].
  - intros env args bin total out_dir src rel dst ext rest done w cmd r w1
      Hdry Hd Hl Hskip Hf.
    pose proof (run_one_failure env args bin total out_dir src rel dst ext done w
                  Hdry Hd Hl Hskip Hf) as E.
    fold cmd in E. fold r in E. fold w1 in E.
    split; [exact E|]. split.
    + destruct (fst r) as [|stderr|x|x|x]; try discriminate; cbn [failure_report];
        eexists; (split; [now left|]); eauto.
    + cbn [for_each]. now rewrite (bind_val _ _ _ _ _ E).
  - intros env args bin total n in_dir out_dir audio targets w0 w1 w Hn Hp.
    apply run_jobs_returns; [exact Hn|].
    exact (plan_val_inv _ _ _ _ _ _ _ _ Hp).
  - intros env env' args bin total in_dir out_dir audio targets w He Hn Hn'.
    apply run_jobs_agree; try assumption. now split.
  - intros env args w Hn He.
    destruct (run_main_cases env args w) as [(e & _ & E)|[bin [_ [(e & _ & E)|E]]]];
      rewrite E in *; cbn [fst snd] in *.
    + reflexivity.
    + unfold probed, attempted. cbn [log]. rewrite filter_app, length_app. cbn. lia.
    + pose proof (harmless_batch env args bin Hn (probed env bin w)) as Hb.
      destruct (batch env args bin (probed env bin w)) as [[[]|e] w2];
        cbn [ending_of fst snd] in *; [now elim He|].
      rewrite (Hb e w2 eq_refl He).
      unfold probed, attempted. cbn [log]. rewrite filter_app, length_app. cbn. lia.
Qed.

(** Every process fails: the first job reports itself and counts, and a
    run that the failing probe ends has attempted nothing. *)
Lemma job_failures_are_contained_witness :
  (let src := of_str "/in/a.mp3" in
   let dst := of_str "/out/wav/a.wav" in
   let args := Examples.cli "wav,flac" true false in
   run_one Examples.env_failing args "ffmpeg" 4 (of_str "/out") src (of_str "a.mp3")
           ".wav" 0 (mkWorld Examples.music [])
   = (Val 1,
      mkWorld Examples.music
        [Print (MsgProgress 1 4 src dst);
         Exec (build_ffmpeg_cmd "ffmpeg" src dst args);
         Print (MsgConvertError src dst); Print (MsgFfmpegSays "boom")]))
  /\ attempted (log (snd (run_main Examples.env_failing
                            (Examples.cli "wav,flac" true false)
                            (mkWorld Examples.music [])))) = 0.
Proof.
  destruct job_failures_are_contained as (HA & _ & _ & HC). split.
  - exact (proj1 (HA Examples.env_failing (Examples.cli "wav,flac" true false)
                    "ffmpeg" 4 (of_str "/out") (of_str "/in/a.mp3") (of_str "a.mp3")
                    (of_str "/out/wav/a.wav") ".wav" [".flac"] 0
                    (mkWorld Examples.music []) eq_refl eq_refl eq_refl eq_refl
                    eq_refl)).
  - apply (HC Examples.env_failing (Examples.cli "wav,flac" true false)
              (mkWorld Examples.music [])).
    + intros cmd fs n r. discriminate.
    + vm_compute. discriminate.
Defined.

(* ================================================================== *)
(** * Where the script departs from its specification *)
(* ================================================================== *)

(** C2 at [--formats ","].  The format list is empty; the script prints
    its error line and [main] returns, so the exit status is 0, not the
    non-zero status the specification asks for.  No job is planned or
    attempted. *)
Theorem empty_formats_exit_status_zero :
  let r := run_main (Examples.env_with Completed) (Examples.cli "," false false)
             (mkWorld Examples.music []) in
  targets_of "," = []
  /\ fst r = Returned
  /\ exit_status (fst r) = 0%Z
  /\ log (snd r) = [Exec ["/usr/bin/ffmpeg"; "-version"]; Print MsgNoFormats].
Proof. vm_compute. repeat split. Qed.

(** C8 at two inputs.  A dry run without [--overwrite] over [a.mp3] and
    a directory [a.wav] holding [b.mp3] announces two tasks and attempts
    one: counting created the directory [wav/a.wav], and the running loop
    takes it for an existing destination of [a.mp3].  A real run without
    [--overwrite] over [a.mp3] and [a.wav] to flac announces two tasks
    and attempts one: the first job writes [flac/a.flac], and the running
    loop takes it for an existing destination of the second. *)
Theorem announced_jobs_not_all_attempted :
  (let r := run_main (Examples.env_with Completed) (Examples.cli "wav" false true)
              (mkWorld Examples.nested []) in
   fst r = Returned /\ announced (log (snd r)) = [2] /\ attempted (log (snd r)) = 1)
  /\ (let r := run_main (Examples.env_with Completed) (Examples.cli "flac" false false)
                 (mkWorld Examples.twins []) in
      fst r = Returned /\ announced (log (snd r)) = [2] /\ attempted (log (snd r)) = 1).
Proof. vm_compute. repeat split. Qed.

(* ================================================================== *)
(** * The command as FFmpeg reads it *)
(* ================================================================== *)

Lemma option_values_flag (opt a : string) (rest : list string) :
  takes_value a = false -> option_values opt (a :: rest) = option_values opt rest.
Proof. intros H. cbn [option_values]. now rewrite H. Qed.

Lemma standalone_value (a v : string) (rest : list string) :
  takes_value a = true -> standalone (a :: v :: rest) = standalone rest.
Proof. intros H. cbn [standalone]. now rewrite H. Qed.

Lemma standalone_flag (a : string) (rest : list string) :
  takes_value a = false -> standalone (a :: rest) = a :: standalone rest.
Proof. intros H. cbn [standalone]. now rewrite H. Qed.

Section Anatomy.

Variables (ffmpeg_bin : string) (src dst : Path) (args : Args).

(** The arguments after the executable. *)
Lemma build_ffmpeg_cmd_tl :
  tl (build_ffmpeg_cmd ffmpeg_bin src dst args) =
  "-hide_banner" :: "-loglevel" :: "error"
  :: (if overwrite args then "-y" else "-n") :: "-i" :: to_str src
  :: (if normalize args
      then "-af" :: "loudnorm=I=-16:LRA=11:TP=-1.5:linear=true" :: (after_input dst args)
      else (after_input dst args)).
Proof. rewrite build_ffmpeg_cmd_shape. unfold after_input. now destruct (normalize args). Qed.

Lemma option_values_head (opt : string) :
  option_values opt (tl (build_ffmpeg_cmd ffmpeg_bin src dst args)) =
  (if ("-loglevel" =? opt)%string then ["error"] else [])
  ++ (if ("-i" =? opt)%string then [to_str src] else [])
  ++ (if normalize args
      then (if ("-af" =? opt)%string
            then ["loudnorm=I=-16:LRA=11:TP=-1.5:linear=true"] else [])
      else [])
  ++ option_values opt (after_input dst args).
Proof.
  rewrite build_ffmpeg_cmd_tl.
  rewrite option_values_flag by reflexivity.
  rewrite option_values_value by reflexivity.
  rewrite option_values_flag by (now destruct (overwrite args)).
  rewrite option_values_value by reflexivity.
  destruct (normalize args); [|reflexivity].
  now rewrite option_values_value by reflexivity.
Qed.

Lemma option_values_bitrate_opt (opt : string) (rest : list string) :
  opt <> "-b:a" ->
  option_values opt (bitrate_opt args ++ rest) = option_values opt rest.
Proof.
  intros H. unfold bitrate_opt.
  assert (E : ("-b:a" =? opt)%string = false) by (apply String.eqb_neq; congruence).
  destruct (bitrate args) as [b|]; [destruct (truthy b)|]; cbn [app];
    rewrite ?option_values_value by reflexivity; now rewrite ?E.
Qed.

(** The codec section, in its two shapes. *)
Lemma codec_args_cases (ext : string) :
  (exists enc, codec_args ext args = ["-c:a"; enc] ++ bitrate_opt args)
  \/ (exists enc, codec_args ext args = ["-c:a"; enc])
  \/ codec_args ext args = bitrate_opt args.
Proof.
  unfold codec_args.
  repeat match goal with
         | |- context [if ?b then _ else _] => destruct b
         end; eauto.
Qed.

Lemma option_values_codec (opt : string) (ext : string) (rest : list string) :
  opt <> "-c:a" -> opt <> "-b:a" ->
  option_values opt (codec_args ext args ++ rest) = option_values opt rest.
Proof.
  intros Hc Hb.
  assert (E : ("-c:a" =? opt)%string = false) by (apply String.eqb_neq; congruence).
  destruct (codec_args_cases ext) as [[enc ->]|[[enc ->]| ->]].
  - rewrite <- app_assoc. cbn [app]. rewrite option_values_value by reflexivity.
    rewrite E. now apply option_values_bitrate_opt.
  - cbn [app]. rewrite option_values_value by reflexivity. now rewrite E.
  - now apply option_values_bitrate_opt.
Qed.

Lemma option_values_rates :
  option_values "-ar" (rate_args args ++ [to_str dst])
  = (if truthy_int (samplerate args)
     then [str_int (match samplerate args with Some z => z | None => 0%Z end)]
     else [])
  /\ option_values "-ac" (rate_args args ++ [to_str dst])
     = (if truthy_int (channels args)
        then [str_int (match channels args with Some z => z | None => 0%Z end)]
        else []).
Proof.
  unfold rate_args.
  destruct (truthy_int (samplerate args)), (truthy_int (channels args));
    cbn [app]; rewrite ?option_values_value by reflexivity;
    rewrite !option_values_last; split; reflexivity.
Qed.

(** The sample-rate and channel arguments of a built command. *)
Lemma rate_arguments_build :
  option_values "-ar" (tl (build_ffmpeg_cmd ffmpeg_bin src dst args))
  = (if truthy_int (samplerate args)
     then [str_int (match samplerate args with Some z => z | None => 0%Z end)]
     else [])
  /\ option_values "-ac" (tl (build_ffmpeg_cmd ffmpeg_bin src dst args))
     = (if truthy_int (channels args)
        then [str_int (match channels args with Some z => z | None => 0%Z end)]
        else []).
Proof.
  rewrite !option_values_head. unfold after_input.
  rewrite !option_values_codec by discriminate.
  destruct option_values_rates as [-> ->].
  destruct (normalize args); split; reflexivity.
Qed.

Lemma standalone_tail :
  takes_value (to_str dst) = false ->
  standalone (after_input dst args) = [to_str dst].
Proof.
  intros Hd. unfold after_input.
  assert (Hr : standalone (rate_args args ++ [to_str dst]) = [to_str dst]).
  { unfold rate_args.
    destruct (truthy_int (samplerate args)), (truthy_int (channels args));
      cbn [app]; rewrite ?standalone_value by reflexivity;
      now rewrite standalone_flag by assumption. }
  assert (Hb : forall rest, standalone (bitrate_opt args ++ rest) = standalone rest).
  { intros rest. unfold bitrate_opt.
    destruct (bitrate args) as [b|]; [destruct (truthy b)|]; cbn [app];
      now rewrite ?standalone_value by reflexivity. }
  destruct (codec_args_cases (lower (suffix dst))) as [[enc ->]|[[enc ->]| ->]].
  - rewrite <- app_assoc. cbn [app]. rewrite standalone_value by reflexivity.
    now rewrite Hb.
  - cbn [app]. now rewrite standalone_value by reflexivity.
  - now rewrite Hb.
Qed.

End Anatomy.

Lemma to_str_absolute (p : Path) : root p = "/" -> takes_value (to_str p) = false.
Proof. unfold to_str. intros ->. reflexivity. Qed.

(** X1.  Whatever the destination's extension, the built command tells
    FFmpeg the sample rate exactly when the option holds a number other
    than 0, and then as that number in decimal; and likewise the channel
    count.  A rate or a count of 0 is dropped like a missing one. *)
Theorem rates_reach_the_command
  (ffmpeg_bin : string) (src dst : Path) (args : Args) :
  option_values "-ar" (tl (build_ffmpeg_cmd ffmpeg_bin src dst args))
  = match samplerate args with
    | Some r => if (r =? 0)%Z then [] else [str_int r]
    | None => []
    end
  /\ option_values "-ac" (tl (build_ffmpeg_cmd ffmpeg_bin src dst args))
     = match channels args with
       | Some c => if (c =? 0)%Z then [] else [str_int c]
       | None => []
       end.
Proof.
  destruct (rate_arguments_build ffmpeg_bin src dst args) as [-> ->].
  unfold truthy_int.
  destruct (samplerate args) as [r|], (channels args) as [c|];
    try destruct (r =? 0)%Z; try destruct (c =? 0)%Z; split; reflexivity.
Qed.

Lemma encoder_arguments (dst : Path) (args : Args) (enc : string) :
  option_values "-c:a" ((["-c:a"; enc] ++ bitrate_opt args)
                        ++ rate_args args ++ [to_str dst]) = [enc]
  /\ option_values "-c:a" (["-c:a"; enc] ++ rate_args args ++ [to_str dst]) = [enc]
  /\ option_values "-c:a" (bitrate_opt args ++ rate_args args ++ [to_str dst]) = [].
Proof.
  assert (Hb : option_values "-c:a" (bitrate_opt args ++ rate_args args ++ [to_str dst])
               = []).
  { rewrite option_values_bitrate_opt by discriminate.
    apply option_values_rate_tail; discriminate. }
  repeat split.
  - rewrite <- app_assoc. cbn [app]. rewrite option_values_value by reflexivity.
    now rewrite Hb.
  - cbn [app]. rewrite option_values_value by reflexivity.
    now rewrite option_values_rate_tail by discriminate.
  - exact Hb.
Qed.

(** X2.  The encoder that FFmpeg is told depends on nothing but the
    destination's extension, up to case: libmp3lame for mp3, aac for aac
    and m4a, libopus for opus, libvorbis for ogg, flac for flac,
    pcm_s16le for wav, aiff and aif; for every other extension the
    command names no encoder at all. *)
Theorem encoder_by_extension
  (ffmpeg_bin : string) (src dst : Path) (args : Args) :
  let ext := lower (suffix dst) in
  let enc := option_values "-c:a" (tl (build_ffmpeg_cmd ffmpeg_bin src dst args)) in
  (ext = ".mp3" -> enc = ["libmp3lame"])
  /\ (ext = ".aac" \/ ext = ".m4a" -> enc = ["aac"])
  /\ (ext = ".opus" -> enc = ["libopus"])
  /\ (ext = ".ogg" -> enc = ["libvorbis"])
  /\ (ext = ".flac" -> enc = ["flac"])
  /\ (ext = ".wav" \/ ext = ".aiff" \/ ext = ".aif" -> enc = ["pcm_s16le"])
  /\ (mem ext known_exts = false -> enc = []).
Proof.
  intros ext enc. subst enc. rewrite option_values_head.
  assert (Hn : forall x : list string,
             (if normalize args then ([] : list string) else []) ++ x = x)
    by (intros x; now destruct (normalize args)).
  change (("-loglevel" =? "-c:a")%string) with false.
  change (("-i" =? "-c:a")%string) with false.
  change (("-af" =? "-c:a")%string) with false.
  cbn [app]. rewrite Hn. unfold after_input. fold ext.
  destruct (encoder_arguments dst args "libmp3lame") as (A1 & _ & _).
  destruct (encoder_arguments dst args "aac") as (A2 & _ & _).
  destruct (encoder_arguments dst args "libopus") as (A3 & _ & _).
  destruct (encoder_arguments dst args "libvorbis") as (A4 & _ & _).
  destruct (encoder_arguments dst args "flac") as (_ & A5 & _).
  destruct (encoder_arguments dst args "pcm_s16le") as (_ & A6 & A7).
  repeat split.
  - intros ->. exact A1.
  - intros [-> | ->]; exact A2.
  - intros ->. exact A3.
  - intros ->. exact A4.
  - intros ->. exact A5.
  - intros [-> | [-> | ->]]; exact A6.
  - intros H. unfold mem, known_exts in H. cbn [existsb] in H.
    repeat (apply orb_false_iff in H as [? H]).
    unfold codec_args, mem. cbn [existsb].
    repeat match goal with
           | E : (_ =? _)%string = false |- _ => rewrite E; clear E
           end.
    cbn [orb]. exact A7.
Qed.

(** An upper-case MP3 gets libmp3lame; a destination without a known
    extension gets no encoder. *)
Lemma encoder_by_extension_witness :
  option_values "-c:a"
    (tl (build_ffmpeg_cmd "ffmpeg" (of_str "/in/a.wav") (of_str "/out/mp3/a.MP3")
           (Examples.cli "mp3" false false))) = ["libmp3lame"]
  /\ option_values "-c:a"
       (tl (build_ffmpeg_cmd "ffmpeg" (of_str "/in/a.wav") (of_str "/out/x/a.xyz")
              (Examples.cli "xyz" false false))) = [].
Proof.
  split.
  - exact (proj1 (encoder_by_extension "ffmpeg" (of_str "/in/a.wav")
                    (of_str "/out/mp3/a.MP3") (Examples.cli "mp3" false false))
                 eq_refl).
  - pose proof (encoder_by_extension "ffmpeg" (of_str "/in/a.wav")
                  (of_str "/out/x/a.xyz") (Examples.cli "xyz" false false))
      as (_ & _ & _ & _ & _ & _ & H).
    exact (H eq_refl).
Defined.

(** X3.  FFmpeg reads a built command as follows: the first element is
    the executable; the one input is the source, taken as the value of
    [-i] whatever its name looks like; the log level is [error]; the
    loudness filter is there exactly with [--normalize]; the last element
    is the destination; and, for a destination under the root, what
    stands alone is [-hide_banner], then [-y] with [--overwrite] and [-n]
    without it, then the destination as the one output. *)
Theorem command_anatomy
  (ffmpeg_bin : string) (src dst : Path) (args : Args) :
  let cmd := build_ffmpeg_cmd ffmpeg_bin src dst args in
  hd "" cmd = ffmpeg_bin
  /\ option_values "-i" (tl cmd) = [to_str src]
  /\ option_values "-loglevel" (tl cmd) = ["error"]
  /\ option_values "-af" (tl cmd)
     = (if normalize args then ["loudnorm=I=-16:LRA=11:TP=-1.5:linear=true"] else [])
  /\ last cmd "" = to_str dst
  /\ (root dst = "/" ->
      standalone (tl cmd)
      = ["-hide_banner"; if overwrite args then "-y" else "-n"; to_str dst]).
Proof.
  intros cmd. subst cmd.
  assert (Ht : forall opt, opt <> "-c:a" -> opt <> "-b:a" -> opt <> "-ar" -> opt <> "-ac" ->
                           option_values opt (after_input dst args) = []).
  { intros opt H1 H2 H3 H4. unfold after_input.
    rewrite option_values_codec by assumption.
    now apply option_values_rate_tail. }
  split; [now rewrite build_ffmpeg_cmd_shape|].
  rewrite !option_values_head.
  rewrite !Ht by discriminate.
  repeat split.
  - destruct (normalize args); reflexivity.
  - destruct (normalize args); reflexivity.
  - destruct (normalize args); reflexivity.
  - rewrite build_ffmpeg_cmd_shape, !app_assoc. apply last_last.
  - intros Hr. rewrite build_ffmpeg_cmd_tl.
    pose proof (standalone_tail dst args (to_str_absolute dst Hr)) as Hs.
    rewrite standalone_flag by reflexivity.
    rewrite standalone_value by reflexivity.
    rewrite standalone_flag by (now destruct (overwrite args)).
    rewrite standalone_value by reflexivity.
    destruct (normalize args);
      [rewrite standalone_value by reflexivity|]; now rewrite Hs.
Qed.

(** A source named like an option is still the input. *)
Lemma command_anatomy_witness :
  standalone
    (tl (build_ffmpeg_cmd "ffmpeg" (of_str "-b:a") (of_str "/out/wav/-b:a.wav")
           (Examples.cli "wav" true false)))
  = ["-hide_banner"; "-y"; "/out/wav/-b:a.wav"].
Proof.
  pose proof (command_anatomy "ffmpeg" (of_str "-b:a") (of_str "/out/wav/-b:a.wav")
                (Examples.cli "wav" true false)) as (_ & _ & _ & _ & _ & H).
  exact (H eq_refl).
Defined.

(** X4.  With [--telephony] and no rate or channel count of the user's,
    every built command carries [-ar 8000] and [-ac 1], whatever the
    format; a rate or count the user gave reaches the command instead,
    and an explicit 0 keeps the preset away and puts no argument at
    all. *)
Theorem telephony_reaches_the_command
  (ffmpeg_bin : string) (src dst : Path) (args : Args) :
  telephony args = true ->
  let cmd := build_ffmpeg_cmd ffmpeg_bin src dst (apply_telephony args) in
  (samplerate args = None -> option_values "-ar" (tl cmd) = ["8000"])
  /\ (channels args = None -> option_values "-ac" (tl cmd) = ["1"])
  /\ (forall r, samplerate args = Some r ->
        option_values "-ar" (tl cmd) = if (r =? 0)%Z then [] else [str_int r])
  /\ (forall c, channels args = Some c ->
        option_values "-ac" (tl cmd) = if (c =? 0)%Z then [] else [str_int c]).
Proof.
  intros Ht cmd. subst cmd.
  destruct (rate_arguments_build ffmpeg_bin src dst (apply_telephony args)) as [-> ->].
  unfold apply_telephony. rewrite Ht. cbn [samplerate channels]. unfold truthy_int.
  repeat split.
  - intros ->. reflexivity.
  - intros ->. reflexivity.
  - intros r ->. now destruct (r =? 0)%Z.
  - intros c ->. now destruct (c =? 0)%Z.
Qed.

(** [--telephony] alone, to mp3. *)
Lemma telephony_reaches_the_command_witness :
  option_values "-ar"
    (tl (build_ffmpeg_cmd "ffmpeg" (of_str "/in/a.wav") (of_str "/out/mp3/a.mp3")
           (apply_telephony
              (mkArgs "/in" "/out" "mp3" None None None false false false None true))))
  = ["8000"].
Proof.
  exact (proj1 (telephony_reaches_the_command "ffmpeg" (of_str "/in/a.wav")
                  (of_str "/out/mp3/a.mp3")
                  (mkArgs "/in" "/out" "mp3" None None None false false false None true)
                  eq_refl) eq_refl).
Defined.

(* ================================================================== *)
(** * The locator and the ways a run ends *)
(* ================================================================== *)



(** X6.  Without [--ffmpeg], and with an empty one, the locator answers
    with what the search path gives for the platform's executable name,
    and ends the run with the installation hints when it gives nothing;
    the file system is not looked at. *)
Theorem ffmpeg_from_search_path (env : Env) (w : World) :
  resolve_ffmpeg env (Some "") w = resolve_ffmpeg env None w
  /\ snd (resolve_ffmpeg env None w) = w
  /\ (forall found, which env (exe_name env) = Some found -> truthy found = true ->
        fst (resolve_ffmpeg env None w) = Val found)
  /\ (which env (exe_name env) = None \/ which env (exe_name env) = Some "" ->
        fst (resolve_ffmpeg env None w) = Stop (SysExit FfmpegNotInstalled))
  /\ (forall w2, fst (resolve_ffmpeg env None w2) = fst (resolve_ffmpeg env None w)).
Proof.
  unfold resolve_ffmpeg, ret, stop.
  repeat split.
  - now destruct (which env (exe_name env)) as [[|x f]|].
  - intros found -> Ht. now destruct found.
  - intros [-> | ->]; reflexivity.
  - intros w2. now destruct (which env (exe_name env)) as [[|x f]|].
Qed.

(** The search path of the examples knows FFmpeg. *)
Lemma ffmpeg_from_search_path_witness :
  fst (resolve_ffmpeg (Examples.env_with Completed) None (mkWorld Examples.music []))
  = Val "/usr/bin/ffmpeg".
Proof.
  pose proof (ffmpeg_from_search_path (Examples.env_with Completed)
                (mkWorld Examples.music [])) as (_ & _ & H & _).
  exact (H "/usr/bin/ffmpeg" eq_refl eq_refl).
Defined.

(** X7.  The probe launches one process, the executable with
    [-version], and prints nothing.  It lets the run go on exactly when
    that process completes; a missing executable and a non-zero exit end
    the run with their messages, and any other exception of the launch
    escapes uncaught: each of these endings has exit status 1.  An
    interruption of the probe escapes too, and ends the process by its
    signal, status -2. *)
Theorem probe_outcomes (env : Env) (ffmpeg_bin : string) (w : World) :
  let o := fst (subprocess_run env [ffmpeg_bin; "-version"] (fs w)
                  (List.length (launched (log w)))) in
  let r := check_ffmpeg_available env ffmpeg_bin w in
  snd r = probed env ffmpeg_bin w
  /\ (fst r = Val tt <-> o = Completed)
  /\ (forall x, o = NotFound x -> fst r = Stop (SysExit (FfmpegCannotRun ffmpeg_bin)))
  /\ (forall x, o = NonZeroExit x -> fst r = Stop (SysExit (FfmpegCorrupt ffmpeg_bin)))
  /\ (forall x, o = OtherException x -> fst r = Stop (Uncaught (ProcException x)))
  /\ (forall x, o = Interrupted x -> fst r = Stop (Uncaught (BaseException x)))
  /\ (forall e, fst r = Stop e ->
        exit_status e = if interrupted o then (-2)%Z else 1%Z).
Proof.
  intros o r. subst o r.
  split; [apply check_ffmpeg_world|].
  unfold check_ffmpeg_available, bind, run_process, ret, stop.
  destruct (subprocess_run env [ffmpeg_bin; "-version"] (fs w) _) as [o fs1].
  cbn [fst]. destruct o; cbn [fst interrupted];
    repeat split; intros; try discriminate; try reflexivity; try congruence.
  all: match goal with H : Stop _ = Stop _ |- _ => injection H as <-; reflexivity end.
Qed.

(** A probe that exits with a non-zero status. *)
Lemma probe_outcomes_witness :
  fst (check_ffmpeg_available Examples.env_failing "ffmpeg" (mkWorld Examples.music []))
  = Stop (SysExit (FfmpegCorrupt "ffmpeg")).
Proof.
  pose proof (probe_outcomes Examples.env_failing "ffmpeg" (mkWorld Examples.music []))
    as (_ & _ & _ & H & _).
  exact (H "boom" eq_refl).
Defined.


Lemma mkdir_rev_error (r : string) (rp : list string) (fs fs' : FS) (e : Exn) :
  mkdir_rev fs r rp = inl (e, fs') ->
  e = FileExistsError \/ e = NotADirectoryError \/ e = OSError.
Proof.
  revert fs'. induction rp as [|x up IH]; intros fs'; cbn [mkdir_rev].
  - destruct (kind_of fs (mkPath r (rev []))) as [[|]|]; intros [= <- <-]; auto.
  - destruct (kind_of fs (mkPath r (rev (x :: up)))) as [[|]|];
      try (intros [= <- <-]; now auto); try discriminate.
    destruct (kind_of fs (mkPath r (rev up))) as [[|]|];
      try (intros [= <- <-]; now auto); try discriminate.
    + destruct (name_too_long x); [intros [= <- <-]; auto | discriminate].
    + destruct (mkdir_rev fs r up) as [[e' fs1]|fs1].
      * intros [= <- <-]. now apply (IH fs1).
      * destruct (name_too_long x); [intros [= <- <-]; auto | discriminate].
Qed.

Section StopsWith.

Variable P : Ending -> Prop.

Lemma stops_with_ret {A} (a : A) : stops_with P (ret a).
Proof. intros w e w' H. discriminate. Qed.

Lemma stops_with_print (m : Msg) : stops_with P (print m).
Proof. intros w e w' H. discriminate. Qed.

Lemma stops_with_get_fs : stops_with P get_fs.
Proof. intros w e w' H. discriminate. Qed.

Lemma stops_with_stop {A} (e : Ending) : P e -> stops_with P (@stop A e).
Proof. intros He w e' w' H. now injection H as <- _. Qed.

Lemma stops_with_bind {A B} (m : M A) (k : A -> M B) :
  stops_with P m -> (forall a, stops_with P (k a)) -> stops_with P (bind m k).
Proof.
  intros Hm Hk w e w' H. unfold bind in H.
  destruct (m w) as [[a|e1] w1] eqn:E.
  - eapply Hk, H.
  - injection H as <- <-. eapply Hm, E.
Qed.

Lemma stops_with_for_each {A S} (l : list A) (body : A -> S -> M S) :
  (forall x s, stops_with P (body x s)) -> forall s, stops_with P (for_each l body s).
Proof.
  intros Hb. induction l as [|x l IH]; intros s; cbn [for_each].
  - apply stops_with_ret.
  - apply stops_with_bind; [apply Hb | exact IH].
Qed.

End StopsWith.

Lemma stops_with_mkdir (p : Path) : stops_with batch_ending (mkdir p).
Proof.
  intros w e w' H. unfold mkdir, mkdir_parents in H.
  destruct (PATH_MAX <=? encoded_length (to_str p))%nat;
    [injection H as <- _; exact I|].
  destruct (mkdir_rev (fs w) (root p) (rev (parts p))) as [[x fs']|fs'] eqn:E;
    [|discriminate].
  injection H as <- _. now destruct (mkdir_rev_error _ _ _ _ _ E) as [-> | [-> | ->]].
Qed.

Lemma stops_with_or_value_error {A} (o : option A) :
  stops_with batch_ending (or_value_error o).
Proof.
  destruct o; [apply stops_with_ret | now apply stops_with_stop].
Qed.

Lemma stops_with_or_raise {A} (e : Exn) (o : option A) :
  batch_ending (Uncaught e) -> stops_with batch_ending (or_raise e o).
Proof.
  intros He. destruct o; [apply stops_with_ret | now apply stops_with_stop].
Qed.

Lemma stops_with_path_exists (p : Path) : stops_with batch_ending (path_exists p).
Proof.
  intros w e w' H. unfold path_exists in H.
  destruct (too_long p); [injection H as <- _; exact I | discriminate].
Qed.

Lemma stops_with_attempt (env : Env) (args : Args) (total_jobs : nat) (src dst : Path)
  (cmd : list string) (done : nat) :
  stops_with batch_ending (attempt env args total_jobs src dst cmd done).
Proof.
  unfold attempt.
  apply stops_with_bind; [apply stops_with_print | intros _].
  apply stops_with_bind; [|intros _; apply stops_with_ret].
  destruct (dry_run args); [apply stops_with_print|].
  apply stops_with_bind; [intros w e w' H; unfold run_process in H;
                          destruct (subprocess_run env cmd (fs w) _); discriminate|].
  intros [|stderr|x|x|x]; try apply stops_with_ret; try apply stops_with_print.
  - apply stops_with_bind; [apply stops_with_print | intros _].
    destruct (truthy stderr); apply stops_with_print.
  - now apply stops_with_stop.
Qed.

(** The batch ends early only by a [return], a [RuntimeError], a
    [ValueError], an error of [mkdir] or of a look at the file system, or
    an interruption. *)
Lemma stops_with_batch_in (env : Env) (args : Args) (ffmpeg_bin : string)
  (in_dir out_dir : Path) :
  stops_with batch_ending (batch_in env args ffmpeg_bin in_dir out_dir).
Proof.
  unfold batch_in.
  apply stops_with_bind; [apply stops_with_mkdir | intros _].
  destruct (targets_of (formats args)) as [|t targets].
  { apply stops_with_bind; [apply stops_with_print | intros _].
    now apply stops_with_stop. }
  apply stops_with_bind.
  { destruct (telephony args && negb (mem ".wav" (t :: targets)));
      [apply stops_with_print | apply stops_with_ret]. }
  intros _. apply stops_with_bind; [apply stops_with_get_fs | intros fs0].
  apply stops_with_bind; [now apply stops_with_or_raise | intros [|a audio]].
  { apply stops_with_bind; [apply stops_with_print | intros _].
    now apply stops_with_stop. }
  apply stops_with_bind.
  { unfold plan. apply stops_with_for_each. intros src n.
    apply stops_with_bind; [apply stops_with_or_value_error | intros rel].
    apply stops_with_for_each. intros ext m. unfold plan_one.
    apply stops_with_bind; [apply stops_with_or_value_error | intros dst].
    apply stops_with_bind; [apply stops_with_mkdir | intros _].
    apply stops_with_bind; [apply stops_with_path_exists | intros there].
    destruct (there && negb (overwrite (apply_telephony args)));
      apply stops_with_ret. }
  intros total.
  apply stops_with_bind; [apply stops_with_print | intros _].
  apply stops_with_bind; [apply stops_with_print | intros _].
  destruct total as [|n].
  { apply stops_with_bind; [apply stops_with_print | intros _].
    now apply stops_with_stop. }
  apply stops_with_bind; [|intros _; apply stops_with_print].
  unfold run_jobs. apply stops_with_for_each. intros src d.
  apply stops_with_bind; [apply stops_with_or_value_error | intros rel].
  apply stops_with_for_each. intros ext m. unfold run_one.
  apply stops_with_bind; [apply stops_with_or_value_error | intros dst].
  apply stops_with_bind; [apply stops_with_path_exists | intros there].
  destruct (there && negb (overwrite (apply_telephony args)));
    [apply stops_with_ret | apply stops_with_attempt].
Qed.

Lemma stops_with_batch (env : Env) (args : Args) (ffmpeg_bin : string) :
  stops_with batch_ending (batch env args ffmpeg_bin).
Proof.
  unfold batch.
  apply stops_with_bind; [now apply stops_with_or_raise | intros in_dir].
  apply stops_with_bind; [now apply stops_with_or_raise | intros out_dir].
  apply stops_with_batch_in.
Qed.

(** X8.  A run ends in one of three places.  In the locator: with one
    of its two messages, or the [RuntimeError] of [expanduser], or the
    [OSError] of a path that is too long, and the world is as it was.  At
    the probe: with one of its two messages, an exception of the launch
    or an interruption, and nothing has happened but the launch of the
    probe.  Or in the batch, after the probe: by returning, by a
    [RuntimeError], a [ValueError], an error of [mkdir] or of a look at
    the file system, or an interruption, and never through [sys.exit] or
    with an exception of a process launch. *)
Theorem fatal_endings_come_first (env : Env) (args : Args) (w : World) :
  let r := run_main env args w in
  (exists e, locator_ending e /\ r = (e, w))
  \/ exists ffmpeg_bin,
       fst (resolve_ffmpeg env (ffmpeg args) w) = Val ffmpeg_bin
       /\ ((exists e, probe_ending e /\ r = (e, probed env ffmpeg_bin w))
           \/ (r = ending_of (batch env args ffmpeg_bin (probed env ffmpeg_bin w))
               /\ batch_ending (fst r)
               /\ (forall m, fst r <> SysExit m)
               /\ (forall x, fst r <> Uncaught (ProcException x)))).
Proof.
  cbv zeta.
  destruct (run_main_cases env args w) as [H|[bin [Hb [H|E]]]];
    [now left | right; exists bin; split; [exact Hb | now left] |].
  right. exists bin. split; [exact Hb|]. right. split; [exact E|].
  rewrite E.
  pose proof (stops_with_batch env args bin (probed env bin w)) as Hs.
  destruct (batch env args bin (probed env bin w)) as [[[]|e] w2];
    cbn [ending_of fst].
  - repeat split; discriminate.
  - specialize (Hs e w2 eq_refl). split; [exact Hs|].
    split; intros x ->; exact Hs.
Qed.

(* ================================================================== *)
(** * What the running loop prints and launches *)
(* ================================================================== *)

Lemma progress_numbers_app (l l' : list Event) :
  progress_numbers (l ++ l') = progress_numbers l ++ progress_numbers l'.
Proof. unfold progress_numbers. apply flat_map_app. Qed.

(** One attempt: one progress line with the next number, then one launch
    in a real run and none in a dry run. *)
Lemma attempt_log (env : Env) (args : Args) (total_jobs : nat) (src dst : Path)
  (cmd : list string) (done : nat) (w : World) :
  let r := attempt env args total_jobs src dst cmd done w in
  (exists extra,
     log (snd r) = log w ++ Print (MsgProgress (done + 1) total_jobs src dst) :: extra
     /\ progress_numbers extra = []
     /\ launched extra = (if dry_run args then [] else [cmd]))
  /\ (forall d, fst r = Val d -> d = done + 1).
Proof.
  cbv zeta. unfold attempt, bind, print, run_process, ret, stop.
  destruct (dry_run args).
  { cbn [fst snd fs log]. split; [|now intros d [= <-]].
    exists [Print (MsgCmd cmd)]. rewrite <- app_assoc. now repeat split. }
  cbn [fs log].
  destruct (subprocess_run env cmd (fs w) _) as [o fs1].
  destruct o as [|stderr|x|x|x]; [| destruct (truthy stderr) | | |];
    cbn [fst snd fs log]; (split; [|try (now intros d [= <-]); discriminate]);
    rewrite <- ?app_assoc; cbn [app]; eexists; (split; [reflexivity|]);
    now split.
Qed.

Lemma for_each_invariant {A S} (P : S -> World -> Prop) (l : list A)
  (body : A -> S -> M S) :
  (forall x s w s' w', In x l -> P s w -> body x s w = (Val s', w') -> P s' w') ->
  forall s w s' w', P s w -> for_each l body s w = (Val s', w') -> P s' w'.
Proof.
  induction l as [|x l IH]; intros Hb s w s' w' Hp H; cbn [for_each] in H.
  - now injection H as <- <-.
  - apply bind_val_inv in H as (s1 & w1 & E1 & E2).
    eapply IH; [|eapply Hb; [now left | exact Hp | exact E1] | exact E2].
    intros y t u t' u' Hy. apply Hb. now right.
Qed.

Lemma counted_run_one (env : Env) (args : Args) (ffmpeg_bin : string)
  (total_jobs : nat) (out_dir src rel : Path) (ext : string) (l0 : list Event)
  (done done' : nat) (w w' : World) :
  counted args l0 done w ->
  run_one env args ffmpeg_bin total_jobs out_dir src rel ext done w = (Val done', w') ->
  counted args l0 done' w'.
Proof.
  intros (new & Hl & Hp & Hn) H. unfold run_one in H.
  apply bind_val_inv in H as (dst & w1 & E1 & H).
  destruct (destination out_dir rel ext) as [d|]; [|discriminate].
  injection E1 as -> <-. rewrite bind_path_exists in H.
  destruct (too_long dst); [discriminate|].
  destruct (exists_ (fs w) dst && negb (overwrite args)).
  { injection H as <- <-. now exists new. }
  destruct (attempt_log env args total_jobs src dst
              (build_ffmpeg_cmd ffmpeg_bin src dst args) done w)
    as [(extra & El & Ep & Ec) Hd].
  rewrite H in El, Hd. cbn [fst snd] in El, Hd. rewrite (Hd done' eq_refl).
  exists (new ++ Print (MsgProgress (done + 1) total_jobs src dst) :: extra).
  split; [now rewrite El, Hl, <- app_assoc|]. split.
  - rewrite progress_numbers_app.
    change (progress_numbers (Print (MsgProgress (done + 1) total_jobs src dst) :: extra))
      with ((done + 1) :: progress_numbers extra).
    rewrite Ep, Hp, Nat.add_1_r, seq_S. reflexivity.
  - rewrite launched_app, length_app.
    change (launched (Print (MsgProgress (done + 1) total_jobs src dst) :: extra))
      with (launched extra).
    rewrite Ec, Hn. destruct (dry_run args); cbn; lia.
Qed.

(** X9.  When the running loop ends, its counter is the number of jobs
    it attempted: it has printed that many progress lines, numbered 1, 2,
    3 and so on without a gap, and it has launched that many processes in
    a real run and none in a dry run. *)
Theorem done_counts_attempts
  (env : Env) (args : Args) (ffmpeg_bin : string) (total_jobs : nat)
  (in_dir out_dir : Path) (audio_files : list Path) (targets : list string)
  (done : nat) (w w' : World) :
  run_jobs env args ffmpeg_bin total_jobs in_dir out_dir audio_files targets w
  = (Val done, w') ->
  exists new,
    log w' = log w ++ new
    /\ progress_numbers new = seq 1 done
    /\ List.length (launched new) = (if dry_run args then 0 else done).
Proof.
  intros H. unfold run_jobs in H.
  refine (for_each_invariant (counted args (log w)) audio_files _ _ 0 w done w' _ H).
  - intros src s u s' u' _ Hc E.
    apply bind_val_inv in E as (rel & u1 & E1 & E2).
    destruct (relative_to src in_dir) as [r|]; [|discriminate].
    injection E1 as -> <-.
    refine (for_each_invariant (counted args (log w)) targets _ _ s u s' u' Hc E2).
    intros ext t v t' v' _ Hv Ev. eapply counted_run_one; eassumption.
  - exists []. rewrite app_nil_r. repeat split. now destruct (dry_run args).
Qed.

(** A real run over two files: two attempts, two launches. *)
Lemma done_counts_attempts_witness :
  exists new,
    log (snd (run_jobs (Examples.env_with Completed) (Examples.cli "wav" true false)
                "ffmpeg" 2 (of_str "/in") (of_str "/out")
                (discover Examples.music (of_str "/in")) (targets_of "wav")
                (mkWorld Examples.music [])))
    = [] ++ new
    /\ progress_numbers new = seq 1 2
    /\ List.length (launched new) = 2.
Proof.
  exact (done_counts_attempts (Examples.env_with Completed)
           (Examples.cli "wav" true false) "ffmpeg" 2 (of_str "/in") (of_str "/out")
           (discover Examples.music (of_str "/in")) (targets_of "wav") 2
           (mkWorld Examples.music []) _ eq_refl).
Defined.

Section LaunchesOnly.

Variable Q : list string -> Prop.

Lemma launches_only_refl (w : World) : launches_only Q w w.
Proof. exists []. now rewrite app_nil_r. Qed.

Lemma launches_only_trans (a b c : World) :
  launches_only Q a b -> launches_only Q b c -> launches_only Q a c.
Proof.
  intros (n1 & L1 & F1) (n2 & L2 & F2). exists (n1 ++ n2). split.
  - now rewrite L2, L1, app_assoc.
  - rewrite launched_app. apply Forall_app. now split.
Qed.

Lemma launches_only_attempt (env : Env) (args : Args) (total_jobs : nat)
  (src dst : Path) (cmd : list string) (done : nat) :
  Q cmd -> preserves (launches_only Q) (attempt env args total_jobs src dst cmd done).
Proof.
  intros Hq w.
  destruct (attempt_log env args total_jobs src dst cmd done w)
    as [(extra & El & _ & Ec) _].
  exists (Print (MsgProgress (done + 1) total_jobs src dst) :: extra).
  split; [exact El|].
  change (launched (Print (MsgProgress (done + 1) total_jobs src dst) :: extra))
    with (launched extra).
  rewrite Ec. destruct (dry_run args); repeat constructor. exact Hq.
Qed.

End LaunchesOnly.

(** X10.  However the running loop ends, every process it has launched
    is the command built for a pair of the plan: a source of the list, a
    format of the list, and the destination computed for the two.  It
    launches nothing else. *)
Theorem runner_launches_planned_commands
  (env : Env) (args : Args) (ffmpeg_bin : string) (total_jobs : nat)
  (in_dir out_dir : Path) (audio_files : list Path) (targets : list string)
  (w : World) :
  let w' := snd (run_jobs env args ffmpeg_bin total_jobs in_dir out_dir
                          audio_files targets w) in
  exists new,
    log w' = log w ++ new
    /\ Forall (planned_command args ffmpeg_bin in_dir out_dir audio_files targets)
              (launched new).
Proof.
  cbv zeta.
  set (Q := planned_command args ffmpeg_bin in_dir out_dir audio_files targets).
  pose proof (launches_only_refl Q) as Rr.
  pose proof (launches_only_trans Q) as Rt.
  assert (H : preserves (launches_only Q)
                (run_jobs env args ffmpeg_bin total_jobs in_dir out_dir
                          audio_files targets)); [|exact (H w)].
  unfold run_jobs. apply preserves_for_each; [exact Rr | exact Rt |].
  intros src d Hsrc.
  apply preserves_bind_val;
    [exact Rr | exact Rt | now apply preserves_or_value_error |].
  intros rel Hrel. apply or_value_error_val in Hrel.
  apply preserves_for_each; [exact Rr | exact Rt |].
  intros ext m Hext. unfold run_one.
  apply preserves_bind_val;
    [exact Rr | exact Rt | now apply preserves_or_value_error |].
  intros dst Hdst. apply or_value_error_val in Hdst.
  apply preserves_bind; [exact Rt | now apply preserves_path_exists | intros there].
  destruct (there && negb (overwrite args)); [now apply preserves_ret|].
  apply launches_only_attempt. now exists src, rel, ext, dst.
Qed.

(* ================================================================== *)
(** * What the counting loop counts *)
(* ================================================================== *)

(** A loop whose body adds [f x] to the counter and keeps [I], adds the
    sum of the [f x]. *)
Lemma for_each_sums {A} (I : World -> Prop) (l : list A)
  (body : A -> nat -> M nat) (f : A -> nat) :
  (forall x n w, In x l -> I w -> exists w', body x n w = (Val (n + f x), w') /\ I w') ->
  forall n w, I w ->
  exists w', for_each l body n w = (Val (n + list_sum (map f l)), w') /\ I w'.
Proof.
  induction l as [|x l IH]; intros Hb n w Hw; cbn [for_each map list_sum].
  - exists w. split; [|exact Hw]. unfold ret. f_equal. f_equal. cbn. lia.
  - destruct (Hb x n w (or_introl eq_refl) Hw) as (w1 & E1 & H1).
    rewrite (bind_val _ _ _ _ _ E1).
    destruct (IH (fun y m v Hy => Hb y m v (or_intror Hy)) (n + f x) w1 H1)
      as (w2 & E2 & H2).
    exists w2. split; [|exact H2]. rewrite E2. f_equal. f_equal.
    change (list_sum (f x :: map f l)) with (f x + list_sum (map f l)). lia.
Qed.

Lemma length_filter_flat_map {A B} (p : B -> bool) (h : A -> list B) (l : list A) :
  List.length (filter p (flat_map h l))
  = list_sum (map (fun x => List.length (filter p (h x))) l).
Proof.
  induction l as [|x l IH]; [reflexivity|].
  cbn [flat_map map].
  change (list_sum (?a :: ?b)) with (a + list_sum b).
  now rewrite filter_app, length_app, IH.
Qed.

Section PlanKeeps.

Variables (args : Args) (in_dir out_dir : Path).
Variables (audio_files : list Path) (targets : list string) (fs0 : FS).
Variable dests : list Path.
Hypothesis dests_def : dests = destinations in_dir out_dir audio_files targets.
Hypothesis apart : plan_apart args dests.
Hypothesis accepted : forall d, In d dests -> too_long d = false.



End PlanKeeps.



(* ================================================================== *)
(** * What the counting loop leaves on disk *)
(* ================================================================== *)

Lemma on_path_longer (r x : string) (up : list string) :
  on_path (mkPath r (rev (x :: up))) (mkPath r (rev up)) = false.
Proof.
  destruct (on_path _ _) eqn:E; [|reflexivity].
  apply on_path_spec in E as [_ [rest E]]. cbn in E.
  apply (f_equal (@List.length string)) in E.
  rewrite !length_app in E. cbn in E. lia.
Qed.

Lemma kind_of_app_new (fs : FS) (p : Path) :
  kind_of fs p = None -> too_long p = false ->
  kind_of (fs ++ [(p, Dir)]) p = Some Dir.
Proof.
  unfold kind_of. destruct (parts p); [discriminate|].
  intros H Hl. rewrite Hl in H |- *. cbv beta iota in H.
  rewrite assoc_app, H.
  now rewrite (proj2 (Path_eqb_eq p p) eq_refl).
Qed.

Lemma rev_cons_not_nil {A} (x : A) (l : list A) : rev (x :: l) <> [].
Proof. cbn [rev]. now destruct (rev l). Qed.

(** [mkdir] succeeds only for names that the system accepts. *)
Lemma mkdir_rev_names (r : string) (rp : list string) (fs fs' : FS) :
  mkdir_rev fs r rp = inr fs' -> existsb name_too_long (rev rp) = false.
Proof.
  revert fs'. induction rp as [|x up IH]; intros fs'; [reflexivity|].
  cbn [mkdir_rev].
  destruct (kind_of fs (mkPath r (rev (x :: up)))) as [[|]|] eqn:Ek; [discriminate | |].
  - intros _. apply (too_long_parts (mkPath r (rev (x :: up)))).
    apply (kind_of_accepted fs _ Dir Ek). apply rev_cons_not_nil.
  - assert (Hx : forall fs1 res,
               existsb name_too_long (rev up) = false ->
               (if name_too_long x then inl (OSError, fs1) else inr res)
               = (inr fs' : Exn * FS + FS) ->
               existsb name_too_long (rev (x :: up)) = false).
    { intros fs1 res Hup H. cbn [rev]. rewrite existsb_app, Hup. cbn [existsb orb].
      destruct (name_too_long x); [discriminate | reflexivity]. }
    destruct (kind_of fs (mkPath r (rev up))) as [[|]|] eqn:Eu; [discriminate | |].
    + apply Hx. destruct up as [|y up']; [reflexivity|].
      apply (too_long_parts (mkPath r (rev (y :: up')))).
      apply (kind_of_accepted fs _ Dir Eu). apply rev_cons_not_nil.
    + destruct (mkdir_rev fs r up) as [[e fs1]|fs1]; [discriminate|].
      apply Hx. now apply (IH fs1).
Qed.

Lemma mkdir_parents_accepts (p : Path) (fs fs' : FS) :
  mkdir_parents fs p = inr fs' -> too_long p = false.
Proof.
  unfold mkdir_parents, too_long.
  destruct (PATH_MAX <=? encoded_length (to_str p))%nat; [discriminate|].
  intros H. apply mkdir_rev_names in H. now rewrite rev_involutive in H.
Qed.

(** After [mkdir], the path is a directory. *)
Lemma mkdir_rev_is_dir (r : string) (rp : list string) (fs fs' : FS) :
  mkdir_rev fs r rp = inr fs' -> too_long (mkPath r (rev rp)) = false ->
  kind_of fs' (mkPath r (rev rp)) = Some Dir.
Proof.
  destruct rp as [|x up]; cbn [mkdir_rev].
  - intros _ _. reflexivity.
  - intros H Hl.
    destruct (kind_of fs (mkPath r (rev (x :: up)))) as [[|]|] eqn:Ek;
      [discriminate | now injection H as <- |].
    destruct (kind_of fs (mkPath r (rev up))) as [[|]|]; [discriminate | |].
    + destruct (name_too_long x); [discriminate|]. injection H as <-.
      now apply kind_of_app_new.
    + pose proof (mkdir_rev_grows r up fs) as G.
      destruct (mkdir_rev fs r up) as [[e fs1]|fs1]; [discriminate|].
      destruct (name_too_long x); [discriminate|]. injection H as <-.
      apply kind_of_app_new; [|exact Hl]. cbn [fs_after] in G.
      destruct (G (mkPath r (rev (x :: up)))) as [->|(_ & _ & Hp)]; [exact Ek|].
      now rewrite on_path_longer in Hp.
Qed.

Lemma mkdir_parents_is_dir (p : Path) (fs fs' : FS) :
  mkdir_parents fs p = inr fs' -> kind_of fs' p = Some Dir.
Proof.
  intros H. pose proof (mkdir_parents_accepts _ _ _ H) as Hl.
  unfold mkdir_parents in H.
  destruct (PATH_MAX <=? encoded_length (to_str p))%nat; [discriminate|].
  apply mkdir_rev_is_dir in H; rewrite rev_involutive, Path_eta in *; assumption.
Qed.

(** [mkdir] of a directory that exists changes nothing. *)
Lemma mkdir_parents_noop (p : Path) (fs : FS) :
  kind_of fs p = Some Dir -> too_long p = false -> mkdir_parents fs p = inr fs.
Proof.
  unfold mkdir_parents. intros H Hl. unfold too_long in Hl.
  apply orb_false_iff in Hl as [-> _].
  rewrite <- (Path_eta p), <- (rev_involutive (parts p)) in H.
  destruct (rev (parts p)); cbn [mkdir_rev]; now rewrite H.
Qed.

Lemma destination_parts (out_dir rel d : Path) (ext : string) :
  destination out_dir rel ext = Some d -> parts d <> [].
Proof.
  unfold destination, with_suffix.
  destruct (contains "/" ext); [discriminate|].
  destruct ((truthy ext && negb (String.prefix "." ext)) || (ext =? ".")%string);
    [discriminate|].
  destruct (negb (truthy (name rel))); [discriminate|].
  intros [= <-]. unfold joinpath. cbn [root parts].
  destruct (truthy (root rel)); cbn [parts]; intros E;
    repeat (apply app_eq_nil in E as [_ E]); discriminate.
Qed.

(** A destination that exists is a path that the system accepts. *)
Lemma destination_accepted (fs : FS) (out_dir rel d : Path) (ext : string) :
  destination out_dir rel ext = Some d -> exists_ fs d = true -> too_long d = false.
Proof.
  intros Hd He. unfold exists_ in He.
  destruct (kind_of fs d) as [k|] eqn:Ek; [|discriminate].
  apply (kind_of_accepted fs d k Ek). eapply destination_parts, Hd.
Qed.

Lemma keeps_entries_refl (w : World) : keeps_entries w w.
Proof. intros q k H. exact H. Qed.

Lemma keeps_entries_trans (a b c : World) :
  keeps_entries a b -> keeps_entries b c -> keeps_entries a c.
Proof. intros H1 H2 q k H. now apply H2, H1. Qed.

Lemma keeps_entries_mkdir (p : Path) : preserves keeps_entries (mkdir p).
Proof.
  intros w. unfold mkdir.
  pose proof (mkdir_parents_grows_after p (fs w)) as E.
  destruct (mkdir_parents (fs w) p) as [[e fs']|fs']; cbn [fs_after] in E;
    intros q k H; cbn;
    (destruct (E q) as [->|(N & _ & _)]; [exact H | congruence]).
Qed.

Lemma keeps_entries_plan_one (args : Args) (out_dir rel : Path) (ext : string) (n : nat) :
  preserves keeps_entries (plan_one args out_dir rel ext n).
Proof.
  unfold plan_one.
  apply preserves_bind;
    [exact keeps_entries_trans
    | apply preserves_or_value_error; exact keeps_entries_refl |].
  intros dst. apply preserves_bind;
    [exact keeps_entries_trans | apply keeps_entries_mkdir |].
  intros _. apply preserves_bind;
    [exact keeps_entries_trans | apply preserves_path_exists; exact keeps_entries_refl |].
  intros there. destruct (there && negb (overwrite args));
    apply preserves_ret; exact keeps_entries_refl.
Qed.

Lemma keeps_entries_plan (args : Args) (in_dir out_dir : Path)
  (audio_files : list Path) (targets : list string) :
  preserves keeps_entries (plan args in_dir out_dir audio_files targets).
Proof.
  unfold plan.
  apply preserves_for_each; [exact keeps_entries_refl | exact keeps_entries_trans |].
  intros src n _.
  apply preserves_bind;
    [exact keeps_entries_trans
    | apply preserves_or_value_error; exact keeps_entries_refl |].
  intros rel.
  apply preserves_for_each; [exact keeps_entries_refl | exact keeps_entries_trans |].
  intros ext m _. apply keeps_entries_plan_one.
Qed.

(** A loop that ended has run its body for every element, in a world
    that continues the one the loop started in and is continued by the
    one it ended in. *)
Lemma for_each_val_step {A S} (R : World -> World -> Prop) (l : list A)
  (body : A -> S -> M S) :
  (forall w, R w w) -> (forall a b c, R a b -> R b c -> R a c) ->
  (forall x s, preserves R (body x s)) ->
  forall s w s' w', for_each l body s w = (Val s', w') ->
  forall x, In x l ->
  exists s0 w0 s1 w1, body x s0 w0 = (Val s1, w1) /\ R w w0 /\ R w1 w'.
Proof.
  intros Rr Rt Hb. induction l as [|y l IH]; intros s w s' w' H x Hx; [easy|].
  cbn [for_each] in H. apply bind_val_inv in H as (s1 & w1 & E1 & E2).
  assert (H1 : R w w1) by (pose proof (Hb y s w) as H; now rewrite E1 in H).
  destruct Hx as [<-|Hx].
  - exists s, w, s1, w1. repeat split; [exact E1 | apply Rr |].
    pose proof (preserves_for_each R Rr Rt l body (fun z t _ => Hb z t) s1 w1) as H.
    now rewrite E2 in H.
  - destruct (IH _ _ _ _ E2 x Hx) as (s0 & w0 & t & u & E & Ha & Hc).
    exists s0, w0, t, u. repeat split; [exact E | now apply (Rt _ w1) | exact Hc].
Qed.

(** When the counting loop has ended, the directory of every
    destination is there. *)
Lemma plan_makes_parents (args : Args) (in_dir out_dir : Path)
  (audio_files : list Path) (targets : list string) (n : nat) (w w' : World) :
  plan args in_dir out_dir audio_files targets w = (Val n, w') ->
  forall d, In d (destinations in_dir out_dir audio_files targets) ->
  kind_of (fs w') (parent d) = Some Dir.
Proof.
  intros H d Hd.
  apply in_destinations_inv in Hd as (src & rel & ext & Hs & Hr & He & Hdst).
  unfold plan in H.
  assert (Hb : forall x s,
             preserves keeps_entries
               ((fun src total_jobs =>
                   rel <- or_value_error (relative_to src in_dir) ;;
                   for_each targets (plan_one args out_dir rel) total_jobs) x s)).
  { intros x s. apply preserves_bind;
      [exact keeps_entries_trans
      | apply preserves_or_value_error; exact keeps_entries_refl |].
    intros r. apply preserves_for_each;
      [exact keeps_entries_refl | exact keeps_entries_trans |].
    intros e m _. apply keeps_entries_plan_one. }
  destruct (for_each_val_step keeps_entries audio_files _
              keeps_entries_refl keeps_entries_trans Hb 0 w n w' H src Hs)
    as (s0 & w0 & s1 & w1 & E & _ & K1).
  cbv beta in E. rewrite Hr in E. cbn [or_value_error] in E. rewrite bind_ret in E.
  destruct (for_each_val_step keeps_entries targets (plan_one args out_dir rel)
              keeps_entries_refl keeps_entries_trans
              (keeps_entries_plan_one args out_dir rel) s0 w0 s1 w1 E ext He)
    as (t0 & u0 & t1 & u1 & Ep & _ & K2).
  apply K1, K2. unfold plan_one in Ep. rewrite Hdst in Ep.
  cbn [or_value_error] in Ep. rewrite bind_ret in Ep.
  apply bind_val_inv in Ep as ([] & u2 & Em & Ep). unfold mkdir in Em.
  destruct (mkdir_parents (fs u0) (parent d)) as [[e fs1]|fs1] eqn:Ed;
    [discriminate|].
  injection Em as <-. apply mkdir_parents_is_dir in Ed.
  apply bind_val_inv in Ep as (there & u3 & Ee & Ep).
  apply path_exists_inv in Ee as (_ & _ & ->).
  destruct (there && negb (overwrite args)); injection Ep as _ <-; exact Ed.
Qed.

(** X12.  When the planner has counted, the directory of every
    destination exists, so that FFmpeg can write there; and every entry
    that the file system had is still there with its kind. *)
Theorem planner_prepares_directories
  (args : Args) (in_dir out_dir : Path) (audio_files : list Path)
  (targets : list string) (n : nat) (w w' : World) :
  plan args in_dir out_dir audio_files targets w = (Val n, w') ->
  (forall src rel ext d,
     In src audio_files -> relative_to src in_dir = Some rel ->
     In ext targets -> destination out_dir rel ext = Some d ->
     is_dir (fs w') (parent d) = true)
  /\ (forall q k, kind_of (fs w) q = Some k -> kind_of (fs w') q = Some k).
Proof.
  intros H. split.
  - intros src rel ext d Hs Hr He Hd. unfold is_dir.
    rewrite (plan_makes_parents _ _ _ _ _ _ _ _ H d); [reflexivity|].
    eapply in_destinations; eassumption.
  - pose proof (keeps_entries_plan args in_dir out_dir audio_files targets w) as K.
    now rewrite H in K.
Qed.

(** After counting [a.mp3] and [b/c.wav] to wav, [/out/wav/b] is there. *)
Lemma planner_prepares_directories_witness :
  is_dir (fs (snd (plan (Examples.cli "wav" true false) (of_str "/in") (of_str "/out")
                     (discover Examples.music (of_str "/in")) (targets_of "wav")
                     (mkWorld Examples.music []))))
         (parent (of_str "/out/wav/b/c.wav")) = true.
Proof.
  refine (proj1 (planner_prepares_directories (Examples.cli "wav" true false)
                   (of_str "/in") (of_str "/out")
                   (discover Examples.music (of_str "/in")) (targets_of "wav")
                   2 (mkWorld Examples.music []) _ eq_refl)
                (of_str "/in/b/c.wav") (of_str "b/c.wav") ".wav"
                (of_str "/out/wav/b/c.wav") _ eq_refl _ eq_refl).
  - right. now left.
  - now left.
Defined.

Lemma World_eta (w : World) : mkWorld (fs w) (log w) = w.
Proof. now destruct w. Qed.

(** Counting in a world where the directories are there changes
    nothing. *)
Lemma plan_again (args : Args) (in_dir out_dir : Path) (audio_files : list Path)
  (targets : list string) (w : World) :
  Forall (fun src => exists rel, relative_to src in_dir = Some rel
                                 /\ truthy (name rel) = true) audio_files ->
  forallb valid_suffix targets = true ->
  (forall d, In d (destinations in_dir out_dir audio_files targets) ->
             too_long d = false) ->
  (forall d, In d (destinations in_dir out_dir audio_files targets) ->
             kind_of (fs w) (parent d) = Some Dir) ->
  plan args in_dir out_dir audio_files targets w
  = (Val (List.length (filter (to_do args (fs w))
                         (destinations in_dir out_dir audio_files targets))), w).
Proof.
  intros Hsrc Hext Hlong Hdir. unfold plan.
  rewrite Forall_forall in Hsrc. rewrite forallb_forall in Hext.
  set (one := fun ext (rel : Path) =>
                match destination out_dir rel ext with
                | Some d => [d]
                | None => []
                end).
  set (g := fun src => match relative_to src in_dir with
                       | Some rel =>
                           List.length (filter (to_do args (fs w))
                                          (flat_map (fun ext => one ext rel) targets))
                       | None => 0
                       end).
  destruct (for_each_sums (fun v => v = w) audio_files
              (fun src total_jobs =>
                 rel <- or_value_error (relative_to src in_dir) ;;
                 for_each targets (plan_one args out_dir rel) total_jobs) g)
    with (n := 0) (w := w) as (w' & E & ->); [|reflexivity|].
  - intros src n v Hin ->. destruct (Hsrc src Hin) as (rel & Hr & Hn).
    unfold g. rewrite Hr. cbn [or_value_error]. rewrite bind_ret.
    rewrite length_filter_flat_map.
    apply (for_each_sums (fun v => v = w) targets (plan_one args out_dir rel)
             (fun ext => List.length (filter (to_do args (fs w)) (one ext rel))));
      [|reflexivity].
    intros ext m u He ->.
    destruct (destination_valid out_dir rel ext (Hext ext He) Hn) as [d Hd].
    exists w. split; [|reflexivity].
    pose proof (in_destinations _ _ _ _ _ _ _ _ Hin Hr He Hd) as Hind.
    unfold one, plan_one. rewrite Hd. cbn [or_value_error filter].
    rewrite bind_ret.
    rewrite (bind_val _ _ _ _ _
               (mkdir_val _ _ _ (mkdir_parents_noop _ _ (Hdir d Hind)
                                   (too_long_parent _ (Hlong d Hind))))).
    rewrite World_eta, (bind_val _ _ _ _ _ (path_exists_val d w (Hlong d Hind))).
    unfold to_do, ret.
    destruct (exists_ (fs w) d && negb (overwrite args)); cbn [negb List.length];
      f_equal; f_equal; lia.
  - rewrite E. f_equal. f_equal. cbn [Nat.add].
    unfold destinations. rewrite length_filter_flat_map.
    f_equal. apply map_ext. intros src. unfold g.
    now destruct (relative_to src in_dir).
Qed.



(* ================================================================== *)
(** * Bounds of the two counters *)
(* ================================================================== *)

Lemma for_each_bound {A} (l : list A) (body : A -> nat -> M nat) (k : nat) :
  (forall x n w n' w', In x l -> body x n w = (Val n', w') -> n' <= n + k) ->
  forall n w n' w', for_each l body n w = (Val n', w') ->
                    n' <= n + k * List.length l.
Proof.
  induction l as [|x l IH]; intros Hb n w n' w' H; cbn [for_each List.length] in *.
  - injection H as <- _. lia.
  - apply bind_val_inv in H as (n1 & w1 & E1 & E2).
    apply Hb in E1; [|now left].
    apply IH in E2; [|intros y m v m' v' Hy; apply Hb; now right]. nia.
Qed.

(** X14.  Neither counter of [main] exceeds the number of pairs of a
    source and a format: the planner never announces, and the runner
    never attempts, more than [len(audio_files) * len(targets)] jobs. *)
Theorem counters_are_bounded
  (env : Env) (args : Args) (ffmpeg_bin : string) (total_jobs : nat)
  (in_dir out_dir : Path) (audio_files : list Path) (targets : list string)
  (w : World) :
  (forall n w', plan args in_dir out_dir audio_files targets w = (Val n, w') ->
                n <= List.length audio_files * List.length targets)
  /\ (forall done w',
        run_jobs env args ffmpeg_bin total_jobs in_dir out_dir audio_files targets w
        = (Val done, w') ->
        done <= List.length audio_files * List.length targets).
Proof.
  split.
  - intros n w' H. unfold plan in H.
    apply (for_each_bound audio_files _ (1 * List.length targets)) in H; [lia|].
    intros src m v m' v' _ E. apply bind_val_inv in E as (rel & v1 & _ & E).
    apply (for_each_bound targets _ 1) in E; [exact E|].
    intros ext a u a' u' _ Ep. unfold plan_one in Ep.
    apply bind_val_inv in Ep as (d & u1 & _ & Ep).
    apply bind_val_inv in Ep as (x & u2 & _ & Ep).
    apply bind_val_inv in Ep as (there & u3 & _ & Ep).
    destruct (there && negb (overwrite args));
      injection Ep as <- _; lia.
  - intros done w' H. unfold run_jobs in H.
    apply (for_each_bound audio_files _ (1 * List.length targets)) in H; [lia|].
    intros src m v m' v' _ E. apply bind_val_inv in E as (rel & v1 & _ & E).
    apply (for_each_bound targets _ 1) in E; [exact E|].
    intros ext a u a' u' _ Ep. unfold run_one in Ep.
    apply bind_val_inv in Ep as (d & u1 & _ & Ep).
    apply bind_val_inv in Ep as (there & u2 & _ & Ep).
    destruct (there && negb (overwrite args)).
    + injection Ep as <- _. lia.
    + destruct (attempt_log env args total_jobs src d
                  (build_ffmpeg_cmd ffmpeg_bin src d args) a u2) as [_ Hd].
      rewrite Ep in Hd. rewrite (Hd a' eq_refl). lia.
Qed.

(** Two sources, one format, one destination there already. *)
Lemma counters_are_bounded_witness :
  1 <= List.length (discover Examples.music (of_str "/in"))
       * List.length (targets_of "wav").
Proof.
  refine (proj1 (counters_are_bounded (Examples.env_with Completed)
                   (Examples.cli "wav" false false) "ffmpeg" 1
                   (of_str "/in") (of_str "/out")
                   (discover Examples.music (of_str "/in")) (targets_of "wav")
                   (mkWorld (Examples.music ++ [(of_str "/out/wav/a.wav", File)]) []))
                1 _ eq_refl).
Defined.

(* ================================================================== *)
(** * Names, suffixes and what the scan finds *)
(* ================================================================== *)

Lemma rsplit_dot_none (s : string) : contains "." s = false -> rsplit_dot s = None.
Proof.
  induction s as [|c s IH]; [reflexivity|]. cbn. intros H.
  apply orb_false_iff in H as [Hc Hs]. rewrite (IH Hs). unfold is_dot. now rewrite Hc.
Qed.

Lemma rsplit_dot_app (s u : string) :
  contains "." u = false -> rsplit_dot (s +++ String "." u) = Some (s, u).
Proof.
  intros H. induction s as [|c s IH]; cbn.
  - now rewrite (rsplit_dot_none u H).
  - cbn in IH. now rewrite IH.
Qed.

Lemma rsplit_dot_some (s a b : string) :
  rsplit_dot s = Some (a, b) -> s = a +++ String "." b.
Proof.
  revert a. induction s as [|c s IH]; [discriminate|]. cbn. intros a.
  destruct (rsplit_dot s) as [[a' b']|].
  - intros [= <- <-]. cbn. f_equal. now apply IH.
  - unfold is_dot. destruct (Ascii.eqb_spec c "."); [|discriminate].
    intros [= <- <-]. now subst.
Qed.

(** A name is its stem followed by its suffix. *)
Lemma name_stem_suffix (nm : string) : name_stem nm +++ name_suffix nm = nm.
Proof.
  unfold name_stem, name_suffix.
  destruct (rsplit_dot nm) as [[[|a a'] [|b b']]|] eqn:E;
    try apply append_nil_r.
  symmetry. now apply rsplit_dot_some.
Qed.

Lemma name_stem_truthy (nm : string) : truthy nm = true -> truthy (name_stem nm) = true.
Proof.
  unfold name_stem.
  destruct (rsplit_dot nm) as [[[|a a'] [|b b']]|]; auto.
Qed.

Lemma name_suffix_app (s u : string) :
  truthy s = true -> truthy u = true -> contains "." u = false ->
  name_suffix (s +++ String "." u) = String "." u
  /\ name_stem (s +++ String "." u) = s.
Proof.
  intros Hs Hu Hd. unfold name_suffix, name_stem.
  rewrite (rsplit_dot_app s u Hd). destruct s; [discriminate|].
  destruct u; [discriminate|]. now split.
Qed.

Lemma lower_dot (u : string) : lower u = u -> lower (String "." u) = String "." u.
Proof. intros H. cbn. now rewrite H. Qed.

Lemma destination_suffix
  (in_dir out_dir : Path) (formats : string) (src rel d : Path) (ext : string) :
  In ext (targets_of formats) ->
  contains "." (lstrip is_dot ext) = false ->
  relative_to src in_dir = Some rel ->
  destination out_dir rel ext = Some d ->
  name d = name_stem (name rel) +++ ext /\ suffix d = ext /\ lower ext = ext.
Proof.
  intros He Hdot Hr Hd. apply relative_to_root in Hr.
  apply destination_shape in Hd as (Hs & Hne & Hn & ->); [|exact Hr].
  unfold targets_of in He. apply in_map_iff in He as (fmt & <- & _).
  destruct (target_of_normal_form fmt) as (u & E & Hp & Hl).
  rewrite E in *. apply prefix_dot_head in Hp.
  assert (El : lstrip is_dot (String "." u) = u) by (cbn; now apply lstrip_keeps).
  rewrite El in *.
  assert (Hname : forall a b c x, name (mkPath (root out_dir) (a ++ b ++ c ++ [x])) = x).
  { intros a b c x. unfold name. cbn [parts]. rewrite !app_assoc. apply last_last. }
  assert (Hu : truthy u = true) by (destruct u; [congruence | reflexivity]).
  destruct (name_suffix_app _ u (name_stem_truthy _ Hn) Hu Hdot) as [Hsuf _].
  unfold suffix. rewrite Hname, Hsuf, (lower_dot u Hl). auto.
Qed.

(** X15.  For a requested format with one dot, as [wav] or [.MP3], the
    destination's name is the stem of the source's name followed by the
    normalized format, and its suffix is that format, in lower case: so
    the extension from which the builder chooses the encoder is the
    requested format, whatever suffix the source had. *)
Theorem destination_has_the_requested_suffix
  (in_dir out_dir : Path) (formats : string) (src rel d : Path) (ext : string) :
  In ext (targets_of formats) ->
  contains "." (lstrip is_dot ext) = false ->
  relative_to src in_dir = Some rel ->
  destination out_dir rel ext = Some d ->
  name d = name_stem (name rel) +++ ext
  /\ suffix d = ext
  /\ lower (suffix d) = ext
  /\ forall args, codec_args (lower (suffix d)) args = codec_args ext args.
Proof.
  intros He Hdot Hr Hd.
  destruct (destination_suffix _ _ _ _ _ _ _ He Hdot Hr Hd) as (Hn & Hs & Hl).
  rewrite Hs, Hl. auto.
Qed.

(** [song.FLAC] to [.MP3]: the destination is [song.mp3]. *)
Lemma destination_has_the_requested_suffix_witness :
  suffix (of_str "/out/mp3/song.mp3") = ".mp3".
Proof.
  refine (proj1 (proj2 (destination_has_the_requested_suffix (of_str "/in")
                          (of_str "/out") ".MP3" (of_str "/in/song.FLAC")
                          (of_str "song.FLAC") (of_str "/out/mp3/song.mp3") ".mp3"
                          _ eq_refl eq_refl eq_refl))).
  now left.
Defined.

Lemma below_spec (d q : Path) :
  below d q = true <->
  root q = root d /\ exists x rest, parts q = parts d ++ x :: rest.
Proof.
  unfold below. rewrite andb_true_iff, String.eqb_eq.
  destruct (strip_prefix (parts d) (parts q)) as [[|x rest]|] eqn:E.
  - apply strip_prefix_spec in E. split; [intros [_ H]; discriminate|].
    intros [_ (x & rest & H)]. rewrite H in E. apply app_inv_head in E. discriminate.
  - apply strip_prefix_spec in E. split; intros [H _]; (split; [exact H|]); eauto.
  - split; [intros [_ H]; discriminate|].
    intros [_ (x & rest & H)]. apply strip_prefix_spec in H. congruence.
Qed.

(** X16.  The scan takes regular files only, each strictly below the
    input directory, with a name that is a non-empty stem followed by a
    suffix that is, in lower case, one of the supported ones; the path of
    such a file relative to the input directory, joined to the input
    directory, is the file again.  And it does not look at the case of
    the suffix: every listed regular file below the input directory whose
    name is a non-empty stem, a dot and a dotless extension that is
    supported once lowered, is taken. *)
Theorem scan_takes_audio_files (fs : FS) (in_dir : Path) :
  (forall src, In src (discover fs in_dir) ->
     is_file fs src = true
     /\ src <> in_dir
     /\ truthy (name_stem (name src)) = true
     /\ name src = name_stem (name src) +++ suffix src
     /\ In (lower (suffix src)) SUPPORTED_INPUTS
     /\ exists rel, relative_to src in_dir = Some rel
                    /\ name rel = name src
                    /\ joinpath in_dir rel = src)
  /\ (forall src stem u,
        In src (map fst fs) -> below in_dir src = true -> is_file fs src = true ->
        name src = stem +++ String "." u ->
        truthy stem = true -> truthy u = true -> contains "." u = false ->
        mem (lower (String "." u)) SUPPORTED_INPUTS = true ->
        In src (discover fs in_dir)).
Proof.
  split.
  - intros src H. unfold discover in H. rewrite filter_In, rglob_In in H.
    destruct H as [[_ Hb] Hs]. apply andb_true_iff in Hs as [Hf Hs].
    pose proof Hb as Hb'. apply below_spec in Hb' as (Hr & x & rest & Hp).
    assert (Hn : truthy (name src) = true).
    { unfold suffix in Hs. destruct (name src); [discriminate Hs | reflexivity]. }
    split; [exact Hf|]. split.
    { intros ->. apply (f_equal (@List.length string)) in Hp.
      rewrite length_app in Hp. cbn in Hp. lia. }
    split; [now apply name_stem_truthy|].
    split; [symmetry; apply name_stem_suffix|].
    split; [now apply mem_cases|].
    exists (mkPath "" (x :: rest)).
    unfold relative_to. rewrite Hr, String.eqb_refl, Hp, strip_prefix_app.
    split; [reflexivity|]. split.
    + unfold name. cbn [parts]. now rewrite Hp, last_app_cons.
    + unfold joinpath. cbn. rewrite <- Hp, <- Hr. apply Path_eta.
  - intros src stem u Hl Hb Hf Hn Hs Hu Hd Hm.
    unfold discover. rewrite filter_In, rglob_In. repeat split; try assumption.
    rewrite Hf. cbn [andb]. unfold suffix. rewrite Hn.
    now rewrite (proj1 (name_suffix_app stem u Hs Hu Hd)).
Qed.

(** [A.MP3] is taken. *)
Lemma scan_takes_audio_files_witness :
  In (of_str "/in/A.MP3")
     (discover [(of_str "/in", Dir); (of_str "/in/A.MP3", File)] (of_str "/in")).
Proof.
  refine (proj2 (scan_takes_audio_files
                   [(of_str "/in", Dir); (of_str "/in/A.MP3", File)] (of_str "/in"))
                (of_str "/in/A.MP3") "A" "MP3" _ eq_refl eq_refl eq_refl
                eq_refl eq_refl eq_refl eq_refl).
  right. now left.
Defined.

(** X17.  When the output directory is the input directory or lies
    inside it, every destination lies strictly below the input directory;
    so a converted file of a supported format with one dot, once it is
    there as a regular file, is a source of the next scan. *)
Theorem outputs_inside_the_input_are_scanned
  (in_dir out_dir : Path) (formats : string) (src rel d : Path) (ext : string)
  (fs' : FS) :
  on_path in_dir out_dir = true ->
  In ext (targets_of formats) ->
  contains "." (lstrip is_dot ext) = false ->
  relative_to src in_dir = Some rel ->
  destination out_dir rel ext = Some d ->
  below in_dir d = true
  /\ (mem ext SUPPORTED_INPUTS = true ->
      In d (map fst fs') -> is_file fs' d = true ->
      In d (discover fs' in_dir)).
Proof.
  intros Ho He Hdot Hr Hd.
  assert (Hb : below in_dir d = true).
  { pose proof (relative_to_root _ _ _ Hr) as Hroot.
    apply destination_shape in Hd as (_ & _ & _ & ->); [|exact Hroot].
    apply on_path_spec in Ho as [Hrt [r Hp]].
    apply below_spec. cbn [root parts]. split; [now symmetry|].
    rewrite Hp, <- app_assoc.
    destruct (r ++ parts (of_str (lstrip is_dot ext)) ++ removelast (parts rel)
              ++ [name_stem (name rel) +++ ext]) as [|x l] eqn:E.
    - apply app_eq_nil in E as [_ E]. apply app_eq_nil in E as [_ E].
      apply app_eq_nil in E as [_ E]. discriminate.
    - now exists x, l. }
  split; [exact Hb|]. intros Hm Hl Hf.
  destruct (destination_suffix _ _ _ _ _ _ _ He Hdot Hr Hd) as (_ & Hs & Hlow).
  unfold discover. rewrite filter_In, rglob_In. repeat split; try assumption.
  now rewrite Hf, Hs, Hlow, Hm.
Qed.

(** Output in [/in/convertidos]: [a.wav] there is below [/in]. *)
Lemma outputs_inside_the_input_are_scanned_witness :
  below (of_str "/in") (of_str "/in/convertidos/wav/a.wav") = true.
Proof.
  refine (proj1 (outputs_inside_the_input_are_scanned (of_str "/in")
                   (of_str "/in/convertidos") "wav" (of_str "/in/a.mp3")
                   (of_str "a.mp3") (of_str "/in/convertidos/wav/a.wav") ".wav" []
                   eq_refl _ eq_refl eq_refl eq_refl)).
  now left.
Defined.

(* ================================================================== *)
(** * Runs with nothing to do *)
(* ================================================================== *)

Lemma list_sum_zero {A} (l : list A) : list_sum (map (fun _ => 0) l) = 0.
Proof. induction l as [|x l IH]; [reflexivity|exact IH]. Qed.

(** X18.  Without [--overwrite], when every destination exists, the
    running loop does nothing at all: it prints no line, launches no
    process, leaves the world as it is and ends with its counter at 0.
    No existing output is touched. *)
Theorem existing_outputs_are_left_alone
  (env : Env) (args : Args) (ffmpeg_bin : string) (total_jobs : nat)
  (in_dir out_dir : Path) (targets : list string) (w : World) :
  let audio_files := discover (fs w) in_dir in
  let dests := destinations in_dir out_dir audio_files targets in
  overwrite args = false ->
  forallb valid_suffix targets = true ->
  forallb (exists_ (fs w)) dests = true ->
  run_jobs env args ffmpeg_bin total_jobs in_dir out_dir audio_files targets w
  = (Val 0, w).
Proof.
  intros audio_files dests Ho Hv He. unfold run_jobs.
  rewrite forallb_forall in Hv.
  destruct (for_each_sums (fun v => v = w) audio_files
              (fun src done =>
                 rel <- or_value_error (relative_to src in_dir) ;;
                 for_each targets
                   (run_one env args ffmpeg_bin total_jobs out_dir src rel) done)
              (fun _ => 0)) with (n := 0) (w := w) as (w' & E & ->); [|reflexivity|].
  - intros src n v Hin ->.
    destruct (discover_relative _ _ _ Hin) as (rel & Hr & Hn).
    rewrite Hr. cbn [or_value_error]. rewrite bind_ret.
    destruct (for_each_sums (fun v => v = w) targets
                (run_one env args ffmpeg_bin total_jobs out_dir src rel)
                (fun _ => 0)) with (n := n) (w := w) as (w' & E & ->);
      [|reflexivity|].
    + intros ext m u Hext ->.
      destruct (destination_valid out_dir rel ext (Hv ext Hext) Hn) as [d Hd].
      exists w. split; [|reflexivity].
      pose proof (forallb_In _ _ d He (in_destinations _ _ _ _ _ _ _ _ Hin Hr Hext Hd))
        as Hthere.
      unfold run_one. rewrite Hd. cbn [or_value_error].
      rewrite bind_ret, bind_path_exists.
      rewrite (destination_accepted _ _ _ _ _ Hd Hthere), Hthere.
      rewrite Ho. cbn. unfold ret. f_equal. f_equal. lia.
    + exists w. split; [|reflexivity]. rewrite E. f_equal. f_equal.
      rewrite list_sum_zero. lia.
  - rewrite E. f_equal. f_equal. now rewrite list_sum_zero.
Qed.

(** Both outputs of [a.mp3] and [b/c.wav] to wav are there. *)
Lemma existing_outputs_are_left_alone_witness :
  run_jobs (Examples.env_with Completed) (Examples.cli "wav" false false) "ffmpeg" 0
           (of_str "/in") (of_str "/out")
           (discover (Examples.music ++ [(of_str "/out/wav/a.wav", File);
                                         (of_str "/out/wav/b/c.wav", File)])
                     (of_str "/in"))
           (targets_of "wav")
           (mkWorld (Examples.music ++ [(of_str "/out/wav/a.wav", File);
                                        (of_str "/out/wav/b/c.wav", File)]) [])
  = (Val 0,
     mkWorld (Examples.music ++ [(of_str "/out/wav/a.wav", File);
                                 (of_str "/out/wav/b/c.wav", File)]) []).
Proof.
  exact (existing_outputs_are_left_alone (Examples.env_with Completed)
           (Examples.cli "wav" false false) "ffmpeg" 0 (of_str "/in") (of_str "/out")
           (targets_of "wav")
           (mkWorld (Examples.music ++ [(of_str "/out/wav/a.wav", File);
                                        (of_str "/out/wav/b/c.wav", File)]) [])
           eq_refl eq_refl eq_refl).
Defined.

Lemma batch_found (env : Env) (args : Args) (ffmpeg_bin : string)
  (in_dir out_dir : Path) (w : World) :
  user_path env (input args) = Some in_dir ->
  user_path env (output args) = Some out_dir ->
  batch env args ffmpeg_bin w = batch_in env args ffmpeg_bin in_dir out_dir w.
Proof. unfold batch. now intros -> ->. Qed.

(** X19.  When the two directories are found, the output directory can
    be made, the format list is not empty and the scan finds no audio
    file, the batch creates the output directory, prints the telephony
    advice if it is due and then the line that says so, and returns:
    exit status 0, no directory of a format, no job. *)
Theorem empty_scan_returns
  (env : Env) (args : Args) (ffmpeg_bin : string) (in_dir out_dir : Path)
  (w : World) (fs1 : FS) :
  let targets := targets_of (formats args) in
  user_path env (input args) = Some in_dir ->
  user_path env (output args) = Some out_dir ->
  mkdir_parents (fs w) out_dir = inr fs1 ->
  targets <> [] ->
  scan fs1 in_dir = Some [] ->
  ending_of (batch env args ffmpeg_bin w)
  = (Returned,
     mkWorld fs1
       (log w
        ++ (if telephony args && negb (mem ".wav" targets)
            then [Print MsgTelephonyAdvice] else [])
        ++ [Print (MsgNoAudio in_dir)]))
  /\ exit_status (fst (ending_of (batch env args ffmpeg_bin w))) = 0%Z.
Proof.
  intros targets Hi Ho Hm Ht Hd.
  assert (E : batch env args ffmpeg_bin w
              = (Stop Returned,
                 mkWorld fs1
                   (log w
                    ++ (if telephony args && negb (mem ".wav" targets)
                        then [Print MsgTelephonyAdvice] else [])
                    ++ [Print (MsgNoAudio in_dir)]))).
  { rewrite (batch_found env args ffmpeg_bin in_dir out_dir w Hi Ho).
    unfold batch_in. fold targets.
    rewrite (bind_val _ _ _ _ _ (mkdir_val _ _ _ Hm)).
    destruct targets as [|t l] eqn:Et; [congruence|].
    destruct (telephony args && negb (mem ".wav" (t :: l)));
      unfold bind, print, ret, get_fs, stop; cbn [fs log]; rewrite Hd;
      cbn [or_raise ret fs log]; now rewrite <- ?app_assoc. }
  rewrite E. now split.
Qed.

(** An input directory with a text file only. *)
Lemma empty_scan_returns_witness :
  ending_of (batch (Examples.env_with Completed) (Examples.cli "wav" false false)
               "ffmpeg" (mkWorld [(of_str "/in", Dir); (of_str "/in/a.txt", File)] []))
  = (Returned,
     mkWorld [(of_str "/in", Dir); (of_str "/in/a.txt", File); (of_str "/out", Dir)]
       [Print (MsgNoAudio (of_str "/in"))]).
Proof.
  refine (proj1 (empty_scan_returns (Examples.env_with Completed)
                   (Examples.cli "wav" false false) "ffmpeg"
                   (of_str "/in") (of_str "/out")
                   (mkWorld [(of_str "/in", Dir); (of_str "/in/a.txt", File)] [])
                   [(of_str "/in", Dir); (of_str "/in/a.txt", File); (of_str "/out", Dir)]
                   eq_refl eq_refl eq_refl _ eq_refl)).
  discriminate.
Defined.

Lemma overwrite_apply_telephony (args : Args) :
  overwrite (apply_telephony args) = overwrite args.
Proof. unfold apply_telephony. now destruct (telephony args). Qed.

Lemma filter_none {A} (f : A -> bool) (l : list A) :
  forallb (fun x => negb (f x)) l = true -> filter f l = [].
Proof.
  induction l as [|x l IH]; cbn [forallb filter]; [reflexivity|].
  intros H. apply andb_true_iff in H as [Hx Hl].
  apply negb_true_iff in Hx. rewrite Hx. now apply IH.
Qed.

(** X20.  A run over a finished conversion does nothing: without
    [--overwrite], when the two directories are found, the scan finds
    sources and every destination is there, in a directory that exists,
    the batch prints the number of files found, 0 tasks and that there is
    nothing to do, and returns with exit status 0; the file system is the
    one that the creation of the output directory left, and no progress
    line is printed. *)
Theorem finished_conversion_is_not_repeated
  (env : Env) (args : Args) (ffmpeg_bin : string) (in_dir out_dir : Path)
  (w : World) (fs1 : FS) :
  let targets := targets_of (formats args) in
  let audio_files := discover fs1 in_dir in
  let dests := destinations in_dir out_dir audio_files targets in
  user_path env (input args) = Some in_dir ->
  user_path env (output args) = Some out_dir ->
  mkdir_parents (fs w) out_dir = inr fs1 ->
  overwrite args = false ->
  targets <> [] ->
  scan fs1 in_dir = Some audio_files ->
  audio_files <> [] ->
  forallb valid_suffix targets = true ->
  forallb (fun d => exists_ fs1 d && is_dir fs1 (parent d)) dests = true ->
  ending_of (batch env args ffmpeg_bin w)
  = (Returned,
     mkWorld fs1
       (log w
        ++ (if telephony args && negb (mem ".wav" targets)
            then [Print MsgTelephonyAdvice] else [])
        ++ [Print (MsgFound (List.length audio_files)); Print (MsgTasks 0);
            Print MsgNothingToDo])).
Proof.
  intros targets audio_files dests Hi Hout Hm Ho Ht Hs Ha Hv Hd.
  assert (Hp : forall lg,
             plan (apply_telephony args) in_dir out_dir audio_files targets
                  (mkWorld fs1 lg)
             = (Val 0, mkWorld fs1 lg)).
  { intros lg. rewrite plan_again; cbn [fs].
    - fold dests. rewrite filter_none; [reflexivity|].
      apply forallb_forall. intros d Hin.
      pose proof (forallb_In _ _ d Hd Hin) as H. cbn beta in H.
      apply andb_true_iff in H as [H _]. unfold to_do.
      rewrite H, overwrite_apply_telephony, Ho. reflexivity.
    - apply Forall_forall. intros src Hsrc. now apply discover_relative in Hsrc.
    - exact Hv.
    - intros d Hin. fold dests in Hin.
      pose proof (forallb_In _ _ d Hd Hin) as H. cbn beta in H.
      apply andb_true_iff in H as [H _].
      apply in_destinations_inv in Hin as (src & rel & ext & _ & _ & _ & Hdst).
      eapply destination_accepted; eassumption.
    - intros d Hin. fold dests in Hin.
      pose proof (forallb_In _ _ d Hd Hin) as H. cbn beta in H.
      apply andb_true_iff in H as [_ H]. unfold is_dir in H.
      now destruct (kind_of fs1 (parent d)) as [[|]|]. }
  rewrite (batch_found env args ffmpeg_bin in_dir out_dir w Hi Hout).
  unfold batch_in. fold targets.
  rewrite (bind_val _ _ _ _ _ (mkdir_val _ _ _ Hm)).
  set (b := telephony args && negb (mem ".wav" targets)). clearbody b.
  clear Hv Hd. subst dests.
  destruct targets as [|t l]; [congruence|].
  assert (E : (if b then print MsgTelephonyAdvice else ret tt) (mkWorld fs1 (log w))
              = (Val tt,
                 mkWorld fs1 (log w ++ if b then [Print MsgTelephonyAdvice] else []))).
  { destruct b; unfold print, ret; cbn [fs log]; now rewrite ?app_nil_r. }
  rewrite (bind_val _ _ _ _ _ E), bind_get_fs. cbn [fs].
  rewrite Hs. cbn [or_raise]. rewrite bind_ret.
  clearbody audio_files.
  destruct audio_files as [|a fl]; [congruence|].
  rewrite (bind_val _ _ _ _ _ (Hp _)).
  unfold bind, print, stop, ending_of. cbn [fs log].
  now rewrite <- !app_assoc.
Qed.

(** The outputs of [a.mp3] and [b/c.wav] to wav are there. *)
Lemma finished_conversion_is_not_repeated_witness :
  ending_of (batch (Examples.env_with Completed) (Examples.cli "wav" false false)
               "ffmpeg"
               (mkWorld (Examples.music
                         ++ [(of_str "/out", Dir); (of_str "/out/wav", Dir);
                             (of_str "/out/wav/a.wav", File);
                             (of_str "/out/wav/b", Dir);
                             (of_str "/out/wav/b/c.wav", File)]) []))
  = (Returned,
     mkWorld (Examples.music
              ++ [(of_str "/out", Dir); (of_str "/out/wav", Dir);
                  (of_str "/out/wav/a.wav", File);
                  (of_str "/out/wav/b", Dir);
                  (of_str "/out/wav/b/c.wav", File)])
       [Print (MsgFound 2); Print (MsgTasks 0); Print MsgNothingToDo]).
Proof.
  refine (finished_conversion_is_not_repeated (Examples.env_with Completed)
            (Examples.cli "wav" false false) "ffmpeg" (of_str "/in") (of_str "/out")
            (mkWorld (Examples.music
                      ++ [(of_str "/out", Dir); (of_str "/out/wav", Dir);
                          (of_str "/out/wav/a.wav", File);
                          (of_str "/out/wav/b", Dir);
                          (of_str "/out/wav/b/c.wav", File)]) [])
            (Examples.music
             ++ [(of_str "/out", Dir); (of_str "/out/wav", Dir);
                 (of_str "/out/wav/a.wav", File);
                 (of_str "/out/wav/b", Dir);
                 (of_str "/out/wav/b/c.wav", File)])
            eq_refl eq_refl eq_refl eq_refl _ eq_refl _ eq_refl eq_refl); discriminate.
Defined.
